(** * TopoFlow channel routing: a shallow embedding of
      [topoflow/components/channels_base.py]

    The per-tick update cascade of the channels component ([update] and
    the methods it calls) is embedded as pure functions on an explicit
    component state.

    - Cell values are real numbers: arithmetic is exact and rounding is not
      modelled.  Division, [sqrt], [ln] and the power are the total
      functions of the real-number library; where numpy would produce
      [inf] or [nan] (a zero divisor, a negative radicand) the embedding
      has an ordinary real, and no theorem below rests on that value.  The
      stability guard, whose whole subject is the IEEE special values, is
      embedded separately on IEEE 754 values ([spec_float]) in
      [Module Guard].  The depth formulas of [update_channel_depth] are
      embedded a second time in binary64 ([Module B64]), and the time-step
      helpers of [utils/tf_utils.py] only so: their outcome at ordinary
      inputs depends on the rounding.
    - A 2D numpy array of the DEM's shape is a function from the raveled
      cell ID to its value; [n_pixels] bounds the cells that exist.
    - numpy arrays are objects that are mutated in place and may be reached
      through several attributes.  The state therefore holds a store of
      named array objects ([heap]) and, for the attributes that the source
      binds conditionally ([self.Q], [self.vol]), the object each one is
      bound to.

    Beside the tick, the file embeds the velocity closures, the repair of
    the slope grid, the extreme values and totals of [finalize] and the
    earlier stability guards of the same component, the degree-day snow
    component ([snow_base.py], [snow_degree_day.py], in [Module Snow]),
    the stopping rules of the driver ([topoflow_driver.py], in
    [Module Driver]) and a few helpers of [utils/tf_utils.py] and
    [utils/visualize.py]. *)

From Stdlib Require Import String.
From Stdlib Require Import Reals Lra Lia List Bool Arith Permutation.
From Stdlib Require Import ZArith SpecFloat FunctionalExtensionality.
Import ListNotations.
Local Open Scope R_scope.

(** ** numpy idioms on real-valued arrays *)

Module Np.

Abbreviation cell := nat (only parsing).
Abbreviation grid := (nat -> R) (only parsing).
Abbreviation mask := (nat -> bool) (only parsing).

(** A numpy value handed to the component is a 0-d array (a scalar) or a
    2D grid. *)
Inductive ndarray : Type :=
| Scalar (x : R)
| Grid (g : grid).

(** The value a (broadcast) array has at a cell. *)
Definition at_ (a : ndarray) (i : cell) : R :=
  match a with Scalar x => x | Grid g => g i end.

(** Elementwise binary operation with numpy broadcasting: two scalars
    give a scalar, anything else a grid. *)
Definition lift2 (op : R -> R -> R) (a b : ndarray) : ndarray :=
  match a, b with
  | Scalar x, Scalar y => Scalar (op x y)
  | _, _ => Grid (fun i => op (at_ a i) (at_ b i))
  end.

Definition add := lift2 Rplus.
Definition sub := lift2 Rminus.
Definition mul := lift2 Rmult.

(** Comparisons producing booleans, as in [a < b], [a > 0], [a == 0]. *)
Definition Rltb (x y : R) : bool := if Rlt_dec x y then true else false.
Definition Rleb (x y : R) : bool := if Rle_dec x y then true else false.
Definition Reqb (x y : R) : bool := if Req_dec_T x y then true else false.

(** [x ** y] for a float exponent [y > 0]: [0 ** y] is [0]; a positive
    base is the real power.  (numpy yields NaN for a negative base and a
    fractional exponent; no claim depends on that case.) *)
Definition power (x y : R) : R :=
  if Reqb x 0 then 0 else Rpower x y.

Definition zeros : grid := fun _ => 0.

(** [a[w] = v] for a boolean mask [w]. *)
Definition mask_assign (a : grid) (w : mask) (v : grid) : grid :=
  fun i => if w i then v i else a i.

(** Single-cell store. *)
Definition upd (a : grid) (i : cell) (v : R) : grid :=
  fun j => if Nat.eqb i j then v else a j.

(** [a[ids] = v] for an index list and a scalar [v]. *)
Definition assign_at (a : grid) (ids : list cell) (v : R) : grid :=
  fold_left (fun acc i => upd acc i v) ids a.

(** [a[ids]] (fancy indexing: gather). *)
Definition take (a : grid) (ids : list cell) : list R := map a ids.

(** [a[p] += vals].  numpy evaluates [a[p] + vals] on the array as it is
    before the statement and then stores the results one index at a
    time, so that a repeated index keeps only its last store. *)
Definition iadd_at (a : grid) (p : list cell) (vals : list R) : grid :=
  fold_left (fun acc pv => upd acc (fst pv) (a (fst pv) + snd pv))
            (combine p vals) a.

(** [.sum()] of a list of values and of a whole grid of [n] cells. *)
Definition sum_list (l : list R) : R := fold_right Rplus 0 l.
Definition gsum (n : nat) (a : grid) : R := sum_list (map a (seq 0 n)).

End Np.
Import Np.

(** ** The D8 flow network (consumed as a read-only service)

    [d8_base] is not part of the embedded sources; the component reads the
    attributes below.  [groups] lists the eight triples
    [(p1_OK, p1, w1) ... (p8_OK, p8, w8)] in order: [w_IDs] are the cells
    that drain in one of the eight directions and [p_IDs] their parents. *)

Record d8_group : Type := mkGroup {
  p_OK  : bool;
  p_IDs : list cell;
  w_IDs : list cell
}.

Record d8_base : Type := mkD8 {
  groups     : list d8_group;
  noflow_IDs : list cell;
  parent_IDs : cell -> cell;
  ds         : grid
}.

(** ** Component configuration and inputs (fixed during a tick) *)

(** The 2D array objects, named by the attribute that first holds them.
    [o_ET] is the grid of another component, received by reference. *)
Inductive obj : Type :=
| o_d | o_u | o_f | o_froude | o_tau | o_u_star
| o_A_wet | o_P_wet | o_Rh | o_S_free
| o_vol_chan | o_vol | o_vol_flood | o_vol_stored | o_vol_bankfull
| o_Qc | o_Q | o_Qf | o_d_flood
| o_ET.

Definition obj_eq_dec : forall a b : obj, {a = b} + {a <> b}.
Proof. decide equality. Defined.

(** The evaporation input, which the framework passes by reference: a
    scalar, or the grid object [o_ET] living in the shared store. *)
Inductive ndref : Type :=
| RefScalar (x : R)
| RefGrid.

Record params : Type := mkParams {
  FLOOD_OPTION    : bool;
  ATTENUATE       : bool;
  KINEMATIC_WAVE  : bool;
  DYNAMIC_WAVE    : bool;
  MANNING         : bool;
  LAW_OF_WALL     : bool;
  CHECK_STABILITY : bool;
  dt        : R;
  da        : ndarray;
  n_pixels  : nat;
  width     : grid;
  angle     : ndarray;      (* radians *)
  nval      : ndarray;
  z0val     : ndarray;
  S_bed     : grid;
  d0        : ndarray;
  d_bankfull : ndarray;
  d8        : d8_base;
  outlet_ID : cell;
  rho_H2O   : ndarray;
  P_rain    : ndarray;
  SM        : ndarray;
  GW        : ndarray;
  ET        : ndref;
  IN        : ndarray;
  MR        : ndarray
}.

(** [set_constants] *)
Definition g : R := 9.81.
Definition aval : R := 0.476.
Definition kappa : R := 0.408.
Definition law_const : R := sqrt g / kappa.
Definition one_third : R := 1 / 3.
Definition two_thirds : R := 2 / 3.

(** Assigned in [initialize_computed_vars] when [FLOOD_OPTION] is set, and
    read only by the flood steps. *)
Definition flood_manning_n : R := 0.10.
Definition width_ratio : R := 5.

(** ** Component state *)

(** The 0-d arrays ("mutable scalars"). *)
Inductive sobj : Type :=
| s_vol_R | s_vol_Q | s_vol_edge
| s_vol_chan_sum | s_vol_chan_sum0 | s_vol_flood_sum
| s_Q_outlet | s_u_outlet | s_d_outlet | s_f_outlet
| s_Q_peak | s_T_peak | s_u_peak | s_Tu_peak | s_d_peak | s_Td_peak.

Definition sobj_eq_dec : forall a b : sobj, {a = b} + {a <> b}.
Proof. decide equality. Defined.

Record state : Type := mkState {
  heap      : obj -> grid;   (* the 2D array objects *)
  scal      : sobj -> R;     (* the 0-d array objects *)
  Q_        : obj;           (* the object [self.Q] is bound to *)
  vol_      : obj;           (* the object [self.vol] is bound to *)
  R_        : ndarray;       (* [self.R], rebound every tick *)
  d_is_pos  : mask;
  d_is_zero : mask;
  time_sec  : R
}.

Definition store {A : Type} (h : obj -> A) (o : obj) (v : A) : obj -> A :=
  fun o' => if obj_eq_dec o o' then v else h o'.

Definition sstore (h : sobj -> R) (k : sobj) (v : R) : sobj -> R :=
  fun k' => if sobj_eq_dec k k' then v else h k'.

(** In-place write of a whole array object, as in [self.Qc[:] = ...]. *)
Definition set_heap (s : state) (o : obj) (v : grid) : state :=
  mkState (store (heap s) o v) (scal s) (Q_ s) (vol_ s) (R_ s)
          (d_is_pos s) (d_is_zero s) (time_sec s).

(** [.fill(v)] or [+=] on a 0-d array. *)
Definition set_scal (s : state) (k : sobj) (v : R) : state :=
  mkState (heap s) (sstore (scal s) k v) (Q_ s) (vol_ s) (R_ s)
          (d_is_pos s) (d_is_zero s) (time_sec s).

Definition set_R (s : state) (r : ndarray) : state :=
  mkState (heap s) (scal s) (Q_ s) (vol_ s) r
          (d_is_pos s) (d_is_zero s) (time_sec s).

Definition set_masks (s : state) (pos zero : mask) : state :=
  mkState (heap s) (scal s) (Q_ s) (vol_ s) (R_ s) pos zero (time_sec s).

Definition set_time (s : state) (t : R) : state :=
  mkState (heap s) (scal s) (Q_ s) (vol_ s) (R_ s)
          (d_is_pos s) (d_is_zero s) t.

(** Attribute reads. *)
Definition vol (s : state) : grid := heap s (vol_ s).
Definition Q (s : state) : grid := heap s (Q_ s).
Definition time_min (s : state) : R := time_sec s / 60.

(** ** [initialize_computed_vars]: allocation of the dynamic state

    [p] holds the static inputs as they are after the unit conversions of
    the first half of the method (angles in radians, [ds] multiplied by the
    sinuosity); [ext] holds the array objects owned by other components. *)

Definition trapezoid_area (d w a : R) : R := d * (w + d * tan a).
Definition trapezoid_perimeter (d w a : R) : R := w + 2 * d / cos a.

Definition initialize_computed_vars (p : params) (ext : obj -> grid) : state :=
  let d        : grid := fun i => 0 + at_ (d0 p) i in
  let A_wet    : grid := fun i => trapezoid_area (d i) (width p i) (at_ (angle p) i) in
  let P_wet    : grid :=
    fun i => trapezoid_perimeter (d i) (width p i) (at_ (angle p) i) in
  let vol_chan : grid := fun i => A_wet i * ds (d8 p) i in
  let vol_bankfull : grid :=
    fun i => trapezoid_area (at_ (d_bankfull p) i) (width p i) (at_ (angle p) i)
             * ds (d8 p) i in
  let h : obj -> grid := fun o =>
    match o with
    | o_d => d
    | o_A_wet => A_wet
    | o_P_wet => P_wet
    | o_S_free => S_bed p
    | o_vol_chan => vol_chan
    | o_vol => vol_chan              (* [self.vol_chan.copy()] *)
    | o_vol_bankfull => vol_bankfull
    | o_ET => ext o_ET
    | _ => zeros
    end in
  let sc : sobj -> R := fun k =>
    match k with
    | s_vol_chan_sum | s_vol_chan_sum0 => gsum (n_pixels p) vol_chan
    | _ => 0
    end in
  mkState h sc
          (if FLOOD_OPTION p then o_Q else o_Qc)
          (if FLOOD_OPTION p then o_vol else o_vol_chan)
          (Grid zeros) (fun _ => false) (fun _ => false) 0.

(** ** The steps of [update], in source order *)

Definition update_R (p : params) (s : state) : state :=
  let P  := P_rain p in
  let SM := SM p in
  let GW := GW p in
  let IN := IN p in
  let MR := MR p in
  match ET p with
  | RefGrid =>
      (* ET.ndim == self.vol.ndim *)
      let ET := heap s o_ET in
      let w : mask := fun i => Rltb (vol s i) (ET i * dt p) in
      let s1 := set_heap s o_ET (mask_assign ET w zeros) in   (* ET[w] = 0.0 *)
      set_R s1 (sub (add (add (add P SM) GW) MR) (add (Grid (heap s1 o_ET)) IN))
  | RefScalar _ =>
      (* ET = 0.0 *)
      set_R s (sub (add (add (add P SM) GW) MR) (add (Scalar 0) IN))
  end.

Definition update_R_integral (p : params) (s : state) : state :=
  let volume := mul (mul (R_ s) (da p)) (Scalar (dt p)) in
  match volume with
  | Scalar v => set_scal s s_vol_R (scal s s_vol_R + v * INR (n_pixels p))
  | Grid v   => set_scal s s_vol_R (scal s s_vol_R + gsum (n_pixels p) v)
  end.

Definition update_channel_discharge (p : params) (s : state) : state :=
  set_heap s o_Qc (fun i => heap s o_u i * heap s o_A_wet i).

Definition update_flood_discharge (p : params) (s : state) : state :=
  let Sf : grid := if KINEMATIC_WAVE p then S_bed p else heap s o_S_free in
  let nf  := flood_manning_n in
  let Rhf := heap s o_d_flood in
  let uf : grid := fun i => power (Rhf i) two_thirds * sqrt (Rabs (Sf i)) / nf in
  let n  := width_ratio in
  let Af : grid := fun i => n * width p i * heap s o_d_flood i in
  set_heap s o_Qf (fun i => uf i * Af i).

Definition update_discharge (p : params) (s : state) : state :=
  if FLOOD_OPTION p
  then set_heap s (Q_ s) (fun i => heap s o_Qc i + heap s o_Qf i)
  else s.

(** The body of [update_diversions] starts with [return]. *)
Definition update_diversions (p : params) (s : state) : state := s.

(** One of the eight guarded statements
    [if (d8.pk_OK): self.vol[d8.pk] += (dt * self.Q[d8.wk])]. *)
Definition route_group (p : params) (s : state) (gr : d8_group) : state :=
  if p_OK gr
  then set_heap s (vol_ s)
         (iadd_at (vol s) (p_IDs gr) (map (fun w => dt p * Q s w) (w_IDs gr)))
  else s.

(** [update_flow_volume] up to, and without, the final clamp. *)
Definition flow_volume_unclamped (p : params) (s : state) : state :=
  let s1 :=
    if ATTENUATE p then
      let sa := set_heap s o_vol_stored
                  (fun i => heap s o_vol_stored i + (at_ (R_ s) i * at_ (da p) i) * dt p) in
      let n_days  := 50 in
      let t_drain := 3600 * 24 * n_days in
      let Q_sides : grid := fun i => heap sa o_vol_stored i / t_drain in
      let vol_sides : grid := fun i => Rmin (Q_sides i * dt p) (heap sa o_vol_stored i) in
      let sb := set_heap sa (vol_ sa) (fun i => vol sa i + vol_sides i) in
      let sc := set_heap sb o_vol_stored (fun i => heap sb o_vol_stored i - vol_sides i) in
      set_heap sc o_vol_stored (fun i => Rmax (heap sc o_vol_stored i) 0)
    else
      set_heap s (vol_ s) (fun i => vol s i + (at_ (R_ s) i * at_ (da p) i) * dt p) in
  let s2 := fold_left (route_group p) (groups (d8 p)) s1 in
  set_heap s2 (vol_ s2) (fun i => vol s2 i - Q s2 i * dt p).

Definition update_flow_volume (p : params) (s : state) : state :=
  let s3 := flow_volume_unclamped p s in
  set_heap s3 (vol_ s3) (fun i => Rmax (vol s3 i) 0).

Definition update_channel_volume (p : params) (s : state) : state :=
  set_heap s o_vol_chan (fun i => Rmin (vol s i) (heap s o_vol_bankfull i)).

Definition update_flood_volume (p : params) (s : state) : state :=
  let dvol : grid := fun i => vol s i - heap s o_vol_bankfull i in
  set_heap s o_vol_flood (fun i => Rmax (dvol i) 0).

(** The two depth formulas of [update_channel_depth]. *)
Definition depth_rectangle (vol width ds : R) : R := vol / (width * ds).

Definition depth_trapezoid (vol width ds angle : R) : R :=
  let denom := 2 * tan angle in
  let arg   := 2 * denom * vol / ds + Rsqr width in
  (sqrt arg - width) / denom.

Definition update_channel_depth (p : params) (s : state) : state :=
  let vol   := heap s o_vol_chan in
  let d     := heap s o_d in
  let width := width p in
  let d1 : grid :=
    match angle p with
    | Scalar angle =>                                   (* SCALAR_ANGLES *)
        if Reqb angle 0
        then fun i => depth_rectangle (vol i) (width i) (ds (d8 p) i)
        else fun i => depth_trapezoid (vol i) (width i) (ds (d8 p) i) angle
    | Grid angle =>
        let w1 : mask := fun i => Reqb (angle i) 0 in
        let w2 : mask := fun i => negb (w1 i) in
        let da1 := mask_assign d w1
                     (fun i => depth_rectangle (vol i) (width i) (ds (d8 p) i)) in
        mask_assign da1 w2
          (fun i => depth_trapezoid (vol i) (width i) (ds (d8 p) i) (angle i))
    end in
  let s1 := set_heap s o_d (fun i => Rmax (d1 i) 0) in
  let pos : mask := fun i => Rltb 0 (heap s1 o_d i) in
  set_masks s1 pos (fun i => negb (pos i)).

Definition update_flood_depth (p : params) (s : state) : state :=
  let n := width_ratio in
  let denom : grid := fun i => n * width p i * ds (d8 p) i in
  let d_flood : grid := fun i => heap s o_vol_flood i / denom i in
  set_heap s o_d_flood (fun i => Rmax (d_flood i) 0).

Definition update_trapezoid_Rh (p : params) (s : state) : state :=
  let d  := heap s o_d in
  let wb := width p in
  let L2 : grid := fun i => d i * tan (at_ (angle p) i) in
  let A_wet : grid := fun i => d i * (wb i + L2 i) in
  let P_wet : grid := fun i => wb i + 2 * d i / cos (at_ (angle p) i) in
  let P_wet := assign_at P_wet (noflow_IDs (d8 p)) 1 in
  let Rh : grid := fun i => A_wet i / P_wet i in
  let Rh := assign_at Rh (noflow_IDs (d8 p)) 0 in
  let s1 := set_heap s o_Rh Rh in
  let s2 := set_heap s1 o_A_wet A_wet in
  set_heap s2 o_P_wet P_wet.

Definition update_free_surface_slope (p : params) (s : state) : state :=
  if FLOOD_OPTION p then
    let total_d : grid := fun i => heap s o_d i + heap s o_d_flood i in
    let delta_d : grid := fun i => total_d i - total_d (parent_IDs (d8 p) i) in
    set_heap s o_S_free (fun i => S_bed p i + delta_d i / ds (d8 p) i)
  else
    let delta_d : grid :=
      fun i => heap s o_d i - heap s o_d (parent_IDs (d8 p) i) in
    set_heap s o_S_free (fun i => S_bed p i + delta_d i / ds (d8 p) i).

Definition update_shear_stress (p : params) (s : state) : state :=
  let slope : grid :=
    if KINEMATIC_WAVE p then S_bed p else fun i => Rabs (heap s o_S_free i) in
  set_heap s o_tau (fun i => at_ (rho_H2O p) i * g * heap s o_d i * slope i).

Definition update_shear_speed (p : params) (s : state) : state :=
  set_heap s o_u_star (fun i => sqrt (heap s o_tau i / at_ (rho_H2O p) i)).

Definition update_friction_factor (p : params) (s : state) : state :=
  let wg := d_is_pos s in
  let wb := d_is_zero s in
  let s1 :=
    if MANNING p then
      let n2 : grid := fun i => Rsqr (at_ (nval p) i) in
      let sa := set_heap s o_f
                  (mask_assign (heap s o_f) wg
                     (fun i => g * (n2 i / power (heap s o_d i) one_third))) in
      set_heap sa o_f (mask_assign (heap sa o_f) wb zeros)
    else s in
  if LAW_OF_WALL p then
    let smoothness : grid :=
      fun i => Rmax ((aval / at_ (z0val p) i) * heap s1 o_d i) 1.1 in
    let sa := set_heap s1 o_f
                (mask_assign (heap s1 o_f) wg
                   (fun i => Rsqr (kappa / ln (smoothness i)))) in
    set_heap sa o_f (mask_assign (heap sa o_f) wb zeros)
  else s1.

(** The base class leaves [update_velocity] to the routing scheme that
    inherits from it: it only prints a warning. *)
Definition update_velocity (p : params) (s : state) : state := s.

Definition update_velocity_on_edges (p : params) (s : state) : state :=
  set_heap s o_u (assign_at (heap s o_u) (noflow_IDs (d8 p)) 0).

Definition update_froude_number (p : params) (s : state) : state :=
  let wg := d_is_pos s in
  let wb := d_is_zero s in
  let sa := set_heap s o_froude
              (mask_assign (heap s o_froude) wg
                 (fun i => heap s o_u i / sqrt (g * heap s o_d i))) in
  set_heap sa o_froude (mask_assign (heap sa o_froude) wb zeros).

Definition update_outlet_values (p : params) (s : state) : state :=
  let Q_outlet := Q s (outlet_ID p) in
  let u_outlet := heap s o_u (outlet_ID p) in
  let d_outlet := heap s o_d (outlet_ID p) in
  let f_outlet := heap s o_f (outlet_ID p) in
  let s1 := set_scal s  s_Q_outlet Q_outlet in
  let s2 := set_scal s1 s_u_outlet u_outlet in
  let s3 := set_scal s2 s_d_outlet d_outlet in
  set_scal s3 s_f_outlet f_outlet.

Definition update_peak_values (p : params) (s : state) : state :=
  let s1 :=
    if Rltb (scal s s_Q_peak) (scal s s_Q_outlet)
    then set_scal (set_scal s s_Q_peak (scal s s_Q_outlet)) s_T_peak (time_min s)
    else s in
  let s2 :=
    if Rltb (scal s1 s_u_peak) (scal s1 s_u_outlet)
    then set_scal (set_scal s1 s_u_peak (scal s1 s_u_outlet)) s_Tu_peak (time_min s1)
    else s1 in
  if Rltb (scal s2 s_d_peak) (scal s2 s_d_outlet)
  then set_scal (set_scal s2 s_d_peak (scal s2 s_d_outlet)) s_Td_peak (time_min s2)
  else s2.

Definition update_Q_out_integral (p : params) (s : state) : state :=
  set_scal s s_vol_Q (scal s s_vol_Q + scal s s_Q_outlet * dt p).

Definition update_edge_values (p : params) (s : state) : state :=
  let noflow_IDs := noflow_IDs (d8 p) in
  let vol_edge   := sum_list (take (vol s) noflow_IDs) in
  let s1 := set_scal s s_vol_edge (scal s s_vol_edge + vol_edge) in
  let s2 := set_heap s1 (vol_ s1) (assign_at (vol s1) noflow_IDs 0) in
  let s3 := set_heap s2 o_d (assign_at (heap s2 o_d) noflow_IDs 0) in
  if FLOOD_OPTION p then
    let s4 := set_heap s3 o_vol_flood (assign_at (heap s3 o_vol_flood) noflow_IDs 0) in
    set_heap s4 o_d_flood (assign_at (heap s4 o_d_flood) noflow_IDs 0)
  else s3.

(** Modelled from the spec: the clock advance that ends a tick
    ([BMI_base.update_time], which is not part of the embedded sources). *)
Definition update_time (p : params) (s : state) : state :=
  set_time s (time_sec s + dt p).

(** The first part of [update]: from [update_R] to [update_froude_number],
    in source order. *)
Definition update_to_froude (p : params) (s : state) : state :=
  let s := update_R p s in
  let s := update_R_integral p s in
  let s := update_channel_discharge p s in
  let s := if FLOOD_OPTION p
           then update_discharge p (update_flood_discharge p s) else s in
  let s := update_diversions p s in
  let s := update_flow_volume p s in
  let s := if FLOOD_OPTION p
           then update_flood_volume p (update_channel_volume p s) else s in
  let s := update_channel_depth p s in
  let s := if FLOOD_OPTION p then update_flood_depth p s else s in
  let s := if negb (DYNAMIC_WAVE p) then update_trapezoid_Rh p s else s in
  let s := if negb (KINEMATIC_WAVE p) then update_free_surface_slope p s else s in
  let s := update_shear_stress p s in
  let s := update_shear_speed p s in
  let s := update_friction_factor p s in
  let s := update_velocity p s in
  let s := update_velocity_on_edges p s in
  update_froude_number p s.

(** The state transformation of one call of [update], for a component that
    is not disabled.  The stability check and the writing of output files
    read the state without changing it; the check is embedded in
    [Module Guard]. *)
Definition update (p : params) (s : state) : state :=
  let s := update_to_froude p s in
  let s := update_outlet_values p s in
  let s := update_peak_values p s in
  let s := update_Q_out_integral p s in
  let s := update_edge_values p s in
  update_time p s.

(** [n] successive ticks. *)
Fixpoint run (p : params) (n : nat) (s : state) : state :=
  match n with
  | O => s
  | S k => update p (run p k s)
  end.

(** ** The stability guard, on IEEE 754 values

    [check_flow_depth] and [check_flow_velocity] only classify the cells of
    a grid; the grids are flattened to lists of [spec_float]. *)

Module Guard.

Definition fgrid := list spec_float.

Definition fzero : spec_float := S754_zero false.

(** [x < 0.0], [np.isnan(x)], [np.isinf(x)] *)
Definition is_neg (x : spec_float) : bool := SFltb x fzero.
Definition isnan (x : spec_float) : bool :=
  match x with S754_nan => true | _ => false end.
Definition isinf (x : spec_float) : bool :=
  match x with S754_infinity _ => true | _ => false end.

(** [np.size(np.where(c)[0])] and [c.sum()] for a boolean array [c]. *)
Definition count (c : spec_float -> bool) (a : fgrid) : nat :=
  length (filter c a).

(** [a.min()] of a non-empty selection. *)
Definition amin (a : fgrid) : option spec_float :=
  match a with
  | [] => None
  | x :: r => Some (fold_left (fun m y => if SFltb y m then y else m) r x)
  end.

(** What the guard prints before it raises. *)
Inductive line : Type :=
| Found_negative (n : nat) (smallest : option spec_float)
| Found_nan (n : nat)
| Found_inf (n : nat).

(** [RuntimeError], with the report printed before it. *)
Record RuntimeError : Type := mkError {
  report  : list line;
  message : string
}.

Inductive result (A : Type) : Type :=
| Return (a : A)
| Raise (e : RuntimeError).
Arguments Return {A} a.
Arguments Raise {A} e.

Definition bind {A B : Type} (m : result A) (k : A -> result B) : result B :=
  match m with
  | Return a => k a
  | Raise e => Raise e
  end.

Notation "x <- m ;; k" := (bind m (fun x => k))
  (at level 61, m at next level, right associativity).

Definition report_lines (nneg nnan ninf : nat) (negs : fgrid) : list line :=
  (if (0 <? nneg)%nat then [Found_negative nneg (amin negs)] else []) ++
  (if (0 <? nnan)%nat then [Found_nan nnan] else []) ++
  (if (0 <? ninf)%nat then [Found_inf ninf] else []).

Definition check_flow_depth (d : fgrid) : result bool :=
  let OK := true in
  let nneg := count is_neg d in
  let nnan := count isnan d in
  let ninf := count isinf d in
  (* Option to allow NaN but not Inf *)
  if ((nneg =? 0) && (ninf =? 0))%nat then Return OK
  else Raise (mkError (report_lines nneg nnan ninf (filter is_neg d))
                      "Negative or NaN depth found.").

Definition check_flow_velocity (CNEG CNAN CINF : bool) (u : fgrid)
  : result bool :=
  let OK := true in
  let nneg := if CNEG then count is_neg u else 0%nat in
  let nnan := if CNAN then count isnan u else 0%nat in
  let ninf := if CINF then count isinf u else 0%nat in
  if ((nneg =? 0) && (nnan =? 0) && (ninf =? 0))%nat then Return OK
  else Raise (mkError
                (report_lines nneg nnan ninf (filter is_neg u))
                "Found bad velocities.").

(** Component status, as left by [update]. *)
Inductive status : Type := updated | failed.

(** The end of [update]: the checks, then the status.  (Output files and
    the clock lie between the two; they do not depend on the grids'
    classification.) *)
Definition update_check (CHECK_STABILITY : bool) (d u : fgrid)
  : result status :=
  OK <- (if CHECK_STABILITY then
           D_OK <- check_flow_depth d ;;
           U_OK <- check_flow_velocity true true true u ;;
           Return (D_OK && U_OK)
         else Return true) ;;
  if OK then Return updated else Return failed.

Definition raises {A : Type} (m : result A) : Prop :=
  exists e, m = Raise e.

End Guard.
Import Guard.

(** ** A two-cell network used in the examples

    Cell 0 drains into cell 1; cell 1 has no flow direction. *)

Definition demo_d8 : d8_base :=
  mkD8 (mkGroup true [1%nat] [0%nat] :: repeat (mkGroup false [] []) 7)
       [1%nat] (fun _ => 1%nat) (fun _ => 1).

(** Kinematic wave, Manning friction, unit time step and cell area, flat
    banks; the bottom width, the initial depth, the rain and infiltration
    rates, the evaporation input and the flood switch are left open. *)
Definition demo_params (flood : bool) (w depth0 P I : R) (E : ndref) : params :=
  mkParams flood false true false true false true
           1 (Scalar 1) 2
           (fun _ => w) (Scalar 0) (Scalar 0.03) (Scalar (-1)) (fun _ => 0.001)
           (Scalar depth0) (Scalar 10) demo_d8 0%nat (Scalar 1000)
           (Scalar P) (Scalar 0) (Scalar 0) E (Scalar I) (Scalar 0).

Definition demo_state (flood : bool) (w depth0 P I : R) (E : ndref) : state :=
  initialize_computed_vars (demo_params flood w depth0 P I E) (fun _ => zeros).

(** ** A single interior cell with the values of the documented scenarios

    Bottom width 2 m, flat banks, flow length 50 m, bankfull volume
    100 m^3; the stored volume and the depth are left open. *)

Definition scenario_d8 : d8_base := mkD8 [] [] (fun i => i) (fun _ => 50).

Definition scenario_params : params :=
  mkParams true false true false true false true
           1 (Scalar 1) 1
           (fun _ => 2) (Scalar 0) (Scalar 0.03) (Scalar (-1)) (fun _ => 0.001)
           (Scalar 0) (Scalar 10) scenario_d8 0%nat (Scalar 1000)
           (Scalar 0) (Scalar 0) (Scalar 0) (RefScalar 0) (Scalar 0) (Scalar 0).

Definition scenario_state (volume depth : R) : state :=
  mkState (fun o => match o with
                    | o_vol => fun _ => volume
                    | o_vol_bankfull => fun _ => 100
                    | o_d => fun _ => depth
                    | _ => zeros
                    end)
          (fun _ => 0) o_Q o_vol (Grid zeros)
          (fun _ => false) (fun _ => false) 0.

(** ** Predicates used in the statements *)

(** Two states bind [self.Q] and [self.vol] to the same array objects. *)
Definition same_bindings (s s' : state) : Prop :=
  Q_ s' = Q_ s /\ vol_ s' = vol_ s.

(** Neither [self.Q] nor [self.vol] is bound to the array object [o]. *)
Definition unbound (o : obj) (s : state) : Prop := Q_ s <> o /\ vol_ s <> o.

(** From [s] to [s'] the bindings and the array object [o] are unchanged. *)
Definition frame_at (o : obj) (s s' : state) : Prop :=
  same_bindings s s' /\ heap s' o = heap s o.

(** The cached masks describe the current depth grid, which is nowhere
    negative. *)
Definition mask_ok (s : state) : Prop :=
  forall i, (d_is_pos s i = Rltb 0 (heap s o_d i) /\
             d_is_zero s i = negb (d_is_pos s i)) /\
            0 <= heap s o_d i.

(** What the component relies on from the flow network over [n] cells:
    within one direction the parents are distinct cells of the grid, one
    per draining cell, and every cell of the grid either drains in exactly
    one direction or is a noflow cell. *)
Definition d8_ok (n : nat) (d : d8_base) : Prop :=
  (forall gr, In gr (groups d) -> p_OK gr = true ->
     length (p_IDs gr) = length (w_IDs gr) /\
     NoDup (p_IDs gr) /\
     (forall j, In j (p_IDs gr) -> (j < n)%nat)) /\
  Permutation (flat_map w_IDs (filter p_OK (groups d)) ++ noflow_IDs d)
              (seq 0 n).

(** The volume grid of a tick just before the clamp that ends
    [update_flow_volume]. *)
Definition unclamped_volume (p : params) (s : state) : grid :=
  let s := update_R p s in
  let s := update_R_integral p s in
  let s := update_channel_discharge p s in
  let s := if FLOOD_OPTION p
           then update_discharge p (update_flood_discharge p s) else s in
  let s := update_diversions p s in
  vol (flow_volume_unclamped p s).

(** The steps between [update_flow_volume] and [update_edge_values] leave
    the channel volume, the edge total and [R] alone. *)
Definition keeps_vol (s s' : state) : Prop :=
  same_bindings s s' /\
  heap s' o_vol_chan = heap s o_vol_chan /\
  scal s' s_vol_edge = scal s s_vol_edge /\
  R_ s' = R_ s.

(** The two-cell network with attenuation of the net excess switched on;
    the rain rate is left open. *)
Definition attenuated_params (P : R) : params :=
  mkParams false true true false true false true
           1 (Scalar 1) 2
           (fun _ => 1) (Scalar 0) (Scalar 0.03) (Scalar (-1)) (fun _ => 0.001)
           (Scalar 1) (Scalar 10) demo_d8 0%nat (Scalar 1000)
           (Scalar P) (Scalar 0) (Scalar 0) (RefScalar 0) (Scalar 0) (Scalar 0).

(** The two-cell network with the log-law closure in place of Manning's
    formula (roughness length 1 cm), bottom width 2 m and initial depth
    1 m. *)
Definition log_law_params : params :=
  mkParams false false true false false true true
           1 (Scalar 1) 2
           (fun _ => 2) (Scalar 0) (Scalar 0.03) (Scalar 0.01) (fun _ => 0.001)
           (Scalar 1) (Scalar 10) demo_d8 0%nat (Scalar 1000)
           (Scalar 0) (Scalar 0) (Scalar 0) (RefScalar 0) (Scalar 0) (Scalar 0).

(** In a state reached from [initialize_computed_vars], [self.Q] and
    [self.vol] are bound as the flood option dictates. *)
Definition bound_ok (p : params) (s : state) : Prop :=
  Q_ s = (if FLOOD_OPTION p then o_Q else o_Qc) /\
  vol_ s = (if FLOOD_OPTION p then o_vol else o_vol_chan).

(** ** The velocity closures ([manning_formula], [law_of_the_wall])

    The routing schemes that inherit from the base class call one of the
    two from their [update_velocity]. *)

Definition manning_formula (p : params) (s : state) : grid :=
  let S_ : grid := if KINEMATIC_WAVE p then S_bed p else heap s o_S_free in
  let S2 : grid := fun i => Rabs (S_ i) in
  fun i => power (heap s o_Rh i) two_thirds * sqrt (S2 i) / at_ (nval p) i.

Definition law_of_the_wall (p : params) (s : state) : grid :=
  let S_ : grid := if KINEMATIC_WAVE p then S_bed p else heap s o_S_free in
  let smoothness : grid := fun i => (aval / at_ (z0val p) i) * heap s o_d i in
  let smoothness : grid := fun i => Rmax (smoothness i) 1.1 in
  let S2 : grid := fun i => Rabs (S_ i) in
  fun i => law_const * sqrt (heap s o_Rh i * S2 i) * ln (smoothness i).

(** The module-level [Trapezoid_Rh(d, wb, theta)], with [theta] in
    degrees, at one cell. *)
Definition Trapezoid_Rh (d wb theta : R) : R :=
  let theta_rad := theta * PI / 180 in
  let AW := d * (wb + d * tan theta_rad) in
  let PW := wb + 2 * d / cos theta_rad in
  AW / PW.

(** ** Totals for the final report ([update_total_channel_water_volume]),
    called by [finalize] *)

Definition update_total_channel_water_volume (p : params) (s : state) : state :=
  let vol_chan_sum := gsum (n_pixels p) (heap s o_vol_chan) in
  set_scal s s_vol_chan_sum vol_chan_sum.

(** ** Extreme values over the interior of the grid
    ([initialize_min_and_max_values], [update_mins_and_maxes]) *)

Record extremes : Type := mkExtremes {
  Q_min : R; Q_max : R;
  u_min : R; u_max : R;
  d_min : R; d_max : R
}.

Definition initialize_min_and_max_values : extremes :=
  let v := 1000000 in
  mkExtremes v (- v) v (- v) v (- v).

(** The raveled IDs of the slice [[1:ny-1, 1:nx-1]] of a grid with [ny]
    rows and [nx] columns, row by row. *)
Definition interior (ny nx : nat) : list cell :=
  flat_map (fun row => map (fun col => (row * nx + col)%nat) (seq 1 (nx - 2)))
           (seq 1 (ny - 2)).

(** [.min()] and [.max()] of a selection of real values; numpy raises
    [ValueError] on an empty one. *)
Definition rmin_list (l : list R) : option R :=
  match l with
  | [] => None
  | x :: r => Some (fold_left Rmin r x)
  end.

Definition rmax_list (l : list R) : option R :=
  match l with
  | [] => None
  | x :: r => Some (fold_left Rmax r x)
  end.

(** [update_mins_and_maxes] on a grid of [ny] rows and [nx] columns;
    [None] stands for the [ValueError] of a reduction over an empty
    interior. *)
Definition update_mins_and_maxes (ny nx : nat) (s : state) (e : extremes)
  : option extremes :=
  let ids := interior ny nx in
  match rmin_list (take (Q s) ids), rmax_list (take (Q s) ids),
        rmin_list (take (heap s o_u) ids), rmax_list (take (heap s o_u) ids),
        rmin_list (take (heap s o_d) ids), rmax_list (take (heap s o_d) ids)
  with
  | Some Qmin, Some Qmax, Some umin, Some umax, Some dmin, Some dmax =>
      Some (mkExtremes
              (if Rltb Qmin (Q_min e) then Qmin else Q_min e)
              (if Rltb (Q_max e) Qmax then Qmax else Q_max e)
              (if Rltb umin (u_min e) then umin else u_min e)
              (if Rltb (u_max e) umax then umax else u_max e)
              (if Rltb dmin (d_min e) then dmin else d_min e)
              (if Rltb (d_max e) dmax then dmax else d_max e))
  | _, _, _, _, _, _ => None
  end.

(** ** The earlier versions of the stability guard
    ([check_flow_depth_LAST], [check_flow_velocity_LAST]) *)

(** [np.isfinite(x)] *)
Definition isfinite (x : spec_float) : bool := negb (isnan x || isinf x).

(** [np.logical_or(x < 0.0, np.logical_not(np.isfinite(x)))] *)
Definition is_bad (x : spec_float) : bool := is_neg x || negb (isfinite x).

(** [a.min()] of a selection that may hold NaN: numpy's reduction
    propagates it. *)
Definition np_min (a : fgrid) : option spec_float :=
  if existsb isnan a then Some S754_nan else amin a.

(** The raveled index and the value of the first cell that satisfies [c],
    as in [wbad[0][0]], [wbad[1][0]]. *)
Fixpoint first_where (c : spec_float -> bool) (a : fgrid) (k : nat)
  : option (nat * spec_float) :=
  match a with
  | [] => None
  | x :: r => if c x then Some (k, x) else first_where c r (S k)
  end.

(** What the earlier guards print before they raise: the smallest bad
    value and, for fewer than 30 bad cells, the first bad cell. *)
Record LastError : Type := mkLastError {
  smallest_bad : option spec_float;
  first_bad    : option (nat * spec_float);
  last_message : string
}.

Definition check_flow_depth_LAST (d : fgrid) : LastError + bool :=
  let OK := true in
  let wbad := filter is_bad d in
  let nbad := length wbad in
  if (nbad =? 0)%nat then inr OK
  else
    let dmin := np_min wbad in
    inl (mkLastError dmin
           (if (nbad <? 30)%nat then first_where is_bad d 0 else None)
           "Negative depth found.").

Definition check_flow_velocity_LAST (u : fgrid) : LastError + bool :=
  let OK := true in
  let wbad := filter is_bad u in
  let nbad := length wbad in
  if (nbad =? 0)%nat then inr OK
  else
    let umin := np_min wbad in
    inl (mkLastError umin
           (if (nbad <? 30)%nat then first_where is_bad u 0 else None)
           "Negative or NaN velocity found.").

Definition raises_last (m : LastError + bool) : Prop :=
  exists e, m = inl e.

(** ** Repair of the slope grid ([remove_bad_slopes])

    Called by [initialize_computed_vars] for the kinematic wave, with
    [FLOAT] left at its default, so that the final conversion to [float64]
    changes nothing.  The slope grid is flattened; [None] stands for the
    [ValueError] that [.min()] raises when no cell is good.  The summary
    printed unless [SILENT] is set is left out. *)

(** [x == 0.0] *)
Definition is_zero (x : spec_float) : bool := SFeqb x fzero.

Definition remove_bad_slopes (slope : fgrid) : option fgrid :=
  let nnan  := count isnan slope in
  let nzero := count is_zero slope in
  let nneg  := count is_neg slope in
  let ninf  := count isinf slope in
  let nbad  := (nnan + nneg + ninf + nzero)%nat in
  if (nbad =? 0)%nat then Some slope
  else
    let bad : spec_float -> bool := fun x =>
      (if (0 <? nnan)%nat then isnan x else false) ||
      (if (0 <? nzero)%nat then is_zero x else false) ||
      (if (0 <? nneg)%nat then is_neg x else false) ||
      (if (0 <? ninf)%nat then isinf x else false) in
    let good : spec_float -> bool := fun x => negb (bad x) in
    match np_min (filter good slope) with
    | None => None
    | Some S_min => Some (map (fun x => if bad x then S_min else x) slope)
    end.

(** A slope value that [remove_bad_slopes] replaces: NaN, zero, negative
    or infinite. *)
Definition bad_slope (x : spec_float) : bool :=
  isnan x || is_zero x || is_neg x || isinf x.

(** ** Binary64 evaluation

    numpy evaluates every operation on float64 values as IEEE 754
    prescribes, rounding to nearest with ties to even: these are
    SpecFloat's operations at precision 53 and exponent bound 1024.  The
    functions below are the ones whose result depends on the rounding. *)

Module B64.

Definition prec : Z := 53.
Definition emax : Z := 1024.

Definition add  := SFadd prec emax.
Definition sub  := SFsub prec emax.
Definition mul  := SFmul prec emax.
Definition div  := SFdiv prec emax.
Definition sqrt := SFsqrt prec emax.

(** The float of an integer and of the decimal literal [n * 10**(-k)];
    the latter is the correctly rounded quotient, which is the value of
    the literal when [n] and [10**k] are floats themselves ([|n| < 2**53],
    [k <= 22]). *)
Definition of_Z (n : Z) : spec_float := binary_normalize prec emax n 0 false.
Definition dec (n k : Z) : spec_float := div (of_Z n) (of_Z (10 ^ k)).

(** [np.maximum(x, y)]: a NaN operand is returned. *)
Definition maximum (x y : spec_float) : spec_float :=
  match x, y with
  | S754_nan, _ => S754_nan
  | _, S754_nan => S754_nan
  | _, _ => if SFltb x y then y else x
  end.

(** The volume that [initialize_computed_vars] of the channels component
    stores for a depth [d]: [L2 = d * np.tan(angle)],
    [A_wet = d * (width + L2)], [vol_chan = A_wet * ds].  [tan_angle] is
    the float that [np.tan(angle)] returns. *)
Definition trapezoid_volume (d width tan_angle ds : spec_float) : spec_float :=
  let L2    := mul d tan_angle in
  let A_wet := mul d (add width L2) in
  mul A_wet ds.

(** The two depth formulas of [update_channel_depth] and the clamp that
    ends it, at one cell. *)
Definition depth_rectangle (vol width ds : spec_float) : spec_float :=
  div vol (mul width ds).

Definition depth_trapezoid (vol width ds tan_angle : spec_float) : spec_float :=
  let denom := mul (of_Z 2) tan_angle in
  let arg   := div (mul (mul (of_Z 2) denom) vol) ds in
  let arg   := add arg (mul width width) in            (* width**2.0 *)
  div (sub (sqrt arg) width) denom.

Definition channel_depth (angle_is_zero : bool)
           (vol width ds tan_angle : spec_float) : spec_float :=
  let d := if angle_is_zero then depth_rectangle vol width ds
           else depth_trapezoid vol width ds tan_angle in
  maximum d (of_Z 0).

End B64.

(** ** Time-step helpers of [utils/tf_utils.py] *)

Definition Courant_Condition_OK (dx dt vmax : spec_float) : bool :=
  let factor := B64.of_Z 1 in
  SFleb (B64.mul (B64.mul vmax dt) factor) dx.

Definition Stable_Timestep (dx vmax : spec_float) : spec_float :=
  let factor := B64.of_Z 1 in
  B64.div dx (B64.mul vmax factor).

(** ** Grid normalisation of [utils/visualize.py]

    A grid is flattened to the list of its values; [None] stands for the
    [ValueError] of [.min()] on an empty grid. *)

Definition normalize_grid (grid : list R) : option (list R) :=
  match rmin_list grid, rmax_list grid with
  | Some gmin, Some gmax =>
      if negb (Reqb gmin gmax)
      then Some (map (fun x => (x - gmin) / (gmax - gmin)) grid)
      else Some (map (fun _ => 0) grid)
  | _, _ => None
  end.

Definition power_stretch2 (grid : list R) (a b : R) : option (list R) :=
  match normalize_grid grid with
  | Some norm => Some (map (fun x => 1 - Rpower (1 + a * x) (- b)) norm)
  | None => None
  end.

(** ** The snow component ([snow_base.py], [snow_degree_day.py])

    The inputs and the state variables are scalars (0-d arrays) or grids,
    as in the channels component.  An in-place operation whose target is a
    0-d array and whose operand is a grid cannot store its result; numpy
    raises, which is [None] here. *)

Module Snow.

Record config : Type := mkConfig {
  disabled : bool;               (* comp_status is 'disabled' *)
  rho_H2O  : ndarray;
  rho_snow : ndarray;
  dt       : R;
  da       : ndarray;
  n_pixels : nat;
  c0       : ndarray;            (* degree-day melt factor *)
  T0       : ndarray             (* threshold temperature *)
}.

(** What the meteorology component supplies at a tick. *)
Record met : Type := mkMet {
  T_air  : ndarray;
  P_snow : ndarray
}.

(** [self_density_ratio] is the attribute [self.density_ratio]; the local
    variable [density_ratio] of [enforce_max_meltrate] is another value. *)
Record state : Type := mkState {
  h_snow : ndarray;
  h_swe  : ndarray;
  SM     : ndarray;
  vol_SM : R;
  self_density_ratio : ndarray
}.

Definition div := lift2 Rdiv.

(** The ratio [rho_H2O / rho_snow] of the inputs [c] as they are when it is
    evaluated: [initialize_computed_vars] evaluates it on the inputs read
    at initialization, [enforce_max_meltrate] on those of the tick. *)
Definition density_ratio (c : config) : ndarray := div (rho_H2O c) (rho_snow c).

(** The assignments of [initialize_computed_vars] to the variables above,
    given the arrays it has allocated for the two depths and the melt
    rate.  The last one is the only assignment to [self.density_ratio] in
    the component: [update] reads the inputs again at every tick after the
    first ([read_input_files] assigns [rho_snow]), and does not come back
    to it. *)
Definition initialize_computed_vars
           (c : config) (h_snow h_swe SM : ndarray) : state :=
  mkState h_snow h_swe SM 0 (density_ratio c).

(** [target op= v], in place. *)
Definition inplace (op : R -> R -> R) (target v : ndarray) : option ndarray :=
  match target, v with
  | Scalar x, Scalar y => Some (Scalar (op x y))
  | Scalar _, Grid _ => None
  | Grid a, _ => Some (Grid (fun i => op (a i) (at_ v i)))
  end.

Definition set_SM (s : state) (v : ndarray) : state :=
  mkState (h_snow s) (h_swe s) v (vol_SM s) (self_density_ratio s).

(** [snow_degree_day.update_meltrate] *)
Definition update_meltrate (c : config) (m : met) (s : state) : state :=
  let M := mul (div (c0 c) (Scalar 86400000)) (sub (T_air m) (T0 c)) in
  set_SM s (lift2 Rmax M (Scalar 0)).

Definition enforce_max_meltrate (c : config) (s : state) : state :=
  let density_ratio := div (rho_H2O c) (rho_snow c) in
  let SM_max := mul (div density_ratio (Scalar (dt c))) (h_snow s) in
  let s1 := set_SM s (lift2 Rmin (SM s) SM_max) in
  set_SM s1 (lift2 Rmax (SM s1) (Scalar 0)).

Definition update_SM_integral (c : config) (s : state) : state :=
  let volume := mul (mul (SM s) (da c)) (Scalar (dt c)) in
  match volume with
  | Scalar v => mkState (h_snow s) (h_swe s) (SM s)
                        (vol_SM s + v * INR (n_pixels c)) (self_density_ratio s)
  | Grid v   => mkState (h_snow s) (h_swe s) (SM s)
                        (vol_SM s + gsum (n_pixels c) v) (self_density_ratio s)
  end.

Definition update_swe (c : config) (m : met) (s : state) : option state :=
  let dh1_swe := mul (P_snow m) (Scalar (dt c)) in
  match inplace Rplus (h_swe s) dh1_swe with
  | None => None
  | Some h1 =>
      let dh2_swe := mul (SM s) (Scalar (dt c)) in
      match inplace Rminus h1 dh2_swe with
      | None => None
      | Some h2 =>
          match inplace Rmax h2 (Scalar 0) with
          | None => None
          | Some h3 => Some (mkState (h_snow s) h3 (SM s) (vol_SM s)
                                     (self_density_ratio s))
          end
      end
  end.

Definition update_depth (s : state) : option state :=
  let h_snow' := mul (h_swe s) (self_density_ratio s) in
  match h_snow s, h_snow' with
  | Scalar _, Scalar x =>
      Some (mkState (Scalar x) (h_swe s) (SM s) (vol_SM s) (self_density_ratio s))
  | Scalar _, Grid _ => None
  | Grid _, _ =>
      Some (mkState (Grid (fun i => at_ h_snow' i)) (h_swe s) (SM s) (vol_SM s)
                    (self_density_ratio s))
  end.

(** [snow_base.update] for the degree-day component; reading the next
    inputs, writing output files and advancing the clock do not touch the
    variables above. *)
Definition update (c : config) (m : met) (s : state) : option state :=
  if disabled c then Some s
  else
    let s := update_meltrate c m s in
    let s := enforce_max_meltrate c s in
    let s := update_SM_integral c s in
    match update_swe c m s with
    | None => None
    | Some s => update_depth s
    end.

End Snow.

(** A thin snow pack: 0.1 mm of water equivalent under 0.4 mm of snow
    (density ratio 4), a melt factor of 2.7 mm/day/deg_C above 0 deg_C and
    a time step of one hour; all inputs are scalars. *)
Definition snow_demo_config : Snow.config :=
  Snow.mkConfig false (Scalar 1000) (Scalar 250) 3600 (Scalar 100) 4
                (Scalar 2.7) (Scalar 0).

Definition snow_demo_state : Snow.state :=
  Snow.initialize_computed_vars snow_demo_config
    (Scalar (4 / 10000)) (Scalar (1 / 10000)) (Scalar 0).

(** The inputs of a later tick, after [read_input_files] has read a snow
    density of 500 kg/m^3 in place of the 250 kg/m^3 of initialization. *)
Definition snow_demo_config_denser : Snow.config :=
  Snow.mkConfig false (Scalar 1000) (Scalar 500) 3600 (Scalar 100) 4
                (Scalar 2.7) (Scalar 0).

(** The thin pack after one tick under air temperature [T] and snowfall
    rate [P]. *)
Definition snow_demo_after (T P : R) : Snow.state :=
  match Snow.update snow_demo_config (Snow.mkMet (Scalar T) (Scalar P))
                    snow_demo_state with
  | Some s' => s'
  | None => snow_demo_state
  end.

(** ** The stopping rules of the driver ([topoflow_driver.py]) *)

Module Driver.

(** [Q_outlet] and [Q_peak] are references to the 0-d arrays of the
    channels component; [time_min] and [time_index] belong to the clock. *)
Record driver : Type := mkDriver {
  stop_method : string;
  Qp_fraction : R;
  T_stop      : R;
  n_steps     : Z;
  steady_tol  : R;
  nonzero_tol : R;
  n_same_max  : Z;
  Q_outlet    : R;
  Q_peak      : R;
  time_min    : R;
  time_index  : Z;
  DONE        : bool;
  Q_last      : R;
  n_same      : Z
}.

Definition set_DONE (d : driver) (b : bool) : driver :=
  mkDriver (stop_method d) (Qp_fraction d) (T_stop d) (n_steps d)
           (steady_tol d) (nonzero_tol d) (n_same_max d)
           (Q_outlet d) (Q_peak d) (time_min d) (time_index d)
           b (Q_last d) (n_same d).

Definition set_Q_last (d : driver) (q : R) : driver :=
  mkDriver (stop_method d) (Qp_fraction d) (T_stop d) (n_steps d)
           (steady_tol d) (nonzero_tol d) (n_same_max d)
           (Q_outlet d) (Q_peak d) (time_min d) (time_index d)
           (DONE d) q (n_same d).

Definition set_n_same (d : driver) (n : Z) : driver :=
  mkDriver (stop_method d) (Qp_fraction d) (T_stop d) (n_steps d)
           (steady_tol d) (nonzero_tol d) (n_same_max d)
           (Q_outlet d) (Q_peak d) (time_min d) (time_index d)
           (DONE d) (Q_last d) n.

(** What the channels component and the clock show at the next check. *)
Definition observe (d : driver) (Qout Qpk tmin : R) (tidx : Z) : driver :=
  mkDriver (stop_method d) (Qp_fraction d) (T_stop d) (n_steps d)
           (steady_tol d) (nonzero_tol d) (n_same_max d)
           Qout Qpk tmin tidx
           (DONE d) (Q_last d) (n_same d).

(** The part of [initialize_stop_vars] that [check_steady_state] reads. *)
Definition initialize_stop_vars (d : driver) : driver :=
  mkDriver (stop_method d) (Qp_fraction d) (T_stop d) (n_steps d)
           (1 / 100000) (1 / 100000) 499
           (Q_outlet d) (Q_peak d) (time_min d) (time_index d)
           (DONE d) (Q_outlet d) 0.

(** [np.int32] addition. *)
Definition wrap32 (z : Z) : Z := ((z + 2 ^ 31) mod 2 ^ 32 - 2 ^ 31)%Z.

Definition check_steady_state (d : driver) : bool * driver :=
  let STEADY := false in
  let delta_Q := Rabs (Q_outlet d - Q_last d) in
  let d :=
    if Rleb delta_Q (steady_tol d)
    then set_n_same d (wrap32 (n_same d + 1))
    else set_n_same d 0 in
  if String.eqb (stop_method d) "Q_peak_fraction"
     && Rltb (nonzero_tol d) (Q_outlet d)
     && (n_same_max d <? n_same d)%Z
  then (true, d)
  else (STEADY, d).

Definition check_finished (d : driver) : result (bool * driver) :=
  d <- (if String.eqb (stop_method d) "Q_peak_fraction" then
          let FALLING_LIMB := Rltb (Q_outlet d) (Q_last d) in
          if FALLING_LIMB then
            let Q_stop := Q_peak d * Qp_fraction d in
            Return (set_DONE d (Rleb (Q_outlet d) Q_stop && Rltb 0 (Q_outlet d)))
          else Return d
        else if String.eqb (stop_method d) "Until_model_time" then
          Return (set_DONE d (Rleb (T_stop d) (time_min d)))
        else if String.eqb (stop_method d) "Until_n_steps" then
          Return (set_DONE d (n_steps d <=? time_index d)%Z)
        else Raise (mkError [] "No match found for expression")) ;;
  let FINISHED := DONE d in
  let (STEADY, d) := check_steady_state d in
  let FAILED := false in
  let d := set_Q_last d (Q_outlet d) in
  let d := set_DONE d (FINISHED || STEADY || FAILED) in
  Return (DONE d, d).

(** A run of checks, one per tick, each on what the channels component
    and the clock show then; it ends at the first check that returns
    [True] or raises. *)
Fixpoint checks (obs : list (R * R * R * Z)) (d : driver)
  : result (bool * driver) :=
  match obs with
  | [] => Return (DONE d, d)
  | (Qout, Qpk, tmin, tidx) :: rest =>
      r <- check_finished (observe d Qout Qpk tmin tidx) ;;
      if fst r then Return r else checks rest (snd r)
  end.

End Driver.

(** The outlet discharge shown at a check, and a hydrograph that never
    falls from one check to the next, starting above [q0]. *)
Definition shown_Q (o : R * R * R * Z) : R := fst (fst (fst o)).

Fixpoint rising (q0 : R) (obs : list (R * R * R * Z)) : Prop :=
  match obs with
  | [] => True
  | o :: rest => q0 <= shown_Q o /\ rising (shown_Q o) rest
  end.

(** * Properties *)

(** ** Array-store bookkeeping *)

Lemma store_same {A : Type} (h : obj -> A) (o : obj) (v : A) :
  store h o v o = v.
Proof. unfold store. destruct (obj_eq_dec o o); congruence. Qed.

Lemma store_other {A : Type} (h : obj -> A) (o o' : obj) (v : A) :
  o <> o' -> store h o v o' = h o'.
Proof. unfold store. intros H. destruct (obj_eq_dec o o'); congruence. Qed.

Lemma Rltb_true (x y : R) : Rltb x y = true <-> x < y.
Proof. unfold Rltb. destruct (Rlt_dec x y); split; intros; try discriminate; tauto. Qed.

Lemma Rltb_false (x y : R) : Rltb x y = false <-> y <= x.
Proof.
  unfold Rltb. destruct (Rlt_dec x y); split; intros;
    try discriminate; try reflexivity; lra.
Qed.

Lemma Reqb_true (x y : R) : Reqb x y = true <-> x = y.
Proof. unfold Reqb. destruct (Req_dec_T x y); split; intros; try discriminate; tauto. Qed.

Lemma Reqb_false (x y : R) : Reqb x y = false <-> x <> y.
Proof. unfold Reqb. destruct (Req_dec_T x y); split; intros; try discriminate; tauto. Qed.

(** ** Index assignment *)

Lemma assign_at_spec (ids : list cell) (a : grid) (v : R) (i : cell) :
  assign_at a ids v i = if in_dec Nat.eq_dec i ids then v else a i.
Proof.
  unfold assign_at. revert a.
  induction ids as [|j ids IH]; intros a; simpl; [reflexivity|].
  rewrite IH. unfold upd.
  destruct (in_dec Nat.eq_dec i ids) as [Hi|Hi];
    destruct (Nat.eq_dec j i) as [Hj|Hj]; try reflexivity.
  - subst j. rewrite Nat.eqb_refl. reflexivity.
  - apply Nat.eqb_neq in Hj. rewrite Hj. reflexivity.
Qed.

Lemma assign_at_in (ids : list cell) (a : grid) (v : R) (i : cell) :
  In i ids -> assign_at a ids v i = v.
Proof.
  intros H. rewrite assign_at_spec.
  destruct (in_dec Nat.eq_dec i ids); [reflexivity|contradiction].
Qed.

Lemma assign_at_notin (ids : list cell) (a : grid) (v : R) (i : cell) :
  ~ In i ids -> assign_at a ids v i = a i.
Proof.
  intros H. rewrite assign_at_spec.
  destruct (in_dec Nat.eq_dec i ids); [contradiction|reflexivity].
Qed.

(** ** Depth inversion ([update_channel_depth]) *)

Lemma depth_rectangle_inverse (d w l : R) :
  0 < w -> 0 < l ->
  depth_rectangle (trapezoid_area d w 0 * l) w l = d.
Proof.
  intros Hw Hl. unfold depth_rectangle, trapezoid_area.
  rewrite tan_0. field. split; lra.
Qed.

Lemma depth_trapezoid_inverse (d w l a : R) :
  0 <= w -> 0 <= d -> 0 < l -> 0 < tan a ->
  depth_trapezoid (trapezoid_area d w a * l) w l a = d.
Proof.
  intros Hw Hd Hl Ht. unfold depth_trapezoid, trapezoid_area. cbn zeta.
  replace (2 * (2 * tan a) * (d * (w + d * tan a) * l) / l + Rsqr w)
    with (Rsqr (w + 2 * tan a * d)) by (unfold Rsqr; field; lra).
  rewrite sqrt_Rsqr by nra.
  field. lra.
Qed.

(** The value written to [self.d] at one cell. *)
Lemma update_channel_depth_d (p : params) (s : state) (i : cell) :
  heap (update_channel_depth p s) o_d i =
  Rmax (if Reqb (at_ (angle p) i) 0
        then depth_rectangle (heap s o_vol_chan i) (width p i) (ds (d8 p) i)
        else depth_trapezoid (heap s o_vol_chan i) (width p i) (ds (d8 p) i)
               (at_ (angle p) i)) 0.
Proof.
  unfold update_channel_depth. cbn.
  destruct (angle p) as [a|a]; cbn.
  - destruct (Reqb a 0); reflexivity.
  - unfold mask_assign. destruct (Reqb (a i) 0); reflexivity.
Qed.

(** C2 (as stated, refuted): in binary64, as numpy evaluates the two
    maps, a depth is not recovered within a relative tolerance of 1e-9.
    For width = 100.0, a bank angle of 2 degrees ([np.tan] of 2*pi/180 is
    0.03492076949174773), depth d = 1e-06 and ds = 30.0 the stored volume
    is 0.0030000000010476234 and the depth computed from it is
    9.999999207058415e-07: the difference [sqrt(arg) - width] of two
    numbers near 100 keeps few of the digits of a depth near 1e-6.  The
    error, 7.9e-14, is 79 times the tolerance 1e-9 * d = 1e-15. *)
Lemma depth_inversion_binary64_counterexample :
  let width     := B64.of_Z 100 in
  let tan_angle := B64.dec 3492076949174773 17 in
  let d         := B64.dec 1 6 in
  let ds        := B64.of_Z 30 in
  let vol       := B64.trapezoid_volume d width tan_angle ds in
  let d'        := B64.channel_depth false vol width ds tan_angle in
  d   = S754_finite false 4722366482869645 (-72) /\
  vol = S754_finite false 6917529030056737 (-61) /\
  d'  = S754_finite false 4722366108413569 (-72) /\
  SFleb (SFabs (B64.sub d' d)) (B64.mul (B64.dec 1 9) (SFabs d)) = false /\
  SFltb (B64.mul (B64.dec 79 9) (SFabs d)) (SFabs (B64.sub d' d)) = true.
Proof. vm_compute. repeat split. Qed.

(** Where the bank angle and the bottom width are both zero, every depth
    has volume zero and the linear branch divides zero by zero: the depth
    computed is NaN.  ([initialize_computed_vars] replaces the zero widths
    of the input by the width of the flow before any volume is stored.) *)
Lemma depth_inversion_zero_width_nan :
  let width := B64.of_Z 0 in
  let ds    := B64.of_Z 30 in
  let vol   := B64.trapezoid_volume (B64.of_Z 1) width (B64.of_Z 0) ds in
  vol = S754_zero false /\
  B64.channel_depth true vol width ds (B64.of_Z 0) = S754_nan.
Proof. vm_compute. split; reflexivity. Qed.

(** C2 (amended): the two branches of the depth inversion are the exact
    inverses of the forward map.  For every width >= 0, angle in
    [0, pi/2) with width > 0 where the angle is 0, depth d >= 0 and flow
    length ds > 0, the depth inversion applied to vol = A_wet(d)*ds,
    A_wet(d) = d*(width + d*tan(angle)), returns d in real arithmetic.
    No tolerance is stated for the binary64 evaluation. *)
Theorem depth_inversion_right_inverse (p : params) (s : state) (i : cell) (d : R) :
  0 <= width p i ->
  0 <= at_ (angle p) i < PI / 2 ->
  (at_ (angle p) i = 0 -> 0 < width p i) ->
  0 <= d ->
  0 < ds (d8 p) i ->
  heap s o_vol_chan i
    = trapezoid_area d (width p i) (at_ (angle p) i) * ds (d8 p) i ->
  heap (update_channel_depth p s) o_d i = d.
Proof.
  intros Hw [Ha0 Ha1] Hw0 Hd Hl Hvol.
  rewrite update_channel_depth_d, Hvol.
  destruct (Reqb (at_ (angle p) i) 0) eqn:Ea.
  - apply Reqb_true in Ea. rewrite Ea.
    rewrite depth_rectangle_inverse by auto.
    apply Rmax_left; assumption.
  - apply Reqb_false in Ea.
    rewrite depth_trapezoid_inverse; auto.
    + apply Rmax_left; assumption.
    + apply tan_gt_0; lra.
Qed.

Lemma depth_inversion_right_inverse_witness :
  let p := demo_params false 2 1 0 0 (RefScalar 0) in
  let s := demo_state false 2 1 0 0 (RefScalar 0) in
  heap (update_channel_depth p s) o_d 0%nat = 1.
Proof.
  cbn zeta.
  apply (depth_inversion_right_inverse
           (demo_params false 2 1 0 0 (RefScalar 0))
           (demo_state false 2 1 0 0 (RefScalar 0)) 0%nat 1).
  - cbn. lra.
  - cbn. pose proof PI_RGT_0. lra.
  - cbn. lra.
  - lra.
  - cbn. lra.
  - cbn. unfold trapezoid_area. ring.
Defined.

(** ** Trapezoidal geometry ([update_trapezoid_Rh]) *)

Lemma update_trapezoid_Rh_A_wet (p : params) (s : state) (i : cell) :
  heap (update_trapezoid_Rh p s) o_A_wet i =
  heap s o_d i * (width p i + heap s o_d i * tan (at_ (angle p) i)).
Proof. reflexivity. Qed.

Lemma update_trapezoid_Rh_P_wet (p : params) (s : state) (i : cell) :
  heap (update_trapezoid_Rh p s) o_P_wet i =
  if in_dec Nat.eq_dec i (noflow_IDs (d8 p)) then 1
  else width p i + 2 * heap s o_d i / cos (at_ (angle p) i).
Proof.
  unfold update_trapezoid_Rh. cbn. rewrite assign_at_spec. reflexivity.
Qed.

Lemma update_trapezoid_Rh_Rh (p : params) (s : state) (i : cell) :
  heap (update_trapezoid_Rh p s) o_Rh i =
  if in_dec Nat.eq_dec i (noflow_IDs (d8 p)) then 0
  else heap (update_trapezoid_Rh p s) o_A_wet i
       / heap (update_trapezoid_Rh p s) o_P_wet i.
Proof.
  unfold update_trapezoid_Rh. cbn. rewrite !assign_at_spec.
  destruct (in_dec Nat.eq_dec i (noflow_IDs (d8 p))); reflexivity.
Qed.

(** C6 (as stated, refuted): the step does not force [A_wet] to zero on
    the noflow set.  In the first tick of the two-cell network, started
    with unit width and unit depth, the geometry step runs on a state in
    which the noflow cell 1 has depth 1, and leaves [A_wet = 1] there. *)
Lemma trapezoid_A_wet_not_zeroed_on_noflow :
  let p := demo_params false 1 1 0 0 (RefScalar 0) in
  let s := demo_state false 1 1 0 0 (RefScalar 0) in
  let s1 := update_channel_depth p
              (update_flow_volume p
                 (update_diversions p
                    (update_channel_discharge p
                       (update_R_integral p (update_R p s))))) in
  In 1%nat (noflow_IDs (d8 p)) /\
  heap s1 o_d 1%nat = 1 /\
  heap (update_trapezoid_Rh p s1) o_A_wet 1%nat = 1 /\
  heap (update_trapezoid_Rh p s1) o_A_wet 1%nat <> 0.
Proof.
  cbv zeta. split; [left; reflexivity|].
  match goal with
  | |- heap ?s1 o_d 1%nat = 1 /\ _ => assert (Ed : heap s1 o_d 1%nat = 1)
  end.
  { rewrite update_channel_depth_d. cbn.
    replace (Reqb 0 0) with true by (symmetry; apply Reqb_true; reflexivity).
    unfold depth_rectangle, trapezoid_area, zeros. rewrite tan_0.
    repeat match goal with
           | |- context [Rmax ?x 0] =>
               let H := fresh in
               assert (H : Rmax x 0 = 1)
                 by (apply eq_trans with x; [apply Rmax_left; lra|lra]);
               rewrite H; clear H
           end.
    reflexivity. }
  split; [exact Ed|].
  match goal with
  | |- ?a = 1 /\ _ => assert (E : a = 1)
  end.
  { rewrite update_trapezoid_Rh_A_wet, Ed. cbn. rewrite tan_0. lra. }
  split; [exact E|rewrite E; lra].
Qed.

(** C6 (amended): after the trapezoidal-geometry step, at every cell
    [A_wet = d*(width + d*tan(angle))], also on the noflow set; a noflow
    cell has [P_wet = 1] and [Rh = 0]; every other cell has
    [P_wet = width + 2d/cos(angle)] and [Rh = A_wet / P_wet]. *)
Theorem update_trapezoid_Rh_cells (p : params) (s : state) (i : cell) :
  let s' := update_trapezoid_Rh p s in
  let d := heap s o_d i in
  heap s' o_A_wet i = d * (width p i + d * tan (at_ (angle p) i)) /\
  (In i (noflow_IDs (d8 p)) ->
     heap s' o_P_wet i = 1 /\ heap s' o_Rh i = 0) /\
  (~ In i (noflow_IDs (d8 p)) ->
     heap s' o_P_wet i = width p i + 2 * d / cos (at_ (angle p) i) /\
     heap s' o_Rh i = heap s' o_A_wet i / heap s' o_P_wet i).
Proof.
  cbn zeta. split; [apply update_trapezoid_Rh_A_wet|].
  rewrite update_trapezoid_Rh_Rh, update_trapezoid_Rh_P_wet.
  destruct (in_dec Nat.eq_dec i (noflow_IDs (d8 p))) as [Hi|Hi]; split; intros H;
    try contradiction; split; reflexivity.
Qed.

Lemma update_trapezoid_Rh_cells_witness :
  let p := demo_params false 1 1 0 0 (RefScalar 0) in
  let s := demo_state false 1 1 0 0 (RefScalar 0) in
  (heap (update_trapezoid_Rh p s) o_P_wet 1%nat = 1 /\
   heap (update_trapezoid_Rh p s) o_Rh 1%nat = 0) /\
  (heap (update_trapezoid_Rh p s) o_P_wet 0%nat
     = width p 0%nat + 2 * heap s o_d 0%nat / cos (at_ (angle p) 0%nat) /\
   heap (update_trapezoid_Rh p s) o_Rh 0%nat
     = heap (update_trapezoid_Rh p s) o_A_wet 0%nat
       / heap (update_trapezoid_Rh p s) o_P_wet 0%nat).
Proof.
  cbn zeta. split.
  - apply (update_trapezoid_Rh_cells
             (demo_params false 1 1 0 0 (RefScalar 0))
             (demo_state false 1 1 0 0 (RefScalar 0)) 1%nat).
    left; reflexivity.
  - apply (update_trapezoid_Rh_cells
             (demo_params false 1 1 0 0 (RefScalar 0))
             (demo_state false 1 1 0 0 (RefScalar 0)) 0%nat).
    cbn. intros [H|[]]. discriminate.
Defined.

(** ** Attribute bindings are never changed by a tick

    No step of [update] rebinds [self.Q] or [self.vol]: every write to
    them is in place. *)

Lemma same_bindings_refl (s : state) : same_bindings s s.
Proof. split; reflexivity. Qed.

Lemma same_bindings_trans (s1 s2 s3 : state) :
  same_bindings s1 s2 -> same_bindings s2 s3 -> same_bindings s1 s3.
Proof. unfold same_bindings. intros [] []. split; congruence. Qed.

Lemma set_heap_bindings (s : state) (o : obj) (v : grid) :
  same_bindings s (set_heap s o v).
Proof. split; reflexivity. Qed.

Lemma set_scal_bindings (s : state) (k : sobj) (v : R) :
  same_bindings s (set_scal s k v).
Proof. split; reflexivity. Qed.

Ltac bindings :=
  cbv zeta;
  repeat first
    [ apply same_bindings_refl
    | split; reflexivity
    | match goal with
      | |- same_bindings _ (match ?x with _ => _ end) => destruct x
      | |- context [if ?b then _ else _] => destruct b
      end ].

Lemma update_R_bindings p s : same_bindings s (update_R p s).
Proof. unfold update_R. bindings. Qed.

Lemma update_R_integral_bindings p s : same_bindings s (update_R_integral p s).
Proof. unfold update_R_integral. bindings. Qed.

Lemma update_channel_discharge_bindings p s :
  same_bindings s (update_channel_discharge p s).
Proof. unfold update_channel_discharge. bindings. Qed.

Lemma update_flood_discharge_bindings p s :
  same_bindings s (update_flood_discharge p s).
Proof. unfold update_flood_discharge. bindings. Qed.

Lemma update_discharge_bindings p s : same_bindings s (update_discharge p s).
Proof. unfold update_discharge. bindings. Qed.

Lemma route_group_bindings p s gr : same_bindings s (route_group p s gr).
Proof. unfold route_group. bindings. Qed.

Lemma route_groups_bindings p grs s :
  same_bindings s (fold_left (route_group p) grs s).
Proof.
  revert s. induction grs as [|gr grs IH]; intros s; simpl.
  - apply same_bindings_refl.
  - eapply same_bindings_trans; [apply route_group_bindings|apply IH].
Qed.

Lemma flow_volume_unclamped_bindings p s :
  same_bindings s (flow_volume_unclamped p s).
Proof.
  unfold flow_volume_unclamped.
  eapply same_bindings_trans; [|apply set_heap_bindings].
  eapply same_bindings_trans; [|apply route_groups_bindings].
  destruct (ATTENUATE p); split; reflexivity.
Qed.

Lemma update_flow_volume_bindings p s : same_bindings s (update_flow_volume p s).
Proof.
  unfold update_flow_volume.
  eapply same_bindings_trans; [apply flow_volume_unclamped_bindings|].
  apply set_heap_bindings.
Qed.

Lemma update_channel_volume_bindings p s :
  same_bindings s (update_channel_volume p s).
Proof. unfold update_channel_volume. bindings. Qed.

Lemma update_flood_volume_bindings p s :
  same_bindings s (update_flood_volume p s).
Proof. unfold update_flood_volume. bindings. Qed.

Lemma update_channel_depth_bindings p s :
  same_bindings s (update_channel_depth p s).
Proof. unfold update_channel_depth. bindings. Qed.

Lemma update_flood_depth_bindings p s : same_bindings s (update_flood_depth p s).
Proof. unfold update_flood_depth. bindings. Qed.

Lemma update_trapezoid_Rh_bindings p s :
  same_bindings s (update_trapezoid_Rh p s).
Proof. unfold update_trapezoid_Rh. bindings. Qed.

Lemma update_free_surface_slope_bindings p s :
  same_bindings s (update_free_surface_slope p s).
Proof. unfold update_free_surface_slope. bindings. Qed.

Lemma update_shear_stress_bindings p s : same_bindings s (update_shear_stress p s).
Proof. unfold update_shear_stress. bindings. Qed.

Lemma update_shear_speed_bindings p s : same_bindings s (update_shear_speed p s).
Proof. unfold update_shear_speed. bindings. Qed.

Lemma update_friction_factor_bindings p s :
  same_bindings s (update_friction_factor p s).
Proof. unfold update_friction_factor. bindings. Qed.

Lemma update_velocity_on_edges_bindings p s :
  same_bindings s (update_velocity_on_edges p s).
Proof. unfold update_velocity_on_edges. bindings. Qed.

Lemma update_froude_number_bindings p s :
  same_bindings s (update_froude_number p s).
Proof. unfold update_froude_number. bindings. Qed.

Lemma update_outlet_values_bindings p s :
  same_bindings s (update_outlet_values p s).
Proof. unfold update_outlet_values. bindings. Qed.

Lemma update_peak_values_bindings p s : same_bindings s (update_peak_values p s).
Proof. unfold update_peak_values. bindings. Qed.

Lemma update_Q_out_integral_bindings p s :
  same_bindings s (update_Q_out_integral p s).
Proof. unfold update_Q_out_integral. bindings. Qed.

Lemma update_edge_values_bindings p s : same_bindings s (update_edge_values p s).
Proof. unfold update_edge_values. bindings. Qed.

Lemma update_time_bindings p s : same_bindings s (update_time p s).
Proof. unfold update_time. bindings. Qed.

Create HintDb bindings.

#[local] Hint Resolve
  update_R_bindings update_R_integral_bindings update_channel_discharge_bindings
  update_flood_discharge_bindings update_discharge_bindings
  update_flow_volume_bindings update_channel_volume_bindings
  update_flood_volume_bindings update_channel_depth_bindings
  update_flood_depth_bindings update_trapezoid_Rh_bindings
  update_free_surface_slope_bindings update_shear_stress_bindings
  update_shear_speed_bindings update_friction_factor_bindings
  update_velocity_on_edges_bindings update_froude_number_bindings
  update_outlet_values_bindings update_peak_values_bindings
  update_Q_out_integral_bindings update_edge_values_bindings
  update_time_bindings : bindings.

Ltac step_bindings :=
  repeat first
    [ apply same_bindings_refl
    | eapply same_bindings_trans; [|solve [eauto with bindings]] ].

Lemma update_to_froude_bindings p s : same_bindings s (update_to_froude p s).
Proof.
  unfold update_to_froude, update_velocity, update_diversions.
  destruct (FLOOD_OPTION p), (DYNAMIC_WAVE p), (KINEMATIC_WAVE p);
    cbn [negb]; cbv zeta; step_bindings.
Qed.

Lemma update_bindings p s : same_bindings s (update p s).
Proof.
  unfold update. cbv zeta.
  eapply same_bindings_trans; [apply update_to_froude_bindings|].
  step_bindings.
Qed.

Lemma run_bindings p n s : same_bindings s (run p n s).
Proof.
  induction n as [|n IH]; simpl.
  - apply same_bindings_refl.
  - eapply same_bindings_trans; [exact IH|apply update_bindings].
Qed.

(** ** Aliasing of [Q]/[Qc] and [vol]/[vol_chan] *)

Lemma initialize_computed_vars_bindings (p : params) (ext : obj -> grid) :
  Q_ (initialize_computed_vars p ext) = (if FLOOD_OPTION p then o_Q else o_Qc) /\
  vol_ (initialize_computed_vars p ext)
    = (if FLOOD_OPTION p then o_vol else o_vol_chan).
Proof. split; reflexivity. Qed.

(** C10: with the flood option disabled, initialization binds [Q] to the
    array object of [Qc] and [vol] to the array object of [vol_chan]; no
    step of a tick rebinds either name, so after every tick [Q] and [Qc]
    (and [vol] and [vol_chan]) are the same object and agree cell by cell. *)
Theorem flood_disabled_aliases (p : params) (ext : obj -> grid) (n : nat) :
  FLOOD_OPTION p = false ->
  let s := run p n (initialize_computed_vars p ext) in
  (Q_ s = o_Qc /\ vol_ s = o_vol_chan) /\
  (forall i, Q s i = heap s o_Qc i) /\
  (forall i, vol s i = heap s o_vol_chan i).
Proof.
  intros Hf s.
  destruct (run_bindings p n (initialize_computed_vars p ext)) as [HQ Hv].
  destruct (initialize_computed_vars_bindings p ext) as [HQ0 Hv0].
  rewrite Hf in HQ0, Hv0.
  assert (EQ : Q_ s = o_Qc) by (unfold s; congruence).
  assert (Ev : vol_ s = o_vol_chan) by (unfold s; congruence).
  repeat split; try assumption; intros i; unfold Q, vol; congruence.
Qed.

Lemma flood_disabled_aliases_witness :
  let p := demo_params false 1 1 1 0 (RefScalar 0) in
  let s := run p 3 (initialize_computed_vars p (fun _ => zeros)) in
  (Q_ s = o_Qc /\ vol_ s = o_vol_chan) /\
  (forall i, Q s i = heap s o_Qc i) /\
  (forall i, vol s i = heap s o_vol_chan i).
Proof.
  exact (flood_disabled_aliases (demo_params false 1 1 1 0 (RefScalar 0))
           (fun _ => zeros) 3 eq_refl).
Defined.

(** With the flood option enabled, [vol] and [Q] are arrays of their own. *)
Lemma flood_enabled_bindings (p : params) (ext : obj -> grid) (n : nat) :
  FLOOD_OPTION p = true ->
  Q_ (run p n (initialize_computed_vars p ext)) = o_Q /\
  vol_ (run p n (initialize_computed_vars p ext)) = o_vol.
Proof.
  intros Hf.
  destruct (run_bindings p n (initialize_computed_vars p ext)) as [HQ Hv].
  destruct (initialize_computed_vars_bindings p ext) as [HQ0 Hv0].
  rewrite Hf in HQ0, Hv0. split; congruence.
Qed.

(** ** Flood partition *)

(** C4: with flooding enabled ([vol] an array of its own), the
    flood-partition steps of a tick produce
    [vol_flood = max(vol - vol_bankfull, 0)],
    [vol_chan = min(vol, vol_bankfull)], hence
    [vol_chan + vol_flood = vol] (for every [vol], in particular
    [vol >= 0]), and
    [d_flood = max(vol_flood / (width_ratio * width * ds), 0)] with
    [width_ratio = 5]. *)
Theorem flood_partition (p : params) (s : state) (i : cell) :
  vol_ s = o_vol ->
  let s' := update_flood_depth p
              (update_channel_depth p
                 (update_flood_volume p (update_channel_volume p s))) in
  heap s' o_vol_flood i = Rmax (vol s i - heap s o_vol_bankfull i) 0 /\
  heap s' o_vol_chan i = Rmin (vol s i) (heap s o_vol_bankfull i) /\
  heap s' o_vol_chan i + heap s' o_vol_flood i = vol s i /\
  heap s' o_d_flood i
    = Rmax (heap s' o_vol_flood i / (width_ratio * width p i * ds (d8 p) i)) 0 /\
  width_ratio = 5.
Proof.
  intros Hv s'.
  assert (E1 : heap s' o_vol_flood i = Rmax (vol s i - heap s o_vol_bankfull i) 0).
  { unfold s', update_flood_depth, update_channel_depth, update_flood_volume,
      update_channel_volume, vol. cbn. rewrite Hv. cbn. reflexivity. }
  assert (E2 : heap s' o_vol_chan i = Rmin (vol s i) (heap s o_vol_bankfull i)).
  { unfold s', update_flood_depth, update_channel_depth, update_flood_volume,
      update_channel_volume, vol. cbn. reflexivity. }
  split; [exact E1|]. split; [exact E2|]. split; [|split; reflexivity].
  rewrite E1, E2. unfold Rmax, Rmin.
  destruct (Rle_dec (vol s i) (heap s o_vol_bankfull i));
    destruct (Rle_dec (vol s i - heap s o_vol_bankfull i) 0); lra.
Qed.

Lemma flood_partition_witness :
  let p := demo_params true 2 1 0 0 (RefScalar 0) in
  let s := demo_state true 2 1 0 0 (RefScalar 0) in
  let s' := update_flood_depth p
              (update_channel_depth p
                 (update_flood_volume p (update_channel_volume p s))) in
  heap s' o_vol_flood 0%nat = Rmax (vol s 0%nat - heap s o_vol_bankfull 0%nat) 0 /\
  heap s' o_vol_chan 0%nat = Rmin (vol s 0%nat) (heap s o_vol_bankfull 0%nat) /\
  heap s' o_vol_chan 0%nat + heap s' o_vol_flood 0%nat = vol s 0%nat /\
  heap s' o_d_flood 0%nat
    = Rmax (heap s' o_vol_flood 0%nat
            / (width_ratio * width p 0%nat * ds (d8 p) 0%nat)) 0 /\
  width_ratio = 5.
Proof.
  exact (flood_partition (demo_params true 2 1 0 0 (RefScalar 0))
           (demo_state true 2 1 0 0 (RefScalar 0)) 0%nat eq_refl).
Defined.

(** ** Source-flux aggregation ([update_R]) *)

Lemma at_lift2 (op : R -> R -> R) (a b : ndarray) (i : cell) :
  at_ (lift2 op a b) i = op (at_ a i) (at_ b i).
Proof. destruct a, b; reflexivity. Qed.

Lemma update_R_cell (p : params) (s : state) (i : cell) :
  at_ (R_ (update_R p s)) i =
  (at_ (P_rain p) i + at_ (SM p) i + at_ (GW p) i + at_ (MR p) i)
  - ((match ET p with
      | RefGrid =>
          if Rltb (vol s i) (heap s o_ET i * dt p) then 0 else heap s o_ET i
      | RefScalar _ => 0
      end) + at_ (IN p) i).
Proof.
  unfold update_R, add, sub. cbv zeta.
  destruct (ET p) as [x|]; cbn [R_ set_R];
    rewrite !at_lift2; cbn [at_]; [reflexivity|].
  cbn. unfold mask_assign, zeros. reflexivity.
Qed.

(** C5 (as stated, refuted): a scalar evaporation rate is dropped in every
    cell, also where the stored volume covers [ET*dt].  Here [ET = 1],
    [dt = 1] and cell 0 stores 10 m^3, so the claim keeps [ET] and gives
    [R = -1]; the step gives [R = 0]. *)
Lemma update_R_scalar_ET_counterexample :
  let p := demo_params false 10 1 0 0 (RefScalar 1) in
  let s := demo_state false 10 1 0 0 (RefScalar 1) in
  let ET_claimed := if Rltb (vol s 0%nat) (1 * dt p) then 0 else 1 in
  vol s 0%nat = 10 /\
  ET_claimed = 1 /\
  at_ (R_ (update_R p s)) 0%nat = 0 /\
  at_ (R_ (update_R p s)) 0%nat <>
    (at_ (P_rain p) 0%nat + at_ (SM p) 0%nat + at_ (GW p) 0%nat + at_ (MR p) 0%nat)
    - (ET_claimed + at_ (IN p) 0%nat).
Proof.
  cbv zeta.
  assert (Ev : vol (demo_state false 10 1 0 0 (RefScalar 1)) 0%nat = 10).
  { cbn. unfold trapezoid_area. rewrite tan_0. lra. }
  assert (Ec : (if Rltb (vol (demo_state false 10 1 0 0 (RefScalar 1)) 0%nat)
                     (1 * dt (demo_params false 10 1 0 0 (RefScalar 1)))
                then 0 else 1) = 1).
  { rewrite Ev. cbn [dt demo_params].
    replace (Rltb 10 (1 * 1)) with false; [reflexivity|].
    symmetry. apply Rltb_false. lra. }
  assert (Er : at_ (R_ (update_R (demo_params false 10 1 0 0 (RefScalar 1))
                          (demo_state false 10 1 0 0 (RefScalar 1)))) 0%nat = 0).
  { rewrite update_R_cell. cbn. lra. }
  split; [exact Ev|]. split; [exact Ec|]. split; [exact Er|].
  rewrite Er, Ec. cbn. lra.
Qed.

(** C5 (amended): the source-flux aggregation step computes, for every
    cell, [R = (P_rain + SM + GW + MR) - (ET + IN)] where, when [ET] is a
    grid, [ET] is set to zero exactly in the cells whose stored volume is
    less than [ET*dt] and is unchanged in the others, and, when [ET] is a
    scalar, [ET] is taken as zero in every cell; the other inputs may each
    be a scalar or a grid. *)
Theorem update_R_computes_net_excess (p : params) (s : state) (i : cell) :
  at_ (R_ (update_R p s)) i =
  (at_ (P_rain p) i + at_ (SM p) i + at_ (GW p) i + at_ (MR p) i)
  - ((match ET p with
      | RefGrid =>
          if Rlt_dec (vol s i) (heap s o_ET i * dt p) then 0 else heap s o_ET i
      | RefScalar _ => 0
      end) + at_ (IN p) i).
Proof.
  rewrite update_R_cell. unfold Rltb.
  destruct (ET p) as [x|]; [reflexivity|].
  destruct (Rlt_dec (vol s i) (heap s o_ET i * dt p)); reflexivity.
Qed.

(** The array objects that [update_R] leaves alone. *)
Lemma update_R_heap_other (p : params) (s : state) (o : obj) :
  o <> o_ET -> heap (update_R p s) o = heap s o.
Proof.
  unfold update_R. cbv zeta. intros H.
  destruct (ET p) as [x|]; cbn; [reflexivity|].
  apply store_other. congruence.
Qed.

(** ** Array objects that a tick leaves alone

    The evaporation grid [o_ET] is written by [update_R] only, and the
    friction factor [o_f] by [update_friction_factor] only. *)

Section Frame.

Variable o : obj.
Hypothesis o_choice : o = o_ET \/ o = o_f.

Lemma frame_at_refl (s : state) : frame_at o s s.
Proof. split; [apply same_bindings_refl|reflexivity]. Qed.

Lemma frame_at_trans (s1 s2 s3 : state) :
  frame_at o s1 s2 -> frame_at o s2 s3 -> frame_at o s1 s3.
Proof.
  intros [B1 H1] [B2 H2]. split.
  - eapply same_bindings_trans; eassumption.
  - congruence.
Qed.

Lemma unbound_frame (s s' : state) :
  unbound o s -> frame_at o s s' -> unbound o s'.
Proof. intros [HQ Hv] [[BQ Bv] _]. split; congruence. Qed.

Lemma frame_at_step (f : state -> state) (s s1 : state) :
  (forall t, unbound o t -> frame_at o t (f t)) ->
  unbound o s -> frame_at o s s1 -> frame_at o s (f s1).
Proof.
  intros Hf Hs H1. eapply frame_at_trans; [exact H1|].
  apply Hf. eapply unbound_frame; eassumption.
Qed.

Lemma set_heap_frame_at (s : state) (o' : obj) (v : grid) :
  o' <> o -> frame_at o s (set_heap s o' v).
Proof.
  intros H. split; [apply set_heap_bindings|]. cbn. apply store_other, H.
Qed.

Lemma set_scal_frame_at (s : state) (k : sobj) (v : R) :
  frame_at o s (set_scal s k v).
Proof. split; [apply set_scal_bindings|reflexivity]. Qed.

(** A step that writes array objects other than [o_ET] and [o_f], or
    through [self.Q] and [self.vol]. *)
Ltac frame_at_write :=
  cbv zeta;
  repeat first
    [ apply frame_at_refl
    | apply set_scal_frame_at
    | apply set_heap_frame_at;
      first [assumption | destruct o_choice; subst o; discriminate]
    | match goal with
      | |- frame_at _ _ (match ?x with _ => _ end) => destruct x
      | |- frame_at _ ?s (set_heap ?t _ _) =>
          apply (frame_at_trans s t);
          [|apply set_heap_frame_at;
            first [assumption | destruct o_choice; subst o; discriminate]]
      | |- frame_at _ ?s (set_scal ?t _ _) =>
          apply (frame_at_trans s t); [|apply set_scal_frame_at]
      | |- context [if ?b then _ else _] => destruct b
      end ].

Lemma update_R_integral_frame p s :
  unbound o s -> frame_at o s (update_R_integral p s).
Proof. intros [HQ Hv]. unfold update_R_integral. frame_at_write. Qed.

Lemma update_channel_discharge_frame p s :
  unbound o s -> frame_at o s (update_channel_discharge p s).
Proof. intros [HQ Hv]. unfold update_channel_discharge. frame_at_write. Qed.

Lemma update_flood_discharge_frame p s :
  unbound o s -> frame_at o s (update_flood_discharge p s).
Proof. intros [HQ Hv]. unfold update_flood_discharge. frame_at_write. Qed.

Lemma update_discharge_frame p s :
  unbound o s -> frame_at o s (update_discharge p s).
Proof. intros [HQ Hv]. unfold update_discharge. frame_at_write. Qed.

Lemma route_group_frame p gr s :
  unbound o s -> frame_at o s (route_group p s gr).
Proof. intros [HQ Hv]. unfold route_group. frame_at_write. Qed.

Lemma route_groups_frame p grs s :
  unbound o s -> frame_at o s (fold_left (route_group p) grs s).
Proof.
  revert s. induction grs as [|gr grs IH]; intros s Hs; simpl.
  - apply frame_at_refl.
  - pose proof (route_group_frame p gr s Hs) as H1.
    eapply frame_at_trans; [exact H1|].
    apply IH. eapply unbound_frame; eassumption.
Qed.

Lemma flow_volume_unclamped_frame p s :
  unbound o s -> frame_at o s (flow_volume_unclamped p s).
Proof.
  intros Hs. unfold flow_volume_unclamped. cbv zeta.
  match goal with
  | |- frame_at o s (set_heap ?t _ _) => assert (Ht : frame_at o s t)
  end.
  { match goal with
    | |- frame_at o s (fold_left _ _ ?t) => assert (Ht : frame_at o s t)
    end.
    { destruct Hs as [HQ Hv]. destruct (ATTENUATE p); frame_at_write. }
    eapply frame_at_trans; [exact Ht|].
    apply route_groups_frame. eapply unbound_frame; eassumption. }
  eapply frame_at_trans; [exact Ht|].
  apply set_heap_frame_at.
  destruct (unbound_frame _ _ Hs Ht) as [_ Hv]. exact Hv.
Qed.

Lemma update_flow_volume_frame p s :
  unbound o s -> frame_at o s (update_flow_volume p s).
Proof.
  intros Hs. unfold update_flow_volume. cbv zeta.
  pose proof (flow_volume_unclamped_frame p s Hs) as Ht.
  eapply frame_at_trans; [exact Ht|].
  apply set_heap_frame_at.
  destruct (unbound_frame _ _ Hs Ht) as [_ Hv]. exact Hv.
Qed.

Lemma update_channel_volume_frame p s :
  unbound o s -> frame_at o s (update_channel_volume p s).
Proof. intros [HQ Hv]. unfold update_channel_volume. frame_at_write. Qed.

Lemma update_flood_volume_frame p s :
  unbound o s -> frame_at o s (update_flood_volume p s).
Proof. intros [HQ Hv]. unfold update_flood_volume. frame_at_write. Qed.

Lemma update_channel_depth_frame p s :
  unbound o s -> frame_at o s (update_channel_depth p s).
Proof.
  intros _. split; [apply update_channel_depth_bindings|].
  destruct o_choice; subst o; reflexivity.
Qed.

Lemma update_flood_depth_frame p s :
  unbound o s -> frame_at o s (update_flood_depth p s).
Proof. intros [HQ Hv]. unfold update_flood_depth. frame_at_write. Qed.

Lemma update_trapezoid_Rh_frame p s :
  unbound o s -> frame_at o s (update_trapezoid_Rh p s).
Proof. intros [HQ Hv]. unfold update_trapezoid_Rh. frame_at_write. Qed.

Lemma update_free_surface_slope_frame p s :
  unbound o s -> frame_at o s (update_free_surface_slope p s).
Proof. intros [HQ Hv]. unfold update_free_surface_slope. frame_at_write. Qed.

Lemma update_shear_stress_frame p s :
  unbound o s -> frame_at o s (update_shear_stress p s).
Proof. intros [HQ Hv]. unfold update_shear_stress. frame_at_write. Qed.

Lemma update_shear_speed_frame p s :
  unbound o s -> frame_at o s (update_shear_speed p s).
Proof. intros [HQ Hv]. unfold update_shear_speed. frame_at_write. Qed.

(** The friction step writes [o_f], unless no closure is active. *)
Lemma update_friction_factor_frame p :
  (o = o_f -> MANNING p = false /\ LAW_OF_WALL p = false) ->
  forall s, unbound o s -> frame_at o s (update_friction_factor p s).
Proof.
  intros Hlaw s _. split; [apply update_friction_factor_bindings|].
  unfold update_friction_factor. cbv zeta.
  destruct o_choice as [-> | ->].
  - destruct (MANNING p), (LAW_OF_WALL p); reflexivity.
  - destruct (Hlaw eq_refl) as [-> ->]. reflexivity.
Qed.

Lemma update_velocity_on_edges_frame p s :
  unbound o s -> frame_at o s (update_velocity_on_edges p s).
Proof. intros [HQ Hv]. unfold update_velocity_on_edges. frame_at_write. Qed.

Lemma update_froude_number_frame p s :
  unbound o s -> frame_at o s (update_froude_number p s).
Proof. intros [HQ Hv]. unfold update_froude_number. frame_at_write. Qed.

Lemma update_outlet_values_frame p s :
  unbound o s -> frame_at o s (update_outlet_values p s).
Proof. intros [HQ Hv]. unfold update_outlet_values. frame_at_write. Qed.

Lemma update_peak_values_frame p s :
  unbound o s -> frame_at o s (update_peak_values p s).
Proof.
  intros [HQ Hv]. split; [apply update_peak_values_bindings|].
  unfold update_peak_values. cbv zeta.
  repeat match goal with
         | |- context [if ?b then _ else _] => destruct b
         end; reflexivity.
Qed.

Lemma update_Q_out_integral_frame p s :
  unbound o s -> frame_at o s (update_Q_out_integral p s).
Proof. intros [HQ Hv]. unfold update_Q_out_integral. frame_at_write. Qed.

Lemma update_edge_values_frame p s :
  unbound o s -> frame_at o s (update_edge_values p s).
Proof.
  intros [HQ Hv]. unfold update_edge_values. cbv zeta.
  destruct (FLOOD_OPTION p); frame_at_write.
Qed.

Lemma update_time_frame p s : unbound o s -> frame_at o s (update_time p s).
Proof. intros _. split; [apply update_time_bindings|reflexivity]. Qed.

Ltac chain_frame_at Hlaw :=
  repeat first
    [ apply frame_at_refl
    | match goal with
      | |- frame_at _ ?s (?f ?p ?t) =>
          apply (frame_at_step (f p) s t);
          [ first
              [ apply update_R_integral_frame
              | apply update_channel_discharge_frame
              | apply update_flood_discharge_frame
              | apply update_discharge_frame
              | apply update_flow_volume_frame
              | apply update_channel_volume_frame
              | apply update_flood_volume_frame
              | apply update_channel_depth_frame
              | apply update_flood_depth_frame
              | apply update_trapezoid_Rh_frame
              | apply update_free_surface_slope_frame
              | apply update_shear_stress_frame
              | apply update_shear_speed_frame
              | apply (update_friction_factor_frame p Hlaw)
              | apply update_velocity_on_edges_frame
              | apply update_froude_number_frame
              | apply update_outlet_values_frame
              | apply update_peak_values_frame
              | apply update_Q_out_integral_frame
              | apply update_edge_values_frame
              | apply update_time_frame ]
          | assumption
          | ]
      end ].

(** After [update_R], the rest of the tick, and its part up to the
    Froude step, leave [o] as [update_R] left it. *)
Lemma update_after_update_R_frame (p : params) (s : state) :
  (o = o_f -> MANNING p = false /\ LAW_OF_WALL p = false) ->
  unbound o s ->
  frame_at o (update_R p s) (update_to_froude p s) /\
  frame_at o (update_R p s) (update p s).
Proof.
  intros Hlaw Hs.
  assert (H1 : unbound o (update_R p s)).
  { destruct Hs as [HQ Hv]. destruct (update_R_bindings p s) as [BQ Bv].
    split; congruence. }
  unfold update, update_to_froude, update_velocity, update_diversions.
  destruct (FLOOD_OPTION p), (DYNAMIC_WAVE p), (KINEMATIC_WAVE p);
    cbn [negb]; cbv zeta; split; chain_frame_at Hlaw.
Qed.

End Frame.

Lemma reachable_unbound (o : obj) (p : params) (ext : obj -> grid) (n : nat) :
  o = o_ET \/ o = o_f -> unbound o (run p n (initialize_computed_vars p ext)).
Proof.
  intros Ho.
  destruct (run_bindings p n (initialize_computed_vars p ext)) as [HQ Hv].
  destruct (initialize_computed_vars_bindings p ext) as [HQ0 Hv0].
  split.
  - rewrite HQ, HQ0. destruct Ho; subst o; destruct (FLOOD_OPTION p); discriminate.
  - rewrite Hv, Hv0. destruct Ho; subst o; destruct (FLOOD_OPTION p); discriminate.
Qed.

(** C9: when the evaporation rate is supplied as a grid, [update_R] writes
    zeros in place into the supplied array object at every cell whose
    stored volume is less than [ET*dt] and leaves its other cells as they
    were; no later step of the tick writes to that object, so whoever reads
    the shared array after the step, or after the tick, sees the zeros. *)
Theorem update_R_zeroes_shared_ET
        (p : params) (ext : obj -> grid) (n : nat) (i : cell) :
  ET p = RefGrid ->
  let s := run p n (initialize_computed_vars p ext) in
  heap (update_R p s) o_ET i
    = (if Rlt_dec (vol s i) (heap s o_ET i * dt p) then 0 else heap s o_ET i) /\
  heap (update p s) o_ET i = heap (update_R p s) o_ET i.
Proof.
  intros HE s. split.
  - unfold update_R. cbv zeta. rewrite HE. cbn.
    unfold mask_assign, zeros, Rltb.
    destruct (Rlt_dec (vol s i) (heap s o_ET i * dt p)); reflexivity.
  - destruct (update_after_update_R_frame o_ET (or_introl eq_refl) p s)
      as [_ [_ H]].
    + discriminate.
    + apply reachable_unbound. left. reflexivity.
    + rewrite H. reflexivity.
Qed.

(** A scalar evaporation rate leaves every array object untouched. *)
Lemma update_R_scalar_ET_no_write (p : params) (s : state) (x : R) :
  ET p = RefScalar x -> heap (update_R p s) = heap s.
Proof. intros HE. unfold update_R. cbv zeta. rewrite HE. reflexivity. Qed.

Lemma update_R_zeroes_shared_ET_witness :
  let p := demo_params false 1 0 0 0 RefGrid in
  let s := run p 0 (initialize_computed_vars p (fun _ _ => 1)) in
  heap (update_R p s) o_ET 0%nat
    = (if Rlt_dec (vol s 0%nat) (heap s o_ET 0%nat * dt p)
       then 0 else heap s o_ET 0%nat) /\
  heap (update p s) o_ET 0%nat = heap (update_R p s) o_ET 0%nat.
Proof.
  exact (update_R_zeroes_shared_ET (demo_params false 1 0 0 0 RefGrid)
           (fun _ _ => 1) 0 0%nat eq_refl).
Defined.

(** ** Sums over cells *)

Lemma sum_list_app (l1 l2 : list R) :
  sum_list (l1 ++ l2) = sum_list l1 + sum_list l2.
Proof.
  unfold sum_list. induction l1 as [|x l1 IH]; simpl; [lra|rewrite IH; lra].
Qed.

Lemma gsum_S (n : nat) (a : grid) : gsum (S n) a = gsum n a + a n.
Proof.
  unfold gsum. rewrite seq_S, map_app, sum_list_app. unfold sum_list. simpl. lra.
Qed.

Lemma gsum_ext (n : nat) (a b : grid) :
  (forall i, (i < n)%nat -> a i = b i) -> gsum n a = gsum n b.
Proof.
  induction n as [|n IH]; intros H; [reflexivity|].
  rewrite !gsum_S, IH, (H n) by (intros; auto with arith). reflexivity.
Qed.

Lemma gsum_plus (n : nat) (a b : grid) :
  gsum n (fun i => a i + b i) = gsum n a + gsum n b.
Proof.
  induction n as [|n IH]; [unfold gsum; simpl; lra|].
  rewrite !gsum_S, IH. lra.
Qed.

Lemma gsum_upd (n : nat) (a : grid) (i : cell) (v : R) :
  (i < n)%nat -> gsum n (upd a i v) = gsum n a - a i + v.
Proof.
  induction n as [|n IH]; intros Hi; [lia|].
  rewrite !gsum_S. unfold upd at 2.
  destruct (Nat.eq_dec i n) as [->|Hne].
  - rewrite Nat.eqb_refl.
    rewrite (gsum_ext n (upd a n v) a).
    + lra.
    + intros j Hj. unfold upd.
      replace (n =? j)%nat with false; [reflexivity|].
      symmetry. apply Nat.eqb_neq. lia.
  - replace (i =? n)%nat with false by (symmetry; apply Nat.eqb_neq; exact Hne).
    rewrite IH by lia. lra.
Qed.

Lemma map_upd_notin (a : grid) (j : cell) (v : R) (l : list cell) :
  ~ In j l -> map (upd a j v) l = map a l.
Proof.
  intros H. apply map_ext_in. intros i Hi. unfold upd.
  replace (j =? i)%nat with false; [reflexivity|].
  symmetry. apply Nat.eqb_neq. intros ->. contradiction.
Qed.

Lemma gsum_assign_at_zero (n : nat) (ids : list cell) (a : grid) :
  NoDup ids -> (forall i, In i ids -> (i < n)%nat) ->
  gsum n (assign_at a ids 0) = gsum n a - sum_list (map a ids).
Proof.
  unfold assign_at. revert a.
  induction ids as [|j ids IH]; intros a Hnd Hlt; simpl; [lra|].
  inversion Hnd as [|? ? Hj Hnd']; subst.
  rewrite IH by (auto; intros; apply Hlt; right; assumption).
  rewrite gsum_upd by (apply Hlt; left; reflexivity).
  rewrite map_upd_notin by assumption. lra.
Qed.

(** ** Edge handling ([update_edge_values]) *)

Lemma update_edge_values_vol (p : params) (s : state) (i : cell) :
  vol (update_edge_values p s) i =
  if in_dec Nat.eq_dec i (noflow_IDs (d8 p)) then 0 else vol s i.
Proof.
  unfold update_edge_values, vol. cbv zeta.
  destruct (FLOOD_OPTION p); cbn; unfold store;
    repeat match goal with
           | |- context [obj_eq_dec ?a ?b] => destruct (obj_eq_dec a b)
           end;
    rewrite ?assign_at_spec;
    destruct (in_dec Nat.eq_dec i (noflow_IDs (d8 p))); try reflexivity;
    congruence.
Qed.

Lemma update_edge_values_d (p : params) (s : state) (i : cell) :
  heap (update_edge_values p s) o_d i =
  if in_dec Nat.eq_dec i (noflow_IDs (d8 p)) then 0 else heap s o_d i.
Proof.
  unfold update_edge_values, vol. cbv zeta.
  destruct (FLOOD_OPTION p); cbn; unfold store;
    repeat match goal with
           | |- context [obj_eq_dec ?a ?b] => destruct (obj_eq_dec a b)
           end;
    rewrite ?assign_at_spec;
    destruct (in_dec Nat.eq_dec i (noflow_IDs (d8 p))); try reflexivity;
    congruence.
Qed.

Lemma update_edge_values_vol_edge (p : params) (s : state) :
  scal (update_edge_values p s) s_vol_edge
  = scal s s_vol_edge + sum_list (map (vol s) (noflow_IDs (d8 p))).
Proof.
  unfold update_edge_values, take. cbv zeta.
  destruct (FLOOD_OPTION p); cbn; reflexivity.
Qed.

(** C8: the edge-handling step sets the stored volume and the depth of
    every noflow cell to zero and adds to [vol_edge] exactly the volume it
    zeroed (the sum of the noflow cells' volumes, which is the drop of the
    grid's total volume); a sink cell holding 12 m^3 ends with [vol = 0],
    [d = 0], and [vol_edge] grows by exactly 12. *)
Theorem update_edge_values_zeroes_sinks (p : params) (s : state) :
  NoDup (noflow_IDs (d8 p)) ->
  (forall i, In i (noflow_IDs (d8 p)) -> (i < n_pixels p)%nat) ->
  let s' := update_edge_values p s in
  (forall i, In i (noflow_IDs (d8 p)) -> vol s' i = 0 /\ heap s' o_d i = 0) /\
  scal s' s_vol_edge - scal s s_vol_edge
    = sum_list (map (vol s) (noflow_IDs (d8 p))) /\
  scal s' s_vol_edge - scal s s_vol_edge
    = gsum (n_pixels p) (vol s) - gsum (n_pixels p) (vol s') /\
  (forall i, noflow_IDs (d8 p) = [i] -> vol s i = 12 ->
     vol s' i = 0 /\ heap s' o_d i = 0 /\
     scal s' s_vol_edge = scal s s_vol_edge + 12).
Proof.
  intros Hnd Hlt s'.
  assert (Hz : forall i, In i (noflow_IDs (d8 p)) ->
                         vol s' i = 0 /\ heap s' o_d i = 0).
  { intros i Hi. unfold s'.
    rewrite update_edge_values_vol, update_edge_values_d.
    destruct (in_dec Nat.eq_dec i (noflow_IDs (d8 p))); [split; reflexivity|].
    contradiction. }
  assert (He : scal s' s_vol_edge - scal s s_vol_edge
               = sum_list (map (vol s) (noflow_IDs (d8 p)))).
  { unfold s'. rewrite update_edge_values_vol_edge. lra. }
  split; [exact Hz|]. split; [exact He|]. split.
  - rewrite He.
    rewrite (gsum_ext (n_pixels p) (vol s')
               (assign_at (vol s) (noflow_IDs (d8 p)) 0)).
    + rewrite gsum_assign_at_zero by assumption. lra.
    + intros i _. unfold s'.
      rewrite update_edge_values_vol, assign_at_spec. reflexivity.
  - intros i Hi Hv.
    destruct (Hz i) as [Hz1 Hz2]; [rewrite Hi; left; reflexivity|].
    split; [exact Hz1|]. split; [exact Hz2|].
    rewrite Hi in He. unfold sum_list in He. simpl in He. lra.
Qed.

Lemma update_edge_values_zeroes_sinks_witness :
  let p := demo_params false 12 1 0 0 (RefScalar 0) in
  let s := demo_state false 12 1 0 0 (RefScalar 0) in
  let s' := update_edge_values p s in
  vol s 1%nat = 12 /\
  vol s' 1%nat = 0 /\ heap s' o_d 1%nat = 0 /\
  scal s' s_vol_edge = scal s s_vol_edge + 12.
Proof.
  cbv zeta.
  assert (Hv : vol (demo_state false 12 1 0 0 (RefScalar 0)) 1%nat = 12).
  { cbn. unfold trapezoid_area. rewrite tan_0. lra. }
  split; [exact Hv|].
  refine (proj2 (proj2 (proj2
            (update_edge_values_zeroes_sinks
               (demo_params false 12 1 0 0 (RefScalar 0))
               (demo_state false 12 1 0 0 (RefScalar 0)) _ _))) 1%nat eq_refl Hv).
  - cbn. constructor; [intros []|constructor].
  - cbn. intros i [<-|[]]. lia.
Defined.

(** ** Friction factor and Froude number *)

Lemma update_channel_depth_mask_ok p s : mask_ok (update_channel_depth p s).
Proof.
  intros i. split; [split; reflexivity|].
  rewrite update_channel_depth_d. apply Rmax_r.
Qed.

Lemma update_flood_depth_mask_ok p s :
  mask_ok s -> mask_ok (update_flood_depth p s).
Proof. intros H i. exact (H i). Qed.

Lemma update_trapezoid_Rh_mask_ok p s :
  mask_ok s -> mask_ok (update_trapezoid_Rh p s).
Proof. intros H i. exact (H i). Qed.

Lemma update_free_surface_slope_mask_ok p s :
  mask_ok s -> mask_ok (update_free_surface_slope p s).
Proof.
  intros H i. unfold update_free_surface_slope.
  destruct (FLOOD_OPTION p); exact (H i).
Qed.

Lemma update_shear_stress_mask_ok p s :
  mask_ok s -> mask_ok (update_shear_stress p s).
Proof. intros H i. exact (H i). Qed.

Lemma update_shear_speed_mask_ok p s :
  mask_ok s -> mask_ok (update_shear_speed p s).
Proof. intros H i. exact (H i). Qed.

Ltac mask_ok_steps :=
  repeat match goal with
         | |- mask_ok (update_shear_speed _ _) => apply update_shear_speed_mask_ok
         | |- mask_ok (update_shear_stress _ _) => apply update_shear_stress_mask_ok
         | |- mask_ok (update_free_surface_slope _ _) =>
             apply update_free_surface_slope_mask_ok
         | |- mask_ok (update_trapezoid_Rh _ _) => apply update_trapezoid_Rh_mask_ok
         | |- mask_ok (update_flood_depth _ _) => apply update_flood_depth_mask_ok
         | |- mask_ok (update_channel_depth _ _) => apply update_channel_depth_mask_ok
         end.

(** The state on which [update_friction_factor] runs within a tick. *)
Lemma update_to_froude_split (p : params) (s : state) :
  exists t, mask_ok t /\
    update_to_froude p s
    = update_froude_number p
        (update_velocity_on_edges p
           (update_velocity p (update_friction_factor p t))).
Proof.
  unfold update_to_froude.
  destruct (KINEMATIC_WAVE p), (DYNAMIC_WAVE p), (FLOOD_OPTION p);
    cbn [negb]; cbv zeta;
    match goal with
    | |- exists t, _ /\
           update_froude_number p
             (update_velocity_on_edges p
                (update_velocity p (update_friction_factor p ?X))) = _ =>
        exists X
    end;
    (split; [mask_ok_steps|reflexivity]).
Qed.

Lemma power_pos (x y : R) : 0 < x -> power x y = Rpower x y.
Proof.
  intros H. unfold power.
  replace (Reqb x 0) with false; [reflexivity|].
  symmetry. apply Reqb_false. lra.
Qed.

(** Friction, velocity-on-edges and Froude steps on a state whose masks
    describe its depth grid. *)
Lemma friction_froude_cells (p : params) (t : state) (i : cell) :
  mask_ok t ->
  let t' := update_froude_number p
              (update_velocity_on_edges p
                 (update_velocity p (update_friction_factor p t))) in
  heap t' o_d i = heap t o_d i /\
  d_is_pos t' i = d_is_pos t i /\
  d_is_zero t' i = d_is_zero t i /\
  (heap t o_d i = 0 -> heap t' o_froude i = 0) /\
  (heap t o_d i = 0 -> MANNING p = true \/ LAW_OF_WALL p = true ->
     heap t' o_f i = 0) /\
  (0 < heap t o_d i -> MANNING p = true -> LAW_OF_WALL p = false ->
     heap t' o_f i
     = g * Rsqr (at_ (nval p) i) / Rpower (heap t o_d i) (1 / 3)) /\
  (0 < heap t o_d i -> LAW_OF_WALL p = true ->
     heap t' o_f i
     = Rsqr (kappa / ln (Rmax (aval / at_ (z0val p) i * heap t o_d i) 1.1))).
Proof.
  intros Hm t'. destruct (Hm i) as [[Hpos Hzero] Hge].
  assert (Hdry : heap t o_d i = 0 -> d_is_pos t i = false /\ d_is_zero t i = true).
  { intros E. rewrite Hzero, Hpos, E.
    replace (Rltb 0 0) with false; [split; reflexivity|].
    symmetry. apply Rltb_false. lra. }
  assert (Hwet : 0 < heap t o_d i -> d_is_pos t i = true /\ d_is_zero t i = false).
  { intros E. rewrite Hzero, Hpos.
    replace (Rltb 0 (heap t o_d i)) with true; [split; reflexivity|].
    symmetry. apply Rltb_true. exact E. }
  unfold t', update_froude_number, update_velocity_on_edges, update_velocity,
    update_friction_factor. cbv zeta.
  destruct (MANNING p), (LAW_OF_WALL p); cbn; unfold mask_assign, zeros;
    (split; [reflexivity|]); (split; [reflexivity|]); (split; [reflexivity|]);
    (split; [intros E; destruct (Hdry E) as [-> ->]; reflexivity|]);
    (split; [intros E [M|M]; try discriminate;
             destruct (Hdry E) as [-> ->]; reflexivity|]);
    (split; [intros E M1 M2; try discriminate;
             destruct (Hwet E) as [-> ->]; rewrite power_pos by exact E;
             unfold one_third, Rdiv; ring
            |intros E M; try discriminate;
             destruct (Hwet E) as [-> ->]; reflexivity]).
Qed.

(** With no friction closure configured, [f] keeps its initial zeros. *)
Lemma update_R_frame_f (p : params) (s : state) : frame_at o_f s (update_R p s).
Proof.
  split; [apply update_R_bindings|]. apply update_R_heap_other. discriminate.
Qed.

Lemma no_closure_keeps_f (p : params) (s : state) :
  MANNING p = false -> LAW_OF_WALL p = false -> unbound o_f s ->
  frame_at o_f s (update_to_froude p s) /\ frame_at o_f s (update p s).
Proof.
  intros HM HL Hs.
  destruct (update_after_update_R_frame o_f (or_intror eq_refl) p s) as [H1 H2];
    [intros _; split; assumption|exact Hs|].
  pose proof (update_R_frame_f p s) as H0.
  split; eapply frame_at_trans; eassumption.
Qed.

Lemma no_closure_f_zero (p : params) (ext : obj -> grid) (n : nat) :
  MANNING p = false -> LAW_OF_WALL p = false ->
  heap (run p n (initialize_computed_vars p ext)) o_f = zeros.
Proof.
  intros HM HL. induction n as [|n IH]; [reflexivity|].
  simpl run.
  destruct (no_closure_keeps_f p (run p n (initialize_computed_vars p ext)) HM HL)
    as [_ [_ H]].
  - apply reachable_unbound. right. reflexivity.
  - rewrite H. exact IH.
Qed.

(** C7: in every tick of a run, after the friction-factor and
    Froude-number steps, a cell with [d = 0] has [f = 0] and [froude = 0];
    a cell with [d > 0] has [f = g * n^2 / d^(1/3)] under the Manning
    closure and [f = (kappa / ln(max(1.1, (a/z0)*d)))^2] under the log-law
    closure; both steps select the cells with the positive/zero depth
    masks cached by the depth-inversion step, which are true exactly where
    [d > 0] and where [d = 0]. *)
Theorem friction_and_froude_after_tick
        (p : params) (ext : obj -> grid) (n : nat) (i : cell) :
  let s := run p n (initialize_computed_vars p ext) in
  let s' := update_to_froude p s in
  let d := heap s' o_d i in
  (d = 0 -> heap s' o_f i = 0 /\ heap s' o_froude i = 0) /\
  (0 < d ->
     (MANNING p = true -> LAW_OF_WALL p = false ->
        heap s' o_f i = g * Rsqr (at_ (nval p) i) / Rpower d (1 / 3)) /\
     (LAW_OF_WALL p = true ->
        heap s' o_f i
        = Rsqr (kappa / ln (Rmax 1.1 (aval / at_ (z0val p) i * d))))) /\
  (d_is_pos s' i = true <-> 0 < d) /\
  (d_is_zero s' i = true <-> d = 0).
Proof.
  intros s s' d.
  destruct (update_to_froude_split p s) as [t [Hm Ht]].
  destruct (friction_froude_cells p t i Hm)
    as [Hd [Hp [Hz [Hfr [Hf0 [Hman Hlog]]]]]].
  fold s' in Ht. rewrite <- Ht in Hd, Hp, Hz, Hfr, Hf0, Hman, Hlog.
  fold d in Hd. rewrite <- Hd in Hfr, Hf0, Hman, Hlog.
  destruct (Hm i) as [[Hpos Hzero] Hge]. rewrite <- Hd in Hpos, Hge.
  rewrite <- Hp in Hpos, Hzero. rewrite <- Hz in Hzero.
  split; [|split; [|split]].
  - intros E. split; [|apply Hfr; assumption].
    destruct (MANNING p) eqn:HM; [apply Hf0; auto|].
    destruct (LAW_OF_WALL p) eqn:HL; [apply Hf0; auto|].
    destruct (no_closure_keeps_f p s HM HL) as [[_ H] _].
    { apply reachable_unbound. right. reflexivity. }
    fold s' in H. rewrite H. unfold s.
    rewrite no_closure_f_zero by assumption. reflexivity.
  - intros E. split.
    + intros M L. apply Hman; assumption.
    + intros L. rewrite (Rmax_comm 1.1). apply Hlog; assumption.
  - rewrite Hpos. apply Rltb_true.
  - rewrite Hzero, Hpos. split.
    + intros E. apply negb_true_iff, Rltb_false in E. lra.
    + intros E. apply negb_true_iff, Rltb_false. lra.
Qed.

(** ** Stability guard *)

Lemma count_zero_iff (c : spec_float -> bool) (a : fgrid) :
  count c a = 0%nat <-> (forall x, In x a -> c x = false).
Proof.
  unfold count. induction a as [|y a IH]; simpl.
  - split; [intros _ x []|reflexivity].
  - destruct (c y) eqn:Ey; simpl.
    + split; [discriminate|].
      intros H. rewrite (H y) in Ey by (left; reflexivity). discriminate.
    + rewrite IH. split.
      * intros H x [<-|Hx]; [exact Ey|apply H, Hx].
      * intros H x Hx. apply H. right. exact Hx.
Qed.

Lemma count_nonzero_iff (c : spec_float -> bool) (a : fgrid) :
  count c a <> 0%nat <-> (exists x, In x a /\ c x = true).
Proof.
  unfold count. induction a as [|y a IH]; simpl.
  - split; [intros H; contradiction|intros [x [[] _]]].
  - destruct (c y) eqn:Ey; simpl.
    + split; [|discriminate]. intros _. exists y. split; [left; reflexivity|exact Ey].
    + rewrite IH. split.
      * intros [x [Hx Hc]]. exists x. split; [right; exact Hx|exact Hc].
      * intros [x [[<-|Hx] Hc]]; [congruence|]. exists x. split; assumption.
Qed.

Lemma check_flow_depth_raises (d : fgrid) :
  raises (check_flow_depth d) <->
  (exists x, In x d /\ (is_neg x = true \/ isinf x = true)).
Proof.
  unfold check_flow_depth, raises. cbv zeta.
  destruct (count is_neg d =? 0)%nat eqn:En;
    destruct (count isinf d =? 0)%nat eqn:Ei; cbn [andb].
  - apply Nat.eqb_eq in En, Ei.
    split; [intros [e H]; discriminate|].
    intros [x [Hx [H|H]]].
    + rewrite (proj1 (count_zero_iff _ _) En x Hx) in H. discriminate.
    + rewrite (proj1 (count_zero_iff _ _) Ei x Hx) in H. discriminate.
  - apply Nat.eqb_neq, count_nonzero_iff in Ei. destruct Ei as [x [Hx Hc]].
    split; [intros _; exists x; tauto|intros _; eexists; reflexivity].
  - apply Nat.eqb_neq, count_nonzero_iff in En. destruct En as [x [Hx Hc]].
    split; [intros _; exists x; tauto|intros _; eexists; reflexivity].
  - apply Nat.eqb_neq, count_nonzero_iff in En. destruct En as [x [Hx Hc]].
    split; [intros _; exists x; tauto|intros _; eexists; reflexivity].
Qed.

Lemma check_flow_velocity_raises (u : fgrid) :
  raises (check_flow_velocity true true true u) <->
  (exists x, In x u /\ (is_neg x = true \/ isnan x = true \/ isinf x = true)).
Proof.
  unfold check_flow_velocity, raises. cbv zeta.
  destruct (count is_neg u =? 0)%nat eqn:En;
    [destruct (count isnan u =? 0)%nat eqn:Ea;
     [destruct (count isinf u =? 0)%nat eqn:Ei|]|]; cbn [andb].
  - apply Nat.eqb_eq in En, Ea, Ei.
    split; [intros [e H]; discriminate|].
    intros [x [Hx [H|[H|H]]]].
    + rewrite (proj1 (count_zero_iff _ _) En x Hx) in H. discriminate.
    + rewrite (proj1 (count_zero_iff _ _) Ea x Hx) in H. discriminate.
    + rewrite (proj1 (count_zero_iff _ _) Ei x Hx) in H. discriminate.
  - apply Nat.eqb_neq, count_nonzero_iff in Ei. destruct Ei as [x [Hx Hc]].
    split; [intros _; exists x; tauto|intros _; eexists; reflexivity].
  - apply Nat.eqb_neq, count_nonzero_iff in Ea. destruct Ea as [x [Hx Hc]].
    split; [intros _; exists x; tauto|intros _; eexists; reflexivity].
  - apply Nat.eqb_neq, count_nonzero_iff in En. destruct En as [x [Hx Hc]].
    split; [intros _; exists x; tauto|intros _; eexists; reflexivity].
Qed.

Lemma check_flow_depth_cases (d : fgrid) :
  check_flow_depth d = Return true \/
  check_flow_depth d
  = Raise (mkError (report_lines (count is_neg d) (count isnan d) (count isinf d)
                      (filter is_neg d)) "Negative or NaN depth found.").
Proof.
  unfold check_flow_depth. cbv zeta.
  destruct ((count is_neg d =? 0)%nat && (count isinf d =? 0)%nat); auto.
Qed.

Lemma check_flow_velocity_cases (u : fgrid) :
  check_flow_velocity true true true u = Return true \/
  check_flow_velocity true true true u
  = Raise (mkError (report_lines (count is_neg u) (count isnan u) (count isinf u)
                      (filter is_neg u)) "Found bad velocities.").
Proof.
  unfold check_flow_velocity. cbv zeta.
  destruct ((count is_neg u =? 0)%nat && (count isnan u =? 0)%nat
            && (count isinf u =? 0)%nat); auto.
Qed.

(** A value that is finite and not below zero falls in none of the three
    categories. *)
Lemma finite_nonneg_clean (x : spec_float) :
  SFleb fzero x = true -> isinf x = false ->
  is_neg x = false /\ isnan x = false /\ isinf x = false.
Proof.
  unfold is_neg, fzero.
  destruct x as [b|b| |b m e]; try destruct b; cbn; intros; repeat split;
    congruence.
Qed.

(** The checks either return [True] or raise: [update] never reaches the
    assignment of the status 'failed'. *)
Lemma update_check_never_failed (c : bool) (d u : fgrid) :
  update_check c d u <> Return failed.
Proof.
  unfold update_check. destruct c; cbn; [|discriminate].
  destruct (check_flow_depth_cases d) as [-> | ->]; cbn; [|discriminate].
  destruct (check_flow_velocity_cases u) as [-> | ->]; cbn; discriminate.
Qed.

Lemma update_check_disabled (d u : fgrid) :
  update_check false d u = Return updated.
Proof. reflexivity. Qed.

(** C3 (as stated, refuted): a depth grid whose only defect is a NaN passes
    the guard. *)
Lemma stability_guard_nan_depth_counterexample :
  let d := [S754_nan] in
  let u := [fzero] in
  (exists x, In x d /\ isnan x = true) /\
  update_check true d u = Return updated /\
  ~ raises (update_check true d u).
Proof.
  cbv zeta. split; [|split].
  - exists S754_nan. split; [left; reflexivity|reflexivity].
  - reflexivity.
  - intros [e H]. discriminate.
Qed.

(** C3 (amended): with the stability check enabled, the guard raises a
    terminating error if and only if the depth grid contains a negative or
    infinite value, or the velocity grid contains a negative, NaN or
    infinite value (a NaN depth alone is let through); the error carries
    the counts per category and the smallest negative value of the grid
    that failed; when all depths and velocities are finite and
    non-negative it returns OK without raising. *)
Theorem stability_guard_raises_iff (d u : fgrid) :
  (raises (update_check true d u) <->
     (exists x, In x d /\ (is_neg x = true \/ isinf x = true)) \/
     (exists x, In x u /\
                (is_neg x = true \/ isnan x = true \/ isinf x = true))) /\
  (forall e, update_check true d u = Raise e ->
     e = mkError (report_lines (count is_neg d) (count isnan d) (count isinf d)
                    (filter is_neg d)) "Negative or NaN depth found." \/
     e = mkError (report_lines (count is_neg u) (count isnan u) (count isinf u)
                    (filter is_neg u)) "Found bad velocities.") /\
  ((forall x, In x d -> SFleb fzero x = true /\ isinf x = false) ->
   (forall x, In x u -> SFleb fzero x = true /\ isinf x = false) ->
   update_check true d u = Return updated).
Proof.
  pose proof (check_flow_depth_raises d) as Hd.
  pose proof (check_flow_velocity_raises u) as Hu.
  unfold update_check, raises in *.
  destruct (check_flow_depth_cases d) as [Ed | Ed];
    destruct (check_flow_velocity_cases u) as [Eu | Eu];
    rewrite Ed in *; rewrite Eu in *; cbn [bind andb].
  - split; [|split].
    + split; [intros [e H]; discriminate|].
      intros [H|H]; [apply Hd in H|apply Hu in H]; destruct H; discriminate.
    + intros e H. discriminate.
    + reflexivity.
  - split; [|split].
    + split; [intros _; right; apply Hu; eexists; reflexivity|].
      intros _. eexists; reflexivity.
    + intros e H. injection H as <-. right. reflexivity.
    + intros Hcd Hcu. exfalso.
      destruct (proj1 Hu) as [x [Hx Hbad]]; [eexists; reflexivity|].
      destruct (Hcu x Hx) as [H1 H2].
      destruct (finite_nonneg_clean x H1 H2) as [A [B C]].
      destruct Hbad as [H|[H|H]]; congruence.
  - split; [|split].
    + split; [intros _; left; apply Hd; eexists; reflexivity|].
      intros _. eexists; reflexivity.
    + intros e H. injection H as <-. left. reflexivity.
    + intros Hcd Hcu. exfalso.
      destruct (proj1 Hd) as [x [Hx Hbad]]; [eexists; reflexivity|].
      destruct (Hcd x Hx) as [H1 H2].
      destruct (finite_nonneg_clean x H1 H2) as [A [B C]].
      destruct Hbad as [H|H]; congruence.
  - split; [|split].
    + split; [intros _; left; apply Hd; eexists; reflexivity|].
      intros _. eexists; reflexivity.
    + intros e H. injection H as <-. left. reflexivity.
    + intros Hcd Hcu. exfalso.
      destruct (proj1 Hd) as [x [Hx Hbad]]; [eexists; reflexivity|].
      destruct (Hcd x Hx) as [H1 H2].
      destruct (finite_nonneg_clean x H1 H2) as [A [B C]].
      destruct Hbad as [H|H]; congruence.
Qed.

Lemma stability_guard_raises_iff_witness :
  let d := [S754_finite false 1 0; fzero] in
  let u := [fzero; S754_finite false 3 (-1)] in
  update_check true d u = Return updated.
Proof.
  cbv zeta.
  apply (stability_guard_raises_iff
           [S754_finite false 1 0; fzero] [fzero; S754_finite false 3 (-1)]).
  - intros x [<-|[<-|[]]]; split; reflexivity.
  - intros x [<-|[<-|[]]]; split; reflexivity.
Defined.

(** ** Volume routing and the mass balance of a tick *)

Lemma sum_list_map_scale (c : R) (f : nat -> R) (l : list nat) :
  sum_list (map (fun w => c * f w) l) = c * sum_list (map f l).
Proof.
  unfold sum_list. induction l as [|x l IH]; simpl; [lra|rewrite IH; lra].
Qed.

Lemma sum_list_perm (f : nat -> R) (l l' : list nat) :
  Permutation l l' -> sum_list (map f l) = sum_list (map f l').
Proof.
  unfold sum_list. induction 1; simpl; lra.
Qed.

Lemma sum_list_zero (f : nat -> R) (l : list nat) :
  (forall i, In i l -> f i = 0) -> sum_list (map f l) = 0.
Proof.
  unfold sum_list. induction l as [|x l IH]; intros H; simpl; [reflexivity|].
  rewrite IH by (intros; apply H; right; assumption).
  rewrite (H x) by (left; reflexivity). lra.
Qed.

Lemma iadd_at_sum_gen (n : nat) (a : grid) (p : list nat) :
  forall (vals : list R) (acc : grid),
  NoDup p -> (forall j, In j p -> (j < n)%nat) ->
  length p = length vals ->
  (forall j, In j p -> acc j = a j) ->
  gsum n (fold_left (fun acc pv => upd acc (fst pv) (a (fst pv) + snd pv))
                    (combine p vals) acc)
  = gsum n acc + sum_list vals.
Proof.
  induction p as [|j p IH]; intros vals acc Hnd Hlt Hlen Hacc.
  - destruct vals; [|discriminate]. unfold sum_list. simpl. lra.
  - destruct vals as [|v vals]; [discriminate|].
    inversion Hnd as [|? ? Hj Hnd']; subst. simpl.
    rewrite IH.
    + rewrite gsum_upd by (apply Hlt; left; reflexivity).
      rewrite (Hacc j) by (left; reflexivity).
      unfold sum_list. simpl. lra.
    + assumption.
    + intros k Hk. apply Hlt. right. assumption.
    + simpl in Hlen. lia.
    + intros k Hk. unfold upd.
      replace (j =? k)%nat with false.
      * apply Hacc. right. assumption.
      * symmetry. apply Nat.eqb_neq. intros ->. contradiction.
Qed.

Lemma iadd_at_sum (n : nat) (a : grid) (p : list nat) (vals : list R) :
  NoDup p -> (forall j, In j p -> (j < n)%nat) -> length p = length vals ->
  gsum n (iadd_at a p vals) = gsum n a + sum_list vals.
Proof.
  intros. unfold iadd_at. apply iadd_at_sum_gen; auto.
Qed.

Lemma vol_set_heap_same (t : state) (v : grid) :
  vol (set_heap t (vol_ t) v) = v.
Proof. unfold vol. cbn. apply store_same. Qed.

Lemma Q_set_heap_vol (t : state) (v : grid) :
  vol_ t <> Q_ t -> Q (set_heap t (vol_ t) v) = Q t.
Proof. intros H. unfold Q. cbn. apply store_other, H. Qed.

Lemma route_group_effect (n : nat) (p : params) (t : state) (gr : d8_group) :
  vol_ t <> Q_ t ->
  (p_OK gr = true ->
     length (p_IDs gr) = length (w_IDs gr) /\
     NoDup (p_IDs gr) /\
     (forall j, In j (p_IDs gr) -> (j < n)%nat)) ->
  same_bindings t (route_group p t gr) /\
  Q (route_group p t gr) = Q t /\
  gsum n (vol (route_group p t gr))
  = gsum n (vol t)
    + dt p * sum_list (map (Q t) (if p_OK gr then w_IDs gr else [])).
Proof.
  intros Hne Hwf. split; [apply route_group_bindings|].
  unfold route_group. destruct (p_OK gr).
  - destruct (Hwf eq_refl) as [Hlen [Hnd Hlt]].
    split; [apply Q_set_heap_vol, Hne|].
    rewrite vol_set_heap_same, iadd_at_sum; auto.
    + rewrite sum_list_map_scale. reflexivity.
    + rewrite length_map. exact Hlen.
  - split; [reflexivity|]. unfold sum_list. simpl. lra.
Qed.

Lemma route_groups_effect (n : nat) (p : params) (grs : list d8_group) :
  forall t : state,
  vol_ t <> Q_ t ->
  (forall gr, In gr grs -> p_OK gr = true ->
     length (p_IDs gr) = length (w_IDs gr) /\
     NoDup (p_IDs gr) /\
     (forall j, In j (p_IDs gr) -> (j < n)%nat)) ->
  same_bindings t (fold_left (route_group p) grs t) /\
  Q (fold_left (route_group p) grs t) = Q t /\
  gsum n (vol (fold_left (route_group p) grs t))
  = gsum n (vol t)
    + dt p * sum_list (map (Q t) (flat_map w_IDs (filter p_OK grs))).
Proof.
  induction grs as [|gr grs IH]; intros t Hne Hwf.
  - simpl. split; [apply same_bindings_refl|]. split; [reflexivity|].
    unfold sum_list. simpl. lra.
  - simpl fold_left.
    destruct (route_group_effect n p t gr Hne) as [Hb [HQ Hs]].
    { apply Hwf. left. reflexivity. }
    destruct (IH (route_group p t gr)) as [Hb' [HQ' Hs']].
    { destruct Hb as [B1 B2]. congruence. }
    { intros gr' Hin. apply Hwf. right. exact Hin. }
    split; [eapply same_bindings_trans; eassumption|].
    split; [congruence|].
    rewrite Hs', Hs, HQ. simpl filter.
    destruct (p_OK gr); simpl flat_map.
    + rewrite map_app, sum_list_app. lra.
    + unfold sum_list at 1. simpl. lra.
Qed.

Lemma gsum_minus_scale (n : nat) (a b : grid) (c : R) :
  gsum n (fun i => a i - b i * c) = gsum n a - c * gsum n b.
Proof.
  induction n as [|n IH]; [unfold gsum, sum_list; simpl; lra|].
  rewrite !gsum_S, IH. lra.
Qed.

(** Without the clamp, routing moves volume between cells and adds the net
    excess; it neither creates nor destroys volume. *)
Lemma flow_volume_unclamped_sum (n : nat) (p : params) (t : state) :
  ATTENUATE p = false ->
  vol_ t <> Q_ t ->
  d8_ok n (d8 p) ->
  (forall i, In i (noflow_IDs (d8 p)) -> Q t i = 0) ->
  gsum n (vol (flow_volume_unclamped p t))
  = gsum n (vol t) + gsum n (fun i => at_ (R_ t) i * at_ (da p) i * dt p).
Proof.
  intros Hatt Hne [Hgr Hperm] Hno.
  unfold flow_volume_unclamped. cbv zeta. rewrite Hatt.
  set (t1 := set_heap t (vol_ t)
               (fun i => vol t i + at_ (R_ t) i * at_ (da p) i * dt p)).
  assert (Hv1 : vol t1 = fun i => vol t i + at_ (R_ t) i * at_ (da p) i * dt p)
    by apply vol_set_heap_same.
  assert (HQ1 : Q t1 = Q t) by (apply Q_set_heap_vol, Hne).
  assert (Hne1 : vol_ t1 <> Q_ t1) by exact Hne.
  destruct (route_groups_effect n p (groups (d8 p)) t1 Hne1 Hgr) as [Hb [HQ2 Hs2]].
  set (t2 := fold_left (route_group p) (groups (d8 p)) t1) in *.
  rewrite vol_set_heap_same, gsum_minus_scale, Hs2, HQ2, HQ1, Hv1, gsum_plus.
  assert (HQsum : gsum n (Q t)
                  = sum_list (map (Q t)
                       (flat_map w_IDs (filter p_OK (groups (d8 p)))))).
  { unfold gsum. rewrite <- (sum_list_perm (Q t) _ _ Hperm).
    rewrite map_app, sum_list_app, (sum_list_zero (Q t) (noflow_IDs (d8 p))) by exact Hno.
    lra. }
  rewrite HQsum. lra.
Qed.

Lemma keeps_vol_refl (s : state) : keeps_vol s s.
Proof. repeat split. Qed.

Lemma keeps_vol_trans (s1 s2 s3 : state) :
  keeps_vol s1 s2 -> keeps_vol s2 s3 -> keeps_vol s1 s3.
Proof.
  intros [B1 [H1 [E1 R1]]] [B2 [H2 [E2 R2]]].
  split; [eapply same_bindings_trans; eassumption|].
  repeat split; congruence.
Qed.

Lemma update_channel_depth_keeps_vol p s : keeps_vol s (update_channel_depth p s).
Proof. repeat split. Qed.

Lemma update_trapezoid_Rh_keeps_vol p s : keeps_vol s (update_trapezoid_Rh p s).
Proof. repeat split. Qed.

Lemma update_free_surface_slope_keeps_vol p s :
  keeps_vol s (update_free_surface_slope p s).
Proof. unfold update_free_surface_slope. destruct (FLOOD_OPTION p); repeat split. Qed.

Lemma update_shear_stress_keeps_vol p s : keeps_vol s (update_shear_stress p s).
Proof. repeat split. Qed.

Lemma update_shear_speed_keeps_vol p s : keeps_vol s (update_shear_speed p s).
Proof. repeat split. Qed.

Lemma update_friction_factor_keeps_vol p s :
  keeps_vol s (update_friction_factor p s).
Proof.
  unfold update_friction_factor. cbv zeta.
  destruct (MANNING p), (LAW_OF_WALL p); repeat split.
Qed.

Lemma update_velocity_on_edges_keeps_vol p s :
  keeps_vol s (update_velocity_on_edges p s).
Proof. repeat split. Qed.

Lemma update_froude_number_keeps_vol p s :
  keeps_vol s (update_froude_number p s).
Proof. repeat split. Qed.

Lemma update_outlet_values_keeps_vol p s :
  keeps_vol s (update_outlet_values p s).
Proof. repeat split. Qed.

Lemma update_peak_values_keeps_vol p s : keeps_vol s (update_peak_values p s).
Proof.
  unfold update_peak_values. cbv zeta.
  repeat match goal with
         | |- context [if ?b then _ else _] => destruct b
         end; repeat split.
Qed.

Lemma update_Q_out_integral_keeps_vol p s :
  keeps_vol s (update_Q_out_integral p s).
Proof. repeat split. Qed.

Ltac keeps_vol_step L :=
  match goal with
  | |- keeps_vol ?s (_ ?p ?t) => apply (keeps_vol_trans s t); [|apply L]
  end.

Ltac keeps_vol_steps :=
  repeat match goal with
         | |- keeps_vol ?s ?s => apply keeps_vol_refl
         | |- keeps_vol _ (update_Q_out_integral _ _) =>
             keeps_vol_step update_Q_out_integral_keeps_vol
         | |- keeps_vol _ (update_peak_values _ _) =>
             keeps_vol_step update_peak_values_keeps_vol
         | |- keeps_vol _ (update_outlet_values _ _) =>
             keeps_vol_step update_outlet_values_keeps_vol
         | |- keeps_vol _ (update_froude_number _ _) =>
             keeps_vol_step update_froude_number_keeps_vol
         | |- keeps_vol _ (update_velocity_on_edges _ _) =>
             keeps_vol_step update_velocity_on_edges_keeps_vol
         | |- keeps_vol _ (update_friction_factor _ _) =>
             keeps_vol_step update_friction_factor_keeps_vol
         | |- keeps_vol _ (update_shear_speed _ _) =>
             keeps_vol_step update_shear_speed_keeps_vol
         | |- keeps_vol _ (update_shear_stress _ _) =>
             keeps_vol_step update_shear_stress_keeps_vol
         | |- keeps_vol _ (update_free_surface_slope _ _) =>
             keeps_vol_step update_free_surface_slope_keeps_vol
         | |- keeps_vol _ (update_trapezoid_Rh _ _) =>
             keeps_vol_step update_trapezoid_Rh_keeps_vol
         | |- keeps_vol _ (update_channel_depth _ _) =>
             keeps_vol_step update_channel_depth_keeps_vol
         end.

(** The shape of a tick with the flood option disabled. *)
Lemma update_noflood_shape (p : params) (s : state) :
  FLOOD_OPTION p = false ->
  exists t,
    keeps_vol
      (update_flow_volume p
         (update_diversions p
            (update_channel_discharge p (update_R_integral p (update_R p s))))) t /\
    update p s = update_time p (update_edge_values p t).
Proof.
  intros Hf. unfold update, update_to_froude, update_velocity. rewrite Hf.
  destruct (DYNAMIC_WAVE p), (KINEMATIC_WAVE p); cbn [negb]; cbv zeta;
    eexists; (split; [|reflexivity]); keeps_vol_steps.
Qed.

(** The state that enters [update_flow_volume]. *)
Lemma pre_routing_state (p : params) (s : state) :
  Q_ s = o_Qc -> vol_ s = o_vol_chan ->
  let sA := update_diversions p
              (update_channel_discharge p (update_R_integral p (update_R p s))) in
  (Q_ sA = o_Qc /\ vol_ sA = o_vol_chan) /\
  vol sA = vol s /\
  Q sA = (fun i => heap s o_u i * heap s o_A_wet i) /\
  R_ sA = R_ (update_R p s) /\
  scal sA s_vol_edge = scal s s_vol_edge.
Proof.
  intros HQ Hv.
  unfold update_diversions, update_channel_discharge, update_R_integral. cbv zeta.
  destruct (mul (mul (R_ (update_R p s)) (da p)) (Scalar (dt p))) as [v|v];
    unfold update_R; cbv zeta;
    destruct (ET p) as [x|];
    unfold vol, Q; cbn; rewrite ?HQ, ?Hv; cbn; repeat split; reflexivity.
Qed.

Lemma d8_ok_noflow (n : nat) (d : d8_base) :
  d8_ok n d ->
  NoDup (noflow_IDs d) /\ (forall j, In j (noflow_IDs d) -> (j < n)%nat).
Proof.
  intros [_ Hperm]. split.
  - eapply NoDup_app_remove_l.
    eapply Permutation_NoDup; [apply Permutation_sym, Hperm|apply seq_NoDup].
  - intros j Hj.
    assert (Hin : In j (seq 0 n)).
    { eapply Permutation_in; [exact Hperm|]. apply in_or_app. right. exact Hj. }
    apply in_seq in Hin. lia.
Qed.

Lemma route_groups_scal_R (p : params) (grs : list d8_group) :
  forall t, scal (fold_left (route_group p) grs t) = scal t /\
            R_ (fold_left (route_group p) grs t) = R_ t.
Proof.
  induction grs as [|gr grs IH]; intros t; simpl; [split; reflexivity|].
  destruct (IH (route_group p t gr)) as [H1 H2]. rewrite H1, H2.
  unfold route_group. destruct (p_OK gr); split; reflexivity.
Qed.

Lemma update_flow_volume_scal_R (p : params) (t : state) :
  scal (update_flow_volume p t) = scal t /\ R_ (update_flow_volume p t) = R_ t.
Proof.
  unfold update_flow_volume, flow_volume_unclamped. cbv zeta. cbn [scal R_ set_heap].
  match goal with
  | |- scal (fold_left _ _ ?X) = _ /\ _ =>
      destruct (route_groups_scal_R p (groups (d8 p)) X) as [H1 H2]
  end.
  rewrite H1, H2. destruct (ATTENUATE p); split; reflexivity.
Qed.

(** Volume, edge total and [R] after a tick with the flood option off, in
    terms of the volume grid just before the clamp. *)
Lemma update_noflood_volume (p : params) (s : state) :
  FLOOD_OPTION p = false ->
  Q_ s = o_Qc -> vol_ s = o_vol_chan ->
  let s' := update p s in
  (forall i, vol s' i =
             if in_dec Nat.eq_dec i (noflow_IDs (d8 p)) then 0
             else Rmax (unclamped_volume p s i) 0) /\
  scal s' s_vol_edge
  = scal s s_vol_edge
    + sum_list (map (fun i => Rmax (unclamped_volume p s i) 0)
                    (noflow_IDs (d8 p))) /\
  R_ s' = R_ (update_R p s).
Proof.
  intros Hf HQ Hv s'.
  destruct (update_noflood_shape p s Hf) as [t [[[BQ Bv] [Hh [He HR]]] Hs']].
  destruct (pre_routing_state p s HQ Hv) as [[AQ Av] [Avol [AQv [AR Ae]]]].
  set (sA := update_diversions p
               (update_channel_discharge p (update_R_integral p (update_R p s)))) in *.
  assert (Hun : unclamped_volume p s = vol (flow_volume_unclamped p sA)).
  { unfold unclamped_volume. cbv zeta. rewrite Hf. reflexivity. }
  destruct (update_flow_volume_bindings p sA) as [CQ Cv].
  assert (HvC : vol (update_flow_volume p sA)
                = fun i => Rmax (unclamped_volume p s i) 0).
  { rewrite Hun. unfold update_flow_volume. cbv zeta.
    apply vol_set_heap_same. }
  assert (Hvt : vol t = fun i => Rmax (unclamped_volume p s i) 0).
  { rewrite <- HvC. unfold vol. rewrite Bv, Cv, Av. exact Hh. }
  assert (Het : scal t s_vol_edge = scal s s_vol_edge).
  { rewrite He, <- Ae, (proj1 (update_flow_volume_scal_R p sA)). reflexivity. }
  assert (HRt : R_ t = R_ (update_R p s)).
  { rewrite HR, <- AR. apply update_flow_volume_scal_R. }
  unfold s'. rewrite Hs'. split; [|split].
  - intros i.
    change (vol (update_time p (update_edge_values p t)) i)
      with (vol (update_edge_values p t) i).
    rewrite update_edge_values_vol, Hvt. reflexivity.
  - change (scal (update_time p (update_edge_values p t)) s_vol_edge)
      with (scal (update_edge_values p t) s_vol_edge).
    rewrite update_edge_values_vol_edge, Het, Hvt. reflexivity.
  - rewrite <- HRt. unfold update_edge_values. cbv zeta. rewrite Hf. reflexivity.
Qed.

(** C1 (amended): for a single tick with flooding and attenuation disabled,
    on a state as initialization and every later tick leave it ([Q] and
    [vol] bound to the channel arrays, zero velocity on the noflow cells)
    and a well-formed flow network, if no cell's volume falls below zero
    before the clamp of the routing step, then the sum over all cells of
    [vol] after the tick minus the sum before the tick equals the sum over
    all cells of [R*area*dt] minus the amount added to [vol_edge] during
    the tick. *)
Theorem mass_balance_single_tick (p : params) (s : state) :
  FLOOD_OPTION p = false ->
  ATTENUATE p = false ->
  Q_ s = o_Qc -> vol_ s = o_vol_chan ->
  d8_ok (n_pixels p) (d8 p) ->
  (forall i, In i (noflow_IDs (d8 p)) -> heap s o_u i = 0) ->
  (forall i, (i < n_pixels p)%nat -> 0 <= unclamped_volume p s i) ->
  let s' := update p s in
  let n := n_pixels p in
  gsum n (vol s') - gsum n (vol s)
  = gsum n (fun i => at_ (R_ s') i * at_ (da p) i * dt p)
    - (scal s' s_vol_edge - scal s s_vol_edge).
Proof.
  intros Hf Hatt HQ Hv Hd8 Hu Hpos s' n.
  destruct (update_noflood_volume p s Hf HQ Hv) as [Hvol [Hedge HR]].
  fold s' in Hvol, Hedge, HR.
  destruct (pre_routing_state p s HQ Hv) as [[AQ Av] [Avol [AQv [AR Ae]]]].
  set (sA := update_diversions p
               (update_channel_discharge p (update_R_integral p (update_R p s)))) in *.
  destruct (d8_ok_noflow n (d8 p) Hd8) as [Hnd Hlt].
  assert (Hun : unclamped_volume p s = vol (flow_volume_unclamped p sA)).
  { unfold unclamped_volume. cbv zeta. rewrite Hf. reflexivity. }
  assert (Hsum : gsum n (unclamped_volume p s)
                 = gsum n (vol s)
                   + gsum n (fun i => at_ (R_ s') i * at_ (da p) i * dt p)).
  { rewrite Hun, (flow_volume_unclamped_sum n p sA); auto.
    - rewrite Avol, AR, HR. reflexivity.
    - rewrite AQ, Av. discriminate.
    - intros i Hi. rewrite AQv. cbv beta. rewrite (Hu i Hi). lra. }
  assert (Hclamp : forall i, (i < n)%nat ->
                             Rmax (unclamped_volume p s i) 0 = unclamped_volume p s i).
  { intros i Hi. apply Rmax_left. apply Hpos. exact Hi. }
  assert (Hafter : gsum n (vol s')
                   = gsum n (unclamped_volume p s)
                     - sum_list (map (unclamped_volume p s) (noflow_IDs (d8 p)))).
  { rewrite <- gsum_assign_at_zero by assumption.
    apply gsum_ext. intros i Hi.
    rewrite Hvol, assign_at_spec, Hclamp by exact Hi. reflexivity. }
  assert (Hno : sum_list (map (fun i => Rmax (unclamped_volume p s i) 0)
                              (noflow_IDs (d8 p)))
                = sum_list (map (unclamped_volume p s) (noflow_IDs (d8 p)))).
  { f_equal. apply map_ext_in. intros i Hi. apply Hclamp, Hlt, Hi. }
  rewrite Hafter, Hedge, Hno, Hsum. lra.
Qed.

Lemma demo_d8_ok : d8_ok 2 demo_d8.
Proof.
  split.
  - intros gr Hin Hok. cbn in Hin.
    destruct Hin as [<-|Hin].
    + cbn. repeat split.
      * constructor; [intros []|constructor].
      * intros j [<-|[]]. lia.
    + repeat (destruct Hin as [<-|Hin]; [discriminate|]). destruct Hin.
  - cbn. apply Permutation_refl.
Qed.

Lemma demo_unclamped_volume (P I : R) (i : nat) :
  (i < 2)%nat ->
  unclamped_volume (demo_params false 1 0 P I (RefScalar 0))
                   (demo_state false 1 0 P I (RefScalar 0)) i
  = P - I.
Proof.
  intros Hi.
  assert (Hc : i = 0%nat \/ i = 1%nat) by lia.
  destruct Hc as [-> | ->]; cbn; unfold trapezoid_area; rewrite tan_0; lra.
Qed.

Lemma mass_balance_single_tick_witness :
  let p := demo_params false 1 0 1 0 (RefScalar 0) in
  let s := demo_state false 1 0 1 0 (RefScalar 0) in
  gsum 2 (vol (update p s)) - gsum 2 (vol s)
  = gsum 2 (fun i => at_ (R_ (update p s)) i * at_ (da p) i * dt p)
    - (scal (update p s) s_vol_edge - scal s s_vol_edge).
Proof.
  cbv zeta.
  apply (mass_balance_single_tick
           (demo_params false 1 0 1 0 (RefScalar 0))
           (demo_state false 1 0 1 0 (RefScalar 0))).
  - reflexivity.
  - reflexivity.
  - reflexivity.
  - reflexivity.
  - exact demo_d8_ok.
  - intros i _. reflexivity.
  - intros i Hi. rewrite demo_unclamped_volume by exact Hi. lra.
Defined.

(** C1 (as stated, refuted): the clamp creates volume.  In the two-cell
    network, started dry, with infiltration 1 m/s and no rain, both cells
    would drop to -1 m^3 and are clamped to 0: the stored volume does not
    change, while [R*area*dt] sums to -2 and [vol_edge] does not move. *)
Lemma mass_balance_clamp_counterexample :
  let p := demo_params false 1 0 0 1 (RefScalar 0) in
  let s := demo_state false 1 0 0 1 (RefScalar 0) in
  let s' := update p s in
  FLOOD_OPTION p = false /\
  (forall i, vol s i = 0) /\
  gsum 2 (vol s') - gsum 2 (vol s) = 0 /\
  gsum 2 (fun i => at_ (R_ s') i * at_ (da p) i * dt p)
    - (scal s' s_vol_edge - scal s s_vol_edge) = -2 /\
  gsum 2 (vol s') - gsum 2 (vol s)
  <> gsum 2 (fun i => at_ (R_ s') i * at_ (da p) i * dt p)
     - (scal s' s_vol_edge - scal s s_vol_edge).
Proof.
  cbv zeta.
  set (p := demo_params false 1 0 0 1 (RefScalar 0)).
  set (s := demo_state false 1 0 0 1 (RefScalar 0)).
  destruct (update_noflood_volume p s) as [Hvol [Hedge HR]];
    try reflexivity.
  assert (Hv0 : forall i, vol s i = 0).
  { intros i. cbn. unfold trapezoid_area. rewrite tan_0. lra. }
  assert (Hun : forall i, (i < 2)%nat -> Rmax (unclamped_volume p s i) 0 = 0).
  { intros i Hi. unfold p, s. rewrite demo_unclamped_volume by exact Hi.
    apply Rmax_right. lra. }
  assert (Hv1 : forall i, (i < 2)%nat -> vol (update p s) i = 0).
  { intros i Hi. rewrite Hvol.
    destruct (in_dec Nat.eq_dec i (noflow_IDs (d8 p))); [reflexivity|].
    apply Hun, Hi. }
  assert (HL : gsum 2 (vol (update p s)) - gsum 2 (vol s) = 0).
  { unfold gsum, sum_list. cbn [map seq fold_right].
    rewrite !Hv0, (Hv1 0%nat), (Hv1 1%nat) by lia. lra. }
  assert (HRhs : gsum 2 (fun i => at_ (R_ (update p s)) i * at_ (da p) i * dt p)
                 - (scal (update p s) s_vol_edge - scal s s_vol_edge) = -2).
  { rewrite Hedge, HR. unfold gsum, sum_list.
    change (noflow_IDs (d8 p)) with [1%nat]. cbn [map seq fold_right].
    rewrite (Hun 1%nat) by lia. cbn. lra. }
  split; [reflexivity|]. split; [exact Hv0|]. split; [exact HL|].
  split; [exact HRhs|]. rewrite HL, HRhs. lra.
Qed.

(** ** The documented scenarios, evaluated *)

(** Flood partition: 130 m^3 stored against a bankfull volume of 100 m^3
    leaves 100 m^3 in the channel and 30 m^3 on the floodplain, 0.06 m
    deep. *)
Example scenario_flood_partition :
  let p := scenario_params in
  let s' := update_flood_depth p
              (update_channel_depth p
                 (update_flood_volume p
                    (update_channel_volume p (scenario_state 130 0)))) in
  heap s' o_vol_chan 0%nat = 100 /\
  heap s' o_vol_flood 0%nat = 30 /\
  heap s' o_d_flood 0%nat = 0.06.
Proof.
  cbv zeta. cbn. unfold width_ratio.
  replace (Rmin 130 100) with 100 by (symmetry; apply Rmin_right; lra).
  replace (Rmax (130 - 100) 0) with 30
    by (symmetry; apply eq_trans with (130 - 100); [apply Rmax_left|]; lra).
  repeat split.
  apply eq_trans with (30 / (5 * 2 * 50)); [apply Rmax_left|]; lra.
Qed.

(** Flat single cell: width 2 m and depth 1 m give a wetted area of
    2 m^2, a wetted perimeter of 4 m and a hydraulic radius of 0.5 m. *)
Example scenario_hydraulic_radius :
  let s' := update_trapezoid_Rh scenario_params (scenario_state 0 1) in
  heap s' o_A_wet 0%nat = 2 /\
  heap s' o_P_wet 0%nat = 4 /\
  heap s' o_Rh 0%nat = 0.5.
Proof.
  cbv zeta. cbn. rewrite tan_0, cos_0. repeat split; lra.
Qed.

(** Stability guard: a single negative depth among clean ones raises, and
    the report counts exactly one negative depth. *)
Example scenario_negative_depth :
  check_flow_depth [fzero; S754_finite true 1 (-10); fzero]
  = Raise (mkError [Found_negative 1 (Some (S754_finite true 1 (-10)))]
                   "Negative or NaN depth found.").
Proof. reflexivity. Qed.

(** * Further properties of the tick *)

(** ** The array objects each step leaves alone *)

Ltac heap_other :=
  cbv zeta;
  repeat match goal with
         | |- context [if ?b then _ else _] => destruct b
         | |- context [match ?x with Scalar _ => _ | Grid _ => _ end] => destruct x
         end;
  cbn [heap set_heap set_scal set_masks set_time set_R];
  rewrite ?store_other by congruence; reflexivity.

Lemma update_R_integral_heap p s : heap (update_R_integral p s) = heap s.
Proof. unfold update_R_integral. heap_other. Qed.

Lemma update_channel_discharge_heap_other p s o :
  o <> o_Qc -> heap (update_channel_discharge p s) o = heap s o.
Proof. intros H. unfold update_channel_discharge. heap_other. Qed.

Lemma update_flood_discharge_heap_other p s o :
  o <> o_Qf -> heap (update_flood_discharge p s) o = heap s o.
Proof. intros H. unfold update_flood_discharge. heap_other. Qed.

Lemma update_discharge_heap_other p s o :
  o <> Q_ s -> heap (update_discharge p s) o = heap s o.
Proof. intros H. unfold update_discharge. heap_other. Qed.

Lemma route_groups_heap_other p grs o :
  forall t, o <> vol_ t -> heap (fold_left (route_group p) grs t) o = heap t o.
Proof.
  induction grs as [|gr grs IH]; intros t H; simpl; [reflexivity|].
  rewrite IH.
  - unfold route_group. heap_other.
  - destruct (route_group_bindings p t gr) as [_ E]. congruence.
Qed.

Lemma flow_volume_unclamped_heap_other p s o :
  o <> vol_ s -> o <> o_vol_stored ->
  heap (flow_volume_unclamped p s) o = heap s o.
Proof.
  intros H1 H2. unfold flow_volume_unclamped. cbv zeta.
  cbn [heap set_heap].
  match goal with
  | |- store _ ?k _ o = _ =>
      assert (Ek : k = vol_ s)
  end.
  { match goal with
    | |- vol_ (fold_left _ _ ?X) = _ =>
        destruct (route_groups_bindings p (groups (d8 p)) X) as [_ E]; rewrite E
    end.
    destruct (ATTENUATE p); reflexivity. }
  rewrite Ek, store_other by congruence.
  rewrite route_groups_heap_other.
  - destruct (ATTENUATE p); cbn [heap set_heap vol_];
      rewrite ?store_other by congruence; reflexivity.
  - destruct (ATTENUATE p); cbn [vol_ set_heap]; exact H1.
Qed.

Lemma update_flow_volume_heap_other p s o :
  o <> vol_ s -> o <> o_vol_stored ->
  heap (update_flow_volume p s) o = heap s o.
Proof.
  intros H1 H2. unfold update_flow_volume. cbv zeta. cbn [heap set_heap].
  destruct (flow_volume_unclamped_bindings p s) as [_ E].
  rewrite E, store_other by congruence.
  apply flow_volume_unclamped_heap_other; assumption.
Qed.

Lemma update_channel_volume_heap_other p s o :
  o <> o_vol_chan -> heap (update_channel_volume p s) o = heap s o.
Proof. intros H. unfold update_channel_volume. heap_other. Qed.

Lemma update_flood_volume_heap_other p s o :
  o <> o_vol_flood -> heap (update_flood_volume p s) o = heap s o.
Proof. intros H. unfold update_flood_volume. heap_other. Qed.

Lemma update_channel_depth_heap_other p s o :
  o <> o_d -> heap (update_channel_depth p s) o = heap s o.
Proof. intros H. unfold update_channel_depth. heap_other. Qed.

Lemma update_flood_depth_heap_other p s o :
  o <> o_d_flood -> heap (update_flood_depth p s) o = heap s o.
Proof. intros H. unfold update_flood_depth. heap_other. Qed.

Lemma update_trapezoid_Rh_heap_other p s o :
  o <> o_Rh -> o <> o_A_wet -> o <> o_P_wet ->
  heap (update_trapezoid_Rh p s) o = heap s o.
Proof. intros H1 H2 H3. unfold update_trapezoid_Rh. heap_other. Qed.

Lemma update_free_surface_slope_heap_other p s o :
  o <> o_S_free -> heap (update_free_surface_slope p s) o = heap s o.
Proof. intros H. unfold update_free_surface_slope. heap_other. Qed.

Lemma update_shear_stress_heap_other p s o :
  o <> o_tau -> heap (update_shear_stress p s) o = heap s o.
Proof. intros H. unfold update_shear_stress. heap_other. Qed.

Lemma update_shear_speed_heap_other p s o :
  o <> o_u_star -> heap (update_shear_speed p s) o = heap s o.
Proof. intros H. unfold update_shear_speed. heap_other. Qed.

Lemma update_friction_factor_heap_other p s o :
  o <> o_f -> heap (update_friction_factor p s) o = heap s o.
Proof. intros H. unfold update_friction_factor. heap_other. Qed.

Lemma update_velocity_on_edges_heap_other p s o :
  o <> o_u -> heap (update_velocity_on_edges p s) o = heap s o.
Proof. intros H. unfold update_velocity_on_edges. heap_other. Qed.

Lemma update_froude_number_heap_other p s o :
  o <> o_froude -> heap (update_froude_number p s) o = heap s o.
Proof. intros H. unfold update_froude_number. heap_other. Qed.

Lemma update_outlet_values_heap p s : heap (update_outlet_values p s) = heap s.
Proof. reflexivity. Qed.

Lemma update_peak_values_heap p s : heap (update_peak_values p s) = heap s.
Proof. unfold update_peak_values. heap_other. Qed.

Lemma update_Q_out_integral_heap p s : heap (update_Q_out_integral p s) = heap s.
Proof. reflexivity. Qed.

Lemma update_time_heap p s : heap (update_time p s) = heap s.
Proof. reflexivity. Qed.

(** [update_edge_values] either leaves a cell of an array alone or zeroes
    it. *)
Lemma update_edge_values_heap_cases p s o i :
  heap (update_edge_values p s) o i = heap s o i \/
  heap (update_edge_values p s) o i = 0.
Proof.
  unfold update_edge_values. cbv zeta.
  destruct (FLOOD_OPTION p); cbn [heap set_heap set_scal vol vol_];
    unfold store;
    repeat match goal with
           | |- context [obj_eq_dec ?a ?b] => destruct (obj_eq_dec a b)
           end;
    rewrite ?assign_at_spec;
    repeat match goal with
           | |- context [in_dec ?a ?b ?c] => destruct (in_dec a b c)
           end;
    first [left; congruence | right; reflexivity | congruence].
Qed.

Ltac peel_heap :=
  repeat match goal with
         | |- context [heap (update_time _ _)] => rewrite update_time_heap
         | |- context [heap (update_Q_out_integral _ _)] =>
             rewrite update_Q_out_integral_heap
         | |- context [heap (update_peak_values _ _)] =>
             rewrite update_peak_values_heap
         | |- context [heap (update_outlet_values _ _)] =>
             rewrite update_outlet_values_heap
         | |- context [heap (update_froude_number _ _) _] =>
             rewrite update_froude_number_heap_other by discriminate
         | |- context [heap (update_velocity_on_edges _ _) _] =>
             rewrite update_velocity_on_edges_heap_other by discriminate
         | |- context [heap (update_friction_factor _ _) _] =>
             rewrite update_friction_factor_heap_other by discriminate
         | |- context [heap (update_shear_speed _ _) _] =>
             rewrite update_shear_speed_heap_other by discriminate
         | |- context [heap (update_shear_stress _ _) _] =>
             rewrite update_shear_stress_heap_other by discriminate
         | |- context [heap (update_free_surface_slope _ _) _] =>
             rewrite update_free_surface_slope_heap_other by discriminate
         | |- context [heap (update_trapezoid_Rh _ _) _] =>
             rewrite update_trapezoid_Rh_heap_other by discriminate
         | |- context [heap (update_flood_depth _ _) _] =>
             rewrite update_flood_depth_heap_other by discriminate
         | |- context [heap (update_channel_depth _ _) _] =>
             rewrite update_channel_depth_heap_other by discriminate
         | |- context [heap (update_flood_volume _ _) _] =>
             rewrite update_flood_volume_heap_other by discriminate
         | |- context [heap (update_channel_volume _ _) _] =>
             rewrite update_channel_volume_heap_other by discriminate
         end.

(** The steps of a tick, laid out for the configuration at hand. *)
Ltac open_update Hf :=
  unfold update, update_to_froude, update_velocity, update_diversions;
  match goal with
  | |- context [FLOOD_OPTION ?p] =>
      destruct (FLOOD_OPTION p) eqn:Hf, (DYNAMIC_WAVE p), (KINEMATIC_WAVE p)
  end;
  cbn [negb]; cbv zeta.

Lemma bound_ok_step (p : params) (s s' : state) :
  bound_ok p s -> same_bindings s s' -> bound_ok p s'.
Proof. intros [H1 H2] [E1 E2]. split; congruence. Qed.

Lemma initialize_computed_vars_bound_ok (p : params) (ext : obj -> grid) :
  bound_ok p (initialize_computed_vars p ext).
Proof. split; reflexivity. Qed.

Lemma update_bound_ok (p : params) (s : state) :
  bound_ok p s -> bound_ok p (update p s).
Proof. intros H. eapply bound_ok_step; [exact H|apply update_bindings]. Qed.

Lemma run_bound_ok (p : params) (n : nat) (s : state) :
  bound_ok p s -> bound_ok p (run p n s).
Proof. intros H. eapply bound_ok_step; [exact H|apply run_bindings]. Qed.

Lemma update_edge_values_nonneg p s o i :
  0 <= heap s o i -> 0 <= heap (update_edge_values p s) o i.
Proof.
  intros H. destruct (update_edge_values_heap_cases p s o i) as [-> | ->];
    [exact H|lra].
Qed.

Lemma update_flow_volume_vol_nonneg p s i :
  0 <= heap (update_flow_volume p s) (vol_ s) i.
Proof.
  unfold update_flow_volume. cbv zeta. cbn [heap set_heap].
  destruct (flow_volume_unclamped_bindings p s) as [_ E].
  rewrite E, store_same. apply Rmax_r.
Qed.

(** Whatever the state a tick starts from, it ends with a volume and a
    depth that are nowhere negative; with the flood option the same holds
    for the flood volume and the flood depth. *)
Theorem tick_leaves_volumes_and_depths_nonnegative
        (p : params) (s : state) (i : cell) :
  bound_ok p s ->
  let s' := update p s in
  0 <= vol s' i /\ 0 <= heap s' o_d i /\
  (FLOOD_OPTION p = true ->
     0 <= heap s' o_vol_flood i /\ 0 <= heap s' o_d_flood i).
Proof.
  intros [HQ Hv] s'.
  assert (Ev : vol s' i = heap s' (vol_ s) i).
  { unfold vol, s'. destruct (update_bindings p s) as [_ ->]. reflexivity. }
  rewrite Ev. unfold s'. clear Ev s'.
  assert (Hpre : forall t, same_bindings s t ->
            0 <= heap (update_flow_volume p t) (vol_ s) i).
  { intros t [_ E]. rewrite <- E. apply update_flow_volume_vol_nonneg. }
  open_update Hf; rewrite Hv in *;
    (split; [|split]);
    try (intros Hc; first [discriminate Hc | split]);
    rewrite update_time_heap; apply update_edge_values_nonneg; peel_heap;
    try (apply Hpre; step_bindings);
    try (rewrite update_channel_depth_d; apply Rmax_r);
    try (unfold update_flood_volume, update_flood_depth;
         cbn [heap set_heap]; rewrite store_same; apply Rmax_r).
Qed.

Lemma tick_leaves_volumes_and_depths_nonnegative_witness :
  let p := demo_params true 1 1 0 2 (RefScalar 0) in
  let s' := update p (demo_state true 1 1 0 2 (RefScalar 0)) in
  0 <= vol s' 0%nat /\ 0 <= heap s' o_d 0%nat /\
  (FLOOD_OPTION p = true ->
     0 <= heap s' o_vol_flood 0%nat /\ 0 <= heap s' o_d_flood 0%nat).
Proof.
  exact (tick_leaves_volumes_and_depths_nonnegative
           (demo_params true 1 1 0 2 (RefScalar 0))
           (demo_state true 1 1 0 2 (RefScalar 0)) 0%nat
           (conj eq_refl eq_refl)).
Defined.

(** ** Cells without a flow direction *)

Lemma update_edge_values_zero p s o i :
  heap s o i = 0 -> heap (update_edge_values p s) o i = 0.
Proof.
  intros H. destruct (update_edge_values_heap_cases p s o i) as [E | E];
    rewrite E; [exact H|reflexivity].
Qed.

Lemma update_u_noflow (p : params) (s : state) (i : cell) :
  In i (noflow_IDs (d8 p)) -> heap (update p s) o_u i = 0.
Proof.
  intros Hi. open_update Hf;
    rewrite update_time_heap; apply update_edge_values_zero; peel_heap;
    unfold update_velocity_on_edges; cbn [heap set_heap];
    rewrite store_same; apply assign_at_in; exact Hi.
Qed.

(** Every tick ends with zero velocity in the cells that have no flow
    direction, so that the next tick computes no channel discharge out of
    them. *)
Theorem tick_leaves_noflow_cells_still (p : params) (s : state) (i : cell) :
  In i (noflow_IDs (d8 p)) ->
  let s' := update p s in
  heap s' o_u i = 0 /\
  heap (update_channel_discharge p (update_R_integral p (update_R p s'))) o_Qc i = 0.
Proof.
  intros Hi s'.
  assert (Hu : heap s' o_u i = 0) by (apply update_u_noflow; exact Hi).
  split; [exact Hu|].
  unfold update_channel_discharge. cbn [heap set_heap]. rewrite store_same.
  rewrite update_R_integral_heap, update_R_heap_other by discriminate.
  rewrite Hu. ring.
Qed.

Lemma tick_leaves_noflow_cells_still_witness :
  let p := demo_params false 1 1 1 0 (RefScalar 0) in
  let s' := update p (demo_state false 1 1 1 0 (RefScalar 0)) in
  heap s' o_u 1%nat = 0 /\
  heap (update_channel_discharge p (update_R_integral p (update_R p s'))) o_Qc 1%nat
  = 0.
Proof.
  exact (tick_leaves_noflow_cells_still
           (demo_params false 1 1 1 0 (RefScalar 0))
           (demo_state false 1 1 1 0 (RefScalar 0)) 1%nat
           (or_introl eq_refl)).
Defined.

(** ** Outlet and peak values *)

Lemma route_groups_scal (p : params) (grs : list d8_group) (t : state) :
  scal (fold_left (route_group p) grs t) = scal t.
Proof. apply route_groups_scal_R. Qed.

Lemma update_to_froude_scal (p : params) (s : state) (k : sobj) :
  k <> s_vol_R -> scal (update_to_froude p s) k = scal s k.
Proof.
  intros Hk.
  assert (HR : forall t, scal (update_R p t) = scal t).
  { intros t. unfold update_R. cbv zeta. destruct (ET p); reflexivity. }
  assert (HI : forall t, scal (update_R_integral p t) k = scal t k).
  { intros t. unfold update_R_integral. cbv zeta.
    destruct (mul (mul (R_ t) (da p)) (Scalar (dt p)));
      cbn [scal set_scal]; unfold sstore;
      destruct (sobj_eq_dec s_vol_R k); congruence. }
  assert (HD : forall t, scal (update_discharge p t) = scal t).
  { intros t. unfold update_discharge. destruct (FLOOD_OPTION p); reflexivity. }
  assert (HV : forall t, scal (update_flow_volume p t) = scal t).
  { intros t. apply update_flow_volume_scal_R. }
  assert (HS : forall t, scal (update_free_surface_slope p t) = scal t).
  { intros t. unfold update_free_surface_slope.
    destruct (FLOOD_OPTION p); reflexivity. }
  assert (HF : forall t, scal (update_friction_factor p t) = scal t).
  { intros t. unfold update_friction_factor. cbv zeta.
    destruct (MANNING p), (LAW_OF_WALL p); reflexivity. }
  open_update Hf;
    change (scal (update_froude_number p ?t)) with (scal t);
    change (scal (update_velocity_on_edges p ?t)) with (scal t);
    rewrite HF;
    change (scal (update_shear_speed p ?t)) with (scal t);
    change (scal (update_shear_stress p ?t)) with (scal t);
    rewrite ?HS;
    change (scal (update_trapezoid_Rh p ?t)) with (scal t);
    change (scal (update_flood_depth p ?t)) with (scal t);
    change (scal (update_channel_depth p ?t)) with (scal t);
    change (scal (update_flood_volume p ?t)) with (scal t);
    change (scal (update_channel_volume p ?t)) with (scal t);
    rewrite HV, ?HD;
    change (scal (update_flood_discharge p ?t)) with (scal t);
    change (scal (update_channel_discharge p ?t)) with (scal t);
    rewrite HI, HR; reflexivity.
Qed.

Lemma Rltb_Rmax (a b : R) : (if Rltb a b then b else a) = Rmax a b.
Proof.
  unfold Rltb, Rmax. destruct (Rlt_dec a b), (Rle_dec a b); lra.
Qed.

Lemma update_edge_values_scal (p : params) (s : state) (k : sobj) :
  k <> s_vol_edge -> scal (update_edge_values p s) k = scal s k.
Proof.
  intros H. unfold update_edge_values. cbv zeta.
  destruct (FLOOD_OPTION p); cbn [scal set_heap set_scal]; unfold sstore;
    destruct (sobj_eq_dec s_vol_edge k); congruence.
Qed.

Lemma update_Q_out_integral_scal (p : params) (s : state) (k : sobj) :
  k <> s_vol_Q -> scal (update_Q_out_integral p s) k = scal s k.
Proof.
  intros H. unfold update_Q_out_integral. cbn [scal set_scal]. unfold sstore.
  destruct (sobj_eq_dec s_vol_Q k); congruence.
Qed.

Lemma update_peak_values_scal (p : params) (t : state) :
  let s' := update_peak_values p t in
  (scal s' s_Q_outlet = scal t s_Q_outlet /\
   scal s' s_u_outlet = scal t s_u_outlet /\
   scal s' s_d_outlet = scal t s_d_outlet) /\
  (scal s' s_Q_peak = Rmax (scal t s_Q_peak) (scal t s_Q_outlet) /\
   scal s' s_u_peak = Rmax (scal t s_u_peak) (scal t s_u_outlet) /\
   scal s' s_d_peak = Rmax (scal t s_d_peak) (scal t s_d_outlet)).
Proof.
  cbv zeta. rewrite <- !Rltb_Rmax.
  unfold update_peak_values. cbv zeta.
  destruct (Rltb (scal t s_Q_peak) (scal t s_Q_outlet)); cbn;
    destruct (Rltb (scal t s_u_peak) (scal t s_u_outlet)); cbn;
    destruct (Rltb (scal t s_d_peak) (scal t s_d_outlet)); cbn;
    repeat split; reflexivity.
Qed.

Lemma update_outlet_then_peak (p : params) (t : state) :
  let s' := update_peak_values p (update_outlet_values p t) in
  (scal s' s_Q_outlet = Q t (outlet_ID p) /\
   scal s' s_u_outlet = heap t o_u (outlet_ID p) /\
   scal s' s_d_outlet = heap t o_d (outlet_ID p)) /\
  (scal s' s_Q_peak = Rmax (scal t s_Q_peak) (Q t (outlet_ID p)) /\
   scal s' s_u_peak = Rmax (scal t s_u_peak) (heap t o_u (outlet_ID p)) /\
   scal s' s_d_peak = Rmax (scal t s_d_peak) (heap t o_d (outlet_ID p))).
Proof.
  cbv zeta.
  destruct (update_peak_values_scal p (update_outlet_values p t))
    as [[A1 [A2 A3]] [B1 [B2 B3]]].
  rewrite A1, A2, A3, B1, B2, B3.
  repeat split; reflexivity.
Qed.

(** The outlet and peak values that a tick leaves, in terms of the state
    after [update_froude_number]. *)
Lemma update_outlet_peak (p : params) (s : state) :
  let t := update_to_froude p s in
  let s' := update p s in
  (scal s' s_Q_outlet = Q t (outlet_ID p) /\
   scal s' s_u_outlet = heap t o_u (outlet_ID p) /\
   scal s' s_d_outlet = heap t o_d (outlet_ID p)) /\
  (scal s' s_Q_peak = Rmax (scal s s_Q_peak) (scal s' s_Q_outlet) /\
   scal s' s_u_peak = Rmax (scal s s_u_peak) (scal s' s_u_outlet) /\
   scal s' s_d_peak = Rmax (scal s s_d_peak) (scal s' s_d_outlet)).
Proof.
  intros t s'.
  assert (E : forall k, k <> s_vol_edge -> k <> s_vol_Q ->
            scal s' k
            = scal (update_peak_values p (update_outlet_values p t)) k).
  { intros k H1 H2. unfold s', update. cbv zeta. fold t.
    change (scal (update_time p ?x)) with (scal x).
    rewrite update_edge_values_scal, update_Q_out_integral_scal by assumption.
    reflexivity. }
  destruct (update_outlet_then_peak p t) as [[A1 [A2 A3]] [B1 [B2 B3]]].
  rewrite !E by discriminate.
  unfold t in B1, B2, B3. rewrite !update_to_froude_scal in B1, B2, B3 by discriminate.
  fold t in B1, B2, B3.
  rewrite A1, A2, A3, B1, B2, B3. repeat split; reflexivity.
Qed.

(** Each peak value is the largest outlet value of the ticks so far: it is
    never below the outlet value of any tick made, never below its value
    before the run and never decreases from one tick to the next. *)
Theorem peak_values_bound_every_tick
        (p : params) (s : state) (k n : nat) :
  (1 <= k <= n)%nat ->
  (scal (run p k s) s_Q_outlet <= scal (run p n s) s_Q_peak /\
   scal (run p k s) s_u_outlet <= scal (run p n s) s_u_peak /\
   scal (run p k s) s_d_outlet <= scal (run p n s) s_d_peak) /\
  (scal s s_Q_peak <= scal (run p n s) s_Q_peak /\
   scal s s_u_peak <= scal (run p n s) s_u_peak /\
   scal s s_d_peak <= scal (run p n s) s_d_peak).
Proof.
  intros [Hk Hn].
  assert (Hmono : forall m,
            scal (run p m s) s_Q_peak <= scal (run p (S m) s) s_Q_peak /\
            scal (run p m s) s_u_peak <= scal (run p (S m) s) s_u_peak /\
            scal (run p m s) s_d_peak <= scal (run p (S m) s) s_d_peak).
  { intros m. simpl run.
    destruct (update_outlet_peak p (run p m s)) as [_ [B1 [B2 B3]]].
    rewrite B1, B2, B3. repeat split; apply Rmax_l. }
  assert (Hle : forall m j, (j <= m)%nat ->
            scal (run p j s) s_Q_peak <= scal (run p m s) s_Q_peak /\
            scal (run p j s) s_u_peak <= scal (run p m s) s_u_peak /\
            scal (run p j s) s_d_peak <= scal (run p m s) s_d_peak).
  { induction m as [|m IH]; intros j Hj.
    - replace j with 0%nat by lia. repeat split; apply Rle_refl.
    - destruct (Nat.eq_dec j (S m)) as [->|Hne];
        [repeat split; apply Rle_refl|].
      destruct (IH j) as [I1 [I2 I3]]; [lia|].
      destruct (Hmono m) as [M1 [M2 M3]].
      repeat split; eapply Rle_trans; eassumption. }
  split.
  - destruct k as [|k]; [lia|].
    destruct (Hle n (S k) Hn) as [L1 [L2 L3]].
    assert (Hat : scal (run p (S k) s) s_Q_outlet <= scal (run p (S k) s) s_Q_peak /\
                  scal (run p (S k) s) s_u_outlet <= scal (run p (S k) s) s_u_peak /\
                  scal (run p (S k) s) s_d_outlet <= scal (run p (S k) s) s_d_peak).
    { simpl run.
      destruct (update_outlet_peak p (run p k s)) as [_ [B1 [B2 B3]]].
      rewrite B1, B2, B3. repeat split; apply Rmax_r. }
    destruct Hat as [H1 [H2 H3]].
    repeat split; eapply Rle_trans; eassumption.
  - exact (Hle n 0%nat (Nat.le_0_l n)).
Qed.

Lemma peak_values_bound_every_tick_witness :
  let p := demo_params false 1 1 1 0 (RefScalar 0) in
  let s := demo_state false 1 1 1 0 (RefScalar 0) in
  (scal (run p 1 s) s_Q_outlet <= scal (run p 3 s) s_Q_peak /\
   scal (run p 1 s) s_u_outlet <= scal (run p 3 s) s_u_peak /\
   scal (run p 1 s) s_d_outlet <= scal (run p 3 s) s_d_peak) /\
  (scal s s_Q_peak <= scal (run p 3 s) s_Q_peak /\
   scal s s_u_peak <= scal (run p 3 s) s_u_peak /\
   scal s s_d_peak <= scal (run p 3 s) s_d_peak).
Proof.
  apply (peak_values_bound_every_tick
           (demo_params false 1 1 1 0 (RefScalar 0))
           (demo_state false 1 1 1 0 (RefScalar 0)) 1 3).
  lia.
Defined.

(** ** Attenuation of the net excess ([update_flow_volume], ATTENUATE) *)

Lemma gsum_minus (n : nat) (a b : grid) :
  gsum n (fun i => a i - b i) = gsum n a - gsum n b.
Proof.
  induction n as [|n IH]; [unfold gsum, sum_list; simpl; lra|].
  rewrite !gsum_S, IH. lra.
Qed.

(** With attenuation, the net excess of a tick goes to a store that is
    drained into the channels; the amount drained never exceeds the
    store, so the clamp of the store at zero never fires and, as long as
    the final clamp of [vol] does not fire either, the water in the
    channels and in the store together grows by exactly [R*da*dt] summed
    over the cells. *)
Theorem attenuation_conserves_water (p : params) (s : state) :
  ATTENUATE p = true ->
  vol_ s <> Q_ s -> vol_ s <> o_vol_stored -> Q_ s <> o_vol_stored ->
  d8_ok (n_pixels p) (d8 p) ->
  (forall i, In i (noflow_IDs (d8 p)) -> Q s i = 0) ->
  (forall i, (i < n_pixels p)%nat -> 0 <= vol (flow_volume_unclamped p s) i) ->
  let s' := update_flow_volume p s in
  let n := n_pixels p in
  let stored := fun i => heap s o_vol_stored i + at_ (R_ s) i * at_ (da p) i * dt p in
  let vol_sides := fun i => Rmin (stored i / (3600 * 24 * 50) * dt p) (stored i) in
  (forall i, heap s' o_vol_stored i = stored i - vol_sides i /\
             0 <= heap s' o_vol_stored i) /\
  gsum n (vol s') + gsum n (heap s' o_vol_stored)
  = gsum n (vol s) + gsum n (heap s o_vol_stored)
    + gsum n (fun i => at_ (R_ s) i * at_ (da p) i * dt p).
Proof.
  intros Hatt Hne Hvs HQs [Hgr Hperm] Hno Hpos s' n stored vol_sides.
  pose (s1 := set_heap s (vol_ s) (fun i => vol s i + vol_sides i)).
  pose (s1' := set_heap s1 o_vol_stored (fun i => Rmax (stored i - vol_sides i) 0)).
  assert (Hclamp : forall i, Rmax (stored i - vol_sides i) 0 = stored i - vol_sides i).
  { intros i. apply Rmax_left. unfold vol_sides.
    pose proof (Rmin_r (stored i / (3600 * 24 * 50) * dt p) (stored i)). lra. }
  (* the state that enters the routing *)
  assert (Hu : flow_volume_unclamped p s
               = let s2 := fold_left (route_group p) (groups (d8 p)) s1' in
                 set_heap s2 (vol_ s2) (fun i => vol s2 i - Q s2 i * dt p)).
  { unfold flow_volume_unclamped. cbv zeta. rewrite Hatt.
    assert (E : forall a b, a = b ->
              (let s2 := fold_left (route_group p) (groups (d8 p)) a in
               set_heap s2 (vol_ s2) (fun i => vol s2 i - Q s2 i * dt p))
              = (let s2 := fold_left (route_group p) (groups (d8 p)) b in
                 set_heap s2 (vol_ s2) (fun i => vol s2 i - Q s2 i * dt p)))
      by (intros a b ->; reflexivity).
    apply E. unfold s1', s1, set_heap, vol. cbn [heap scal Q_ vol_ R_ d_is_pos d_is_zero time_sec].
    f_equal.
    apply functional_extensionality. intros o.
    unfold store.
    destruct (obj_eq_dec o_vol_stored o) as [<-|Ho].
    - destruct (obj_eq_dec (vol_ s) o_vol_stored); [contradiction|].
      destruct (obj_eq_dec o_vol_stored o_vol_stored); [|contradiction].
      reflexivity.
    - destruct (obj_eq_dec (vol_ s) o) as [<-|Ho']; [|reflexivity].
      destruct (obj_eq_dec o_vol_stored (vol_ s)); [congruence|].
      reflexivity. }
  assert (Hv1 : vol s1' = fun i => vol s i + vol_sides i).
  { unfold vol, s1', s1. cbn [heap set_heap vol_].
    rewrite store_other by congruence. apply store_same. }
  assert (HQ1 : Q s1' = Q s).
  { unfold Q, s1', s1. cbn [heap set_heap Q_].
    rewrite !store_other by congruence. reflexivity. }
  assert (Hst1 : heap s1' o_vol_stored = fun i => stored i - vol_sides i).
  { unfold s1'. cbn [heap set_heap]. rewrite store_same.
    apply functional_extensionality. exact Hclamp. }
  assert (Hne1 : vol_ s1' <> Q_ s1') by exact Hne.
  destruct (route_groups_effect n p (groups (d8 p)) s1' Hne1 Hgr) as [[_ Hb] [HQ2 Hs2]].
  set (s2 := fold_left (route_group p) (groups (d8 p)) s1') in *.
  assert (Hst2 : heap s2 o_vol_stored = heap s1' o_vol_stored).
  { apply route_groups_heap_other. cbn. congruence. }
  assert (Hv3 : vol (flow_volume_unclamped p s)
                = fun i => vol s2 i - Q s2 i * dt p).
  { rewrite Hu. cbv zeta. apply vol_set_heap_same. }
  assert (Hst' : heap s' o_vol_stored = fun i => stored i - vol_sides i).
  { rewrite <- Hst1, <- Hst2. unfold s', update_flow_volume. cbv zeta.
    cbn [heap set_heap].
    destruct (flow_volume_unclamped_bindings p s) as [_ E].
    rewrite E, store_other by congruence.
    rewrite Hu. cbv zeta. cbn [heap set_heap].
    fold s2. rewrite Hb. apply store_other. exact Hvs. }
  split.
  - intros i. rewrite Hst'. split; [reflexivity|].
    rewrite <- Hclamp. apply Rmax_r.
  - assert (Hv' : gsum n (vol s') = gsum n (vol (flow_volume_unclamped p s))).
    { apply gsum_ext. intros i Hi. unfold s', update_flow_volume. cbv zeta.
      rewrite vol_set_heap_same. apply Rmax_left. apply Hpos. exact Hi. }
    rewrite Hv', Hv3, gsum_minus_scale, Hs2, HQ2, HQ1, Hv1, Hst', gsum_plus, gsum_minus.
    assert (HQsum : gsum n (Q s)
                    = sum_list (map (Q s)
                         (flat_map w_IDs (filter p_OK (groups (d8 p)))))).
    { unfold gsum, n. rewrite <- (sum_list_perm (Q s) _ _ Hperm).
      rewrite map_app, sum_list_app,
        (sum_list_zero (Q s) (noflow_IDs (d8 p))) by exact Hno.
      lra. }
    rewrite HQsum. unfold stored. rewrite gsum_plus. lra.
Qed.

Lemma attenuated_demo_unclamped (i : nat) :
  (i < 2)%nat ->
  let p := attenuated_params 1 in
  let s := update_R p (initialize_computed_vars p (fun _ => zeros)) in
  0 <= vol (flow_volume_unclamped p s) i.
Proof.
  intros Hi. cbv zeta.
  assert (Hc : i = 0%nat \/ i = 1%nat) by lia.
  destruct Hc as [-> | ->]; cbn; unfold trapezoid_area, zeros; rewrite tan_0;
    match goal with
    | |- context [Rmin ?a ?b] =>
        assert (0 <= Rmin a b) by (apply Rmin_glb; lra)
    end; lra.
Qed.

Lemma attenuation_conserves_water_witness :
  let p := attenuated_params 1 in
  let s := update_R p (initialize_computed_vars p (fun _ => zeros)) in
  let s' := update_flow_volume p s in
  let stored := fun i => heap s o_vol_stored i + at_ (R_ s) i * at_ (da p) i * dt p in
  let vol_sides := fun i => Rmin (stored i / (3600 * 24 * 50) * dt p) (stored i) in
  (forall i, heap s' o_vol_stored i = stored i - vol_sides i /\
             0 <= heap s' o_vol_stored i) /\
  gsum 2 (vol s') + gsum 2 (heap s' o_vol_stored)
  = gsum 2 (vol s) + gsum 2 (heap s o_vol_stored)
    + gsum 2 (fun i => at_ (R_ s) i * at_ (da p) i * dt p).
Proof.
  cbv zeta.
  apply (attenuation_conserves_water
           (attenuated_params 1)
           (update_R (attenuated_params 1)
              (initialize_computed_vars (attenuated_params 1) (fun _ => zeros)))).
  - reflexivity.
  - discriminate.
  - discriminate.
  - discriminate.
  - exact demo_d8_ok.
  - intros i _. cbn. unfold zeros. lra.
  - intros i Hi. apply attenuated_demo_unclamped. exact Hi.
Defined.

(** ** The integral of the net excess ([update_R_integral]) *)

Lemma gsum_const (n : nat) (c : R) : gsum n (fun _ => c) = c * INR n.
Proof.
  induction n as [|n IH]; [unfold gsum, sum_list; simpl; lra|].
  rewrite gsum_S, IH, S_INR. lra.
Qed.

(** Whether [R] and [da] are scalars or grids, [update_R_integral] adds to
    [vol_R] the sum over the cells of [R*da*dt]: the shortcut taken for a
    scalar (times [n_pixels]) agrees with the sum of the broadcast grid. *)
Theorem update_R_integral_adds_cell_sum (p : params) (s : state) :
  scal (update_R_integral p s) s_vol_R
  = scal s s_vol_R
    + gsum (n_pixels p) (fun i => at_ (R_ s) i * at_ (da p) i * dt p).
Proof.
  unfold update_R_integral, mul. cbv zeta.
  destruct (R_ s) as [r|r], (da p) as [a|a]; cbn [lift2 at_];
    cbn [scal set_scal]; unfold sstore;
    (destruct (sobj_eq_dec s_vol_R s_vol_R); [|contradiction]);
    rewrite ?gsum_const; reflexivity.
Qed.

(** ** Flood discharge *)

(** Where the flood depth is zero there is no overbank discharge, and the
    total discharge of the tick is the channel discharge; a non-negative
    flood depth over a non-negative width never gives a negative overbank
    discharge. *)
Theorem flood_discharge_vanishes_without_flood_depth
        (p : params) (s : state) (i : cell) :
  FLOOD_OPTION p = true -> Q_ s = o_Q ->
  let s' := update_discharge p (update_flood_discharge p s) in
  (heap s o_d_flood i = 0 ->
     heap s' o_Qf i = 0 /\ Q s' i = heap s o_Qc i) /\
  (0 <= heap s o_d_flood i -> 0 <= width p i -> 0 <= heap s' o_Qf i).
Proof.
  intros Hf HQ s'.
  assert (EQf : heap s' o_Qf i
                = power (heap s o_d_flood i) two_thirds
                  * sqrt (Rabs ((if KINEMATIC_WAVE p then S_bed p
                                 else heap s o_S_free) i))
                  / flood_manning_n
                  * (width_ratio * width p i * heap s o_d_flood i)).
  { unfold s', update_discharge, update_flood_discharge. rewrite Hf. cbv zeta.
    cbn [heap set_heap Q_]. rewrite HQ.
    rewrite store_other by discriminate. rewrite store_same. reflexivity. }
  assert (EQ : Q s' i = heap s o_Qc i + heap s' o_Qf i).
  { rewrite EQf.
    unfold s', update_discharge, update_flood_discharge, Q. rewrite Hf. cbv zeta.
    cbn [heap set_heap Q_]. rewrite HQ, store_same.
    rewrite store_other by discriminate. rewrite store_same. reflexivity. }
  split.
  - intros Hz. rewrite EQ, EQf, Hz. split; ring.
  - intros Hd Hw. rewrite EQf.
    assert (Hp : 0 <= power (heap s o_d_flood i) two_thirds).
    { unfold power. destruct (Reqb (heap s o_d_flood i) 0); [lra|].
      unfold Rpower. left. apply exp_pos. }
    pose proof (sqrt_pos (Rabs ((if KINEMATIC_WAVE p then S_bed p
                                 else heap s o_S_free) i))) as Hs.
    unfold flood_manning_n, width_ratio.
    apply Rmult_le_pos.
    + apply Rmult_le_pos; [apply Rmult_le_pos; assumption|].
      left. apply Rinv_0_lt_compat. lra.
    + apply Rmult_le_pos; [apply Rmult_le_pos; [lra|assumption]|assumption].
Qed.

Lemma flood_discharge_vanishes_without_flood_depth_witness :
  let p := demo_params true 1 1 0 0 (RefScalar 0) in
  let s := demo_state true 1 1 0 0 (RefScalar 0) in
  let s' := update_discharge p (update_flood_discharge p s) in
  (heap s o_d_flood 0%nat = 0 ->
     heap s' o_Qf 0%nat = 0 /\ Q s' 0%nat = heap s o_Qc 0%nat) /\
  (0 <= heap s o_d_flood 0%nat -> 0 <= width p 0%nat -> 0 <= heap s' o_Qf 0%nat).
Proof.
  exact (flood_discharge_vanishes_without_flood_depth
           (demo_params true 1 1 0 0 (RefScalar 0))
           (demo_state true 1 1 0 0 (RefScalar 0)) 0%nat eq_refl eq_refl).
Defined.

(** ** Hydraulic radius *)

Lemma tan_le_two_over_cos (a : R) :
  0 <= a < PI / 2 -> 0 < cos a /\ 0 <= tan a /\ tan a <= 2 / cos a.
Proof.
  intros [H0 H1].
  assert (Hc : 0 < cos a) by (apply cos_gt_0; lra).
  assert (Hs : 0 <= sin a).
  { apply sin_ge_0; [lra|]. pose proof PI_RGT_0. lra. }
  pose proof (SIN_bound a) as [_ Hs1].
  split; [exact Hc|]. unfold tan, Rdiv.
  assert (Hi : 0 < / cos a) by (apply Rinv_0_lt_compat; exact Hc).
  split; [apply Rmult_le_pos; lra|].
  apply Rmult_le_compat_r; lra.
Qed.

Lemma trapezoid_Rh_bounds (d w a : R) :
  0 <= d -> 0 < w -> 0 <= a < PI / 2 ->
  0 <= trapezoid_area d w a / trapezoid_perimeter d w a <= d.
Proof.
  intros Hd Hw Ha.
  destruct (tan_le_two_over_cos a Ha) as [Hc [Ht Ht2]].
  unfold trapezoid_area, trapezoid_perimeter.
  assert (Hdc : 0 <= d / cos a).
  { unfold Rdiv. apply Rmult_le_pos; [exact Hd|].
    left. apply Rinv_0_lt_compat. exact Hc. }
  assert (HP : 0 < w + 2 * d / cos a).
  { unfold Rdiv in *. rewrite Rmult_assoc. lra. }
  assert (HA : 0 <= d * (w + d * tan a)).
  { apply Rmult_le_pos; [exact Hd|].
    pose proof (Rmult_le_pos d (tan a) Hd Ht). lra. }
  split.
  - unfold Rdiv at 1. apply Rmult_le_pos; [exact HA|].
    left. apply Rinv_0_lt_compat. exact HP.
  - apply Rmult_le_reg_r with (w + 2 * d / cos a); [exact HP|].
    unfold Rdiv at 1. rewrite Rmult_assoc, Rinv_l, Rmult_1_r by lra.
    apply Rmult_le_compat_l; [exact Hd|].
    assert (d * tan a <= d * (2 / cos a)) by (apply Rmult_le_compat_l; assumption).
    unfold Rdiv in *. lra.
Qed.

(** After the trapezoidal-geometry step the hydraulic radius of a cell
    lies between zero and the flow depth, for a non-negative depth, a
    positive bottom width and a bank angle in [[0, pi/2)]. *)
Theorem hydraulic_radius_between_zero_and_depth
        (p : params) (s : state) (i : cell) :
  0 <= heap s o_d i -> 0 < width p i -> 0 <= at_ (angle p) i < PI / 2 ->
  0 <= heap (update_trapezoid_Rh p s) o_Rh i <= heap s o_d i.
Proof.
  intros Hd Hw Ha.
  rewrite update_trapezoid_Rh_Rh.
  destruct (in_dec Nat.eq_dec i (noflow_IDs (d8 p))) as [Hi|Hi]; [lra|].
  rewrite update_trapezoid_Rh_A_wet, update_trapezoid_Rh_P_wet.
  destruct (in_dec Nat.eq_dec i (noflow_IDs (d8 p))) as [Hi'|_]; [contradiction|].
  apply (trapezoid_Rh_bounds _ _ _ Hd Hw Ha).
Qed.

Lemma hydraulic_radius_between_zero_and_depth_witness :
  let p := demo_params false 2 1 0 0 (RefScalar 0) in
  let s := demo_state false 2 1 0 0 (RefScalar 0) in
  0 <= heap (update_trapezoid_Rh p s) o_Rh 0%nat <= heap s o_d 0%nat.
Proof.
  apply (hydraulic_radius_between_zero_and_depth
           (demo_params false 2 1 0 0 (RefScalar 0))
           (demo_state false 2 1 0 0 (RefScalar 0)) 0%nat).
  - cbn. lra.
  - cbn. lra.
  - cbn. pose proof PI_RGT_0. lra.
Defined.

(** The module-level [Trapezoid_Rh], which takes the bank angle in
    degrees, returns what the component's [update_trapezoid_Rh] stores in
    a cell that has a flow direction, once the cell's angle (kept in
    radians) is converted to degrees. *)
Theorem Trapezoid_Rh_agrees_with_update_trapezoid_Rh
        (p : params) (s : state) (i : cell) :
  ~ In i (noflow_IDs (d8 p)) ->
  heap (update_trapezoid_Rh p s) o_Rh i
  = Trapezoid_Rh (heap s o_d i) (width p i) (at_ (angle p) i * 180 / PI).
Proof.
  intros Hi.
  rewrite update_trapezoid_Rh_Rh, update_trapezoid_Rh_A_wet,
    update_trapezoid_Rh_P_wet.
  destruct (in_dec Nat.eq_dec i (noflow_IDs (d8 p))) as [Hi'|_]; [contradiction|].
  unfold Trapezoid_Rh. cbv zeta.
  replace (at_ (angle p) i * 180 / PI * PI / 180) with (at_ (angle p) i);
    [reflexivity|].
  pose proof PI_RGT_0. field. lra.
Qed.

Lemma Trapezoid_Rh_agrees_with_update_trapezoid_Rh_witness :
  let p := demo_params false 2 1 0 0 (RefScalar 0) in
  let s := demo_state false 2 1 0 0 (RefScalar 0) in
  heap (update_trapezoid_Rh p s) o_Rh 0%nat
  = Trapezoid_Rh (heap s o_d 0%nat) (width p 0%nat) (at_ (angle p) 0%nat * 180 / PI).
Proof.
  apply (Trapezoid_Rh_agrees_with_update_trapezoid_Rh
           (demo_params false 2 1 0 0 (RefScalar 0))
           (demo_state false 2 1 0 0 (RefScalar 0)) 0%nat).
  cbn. intros [H|[]]. discriminate.
Defined.

(** ** The velocity closures against the friction factor *)

Lemma Rpower_third_cube (x : R) :
  0 < x -> Rpower x (1 / 3) * Rpower x (1 / 3) * Rpower x (1 / 3) = x.
Proof.
  intros H. rewrite <- !Rpower_plus.
  replace (1 / 3 + 1 / 3 + 1 / 3) with 1 by field.
  apply Rpower_1. exact H.
Qed.

Lemma Rpower_two_thirds (x : R) :
  Rpower x (2 / 3) = Rpower x (1 / 3) * Rpower x (1 / 3).
Proof.
  rewrite <- Rpower_plus. f_equal. field.
Qed.

Lemma Rpower_quotient (x y z : R) :
  0 < x -> 0 < y -> Rpower (x / y) z = Rpower x z / Rpower y z.
Proof.
  intros Hx Hy. unfold Rpower, Rdiv.
  rewrite ln_mult by (try apply Rinv_0_lt_compat; assumption).
  rewrite ln_Rinv by assumption.
  rewrite Rmult_plus_distr_l, exp_plus.
  f_equal. rewrite <- exp_Ropp. f_equal. ring.
Qed.

Lemma friction_factor_wet_cell (p : params) (t : state) (i : cell) :
  mask_ok t -> 0 < heap t o_d i ->
  let t' := update_friction_factor p t in
  (MANNING p = true -> LAW_OF_WALL p = false ->
     heap t' o_f i
     = g * Rsqr (at_ (nval p) i) / Rpower (heap t o_d i) (1 / 3)) /\
  (LAW_OF_WALL p = true ->
     heap t' o_f i
     = Rsqr (kappa / ln (Rmax (aval / at_ (z0val p) i * heap t o_d i) 1.1))).
Proof.
  intros Hm Hd.
  destruct (friction_froude_cells p t i Hm) as [_ [_ [_ [_ [_ [Hman Hlog]]]]]].
  cbv zeta.
  rewrite update_froude_number_heap_other, update_velocity_on_edges_heap_other
    in Hman, Hlog by discriminate.
  unfold update_velocity in Hman, Hlog.
  split; [intros M L; apply Hman; assumption|intros L; apply Hlog; assumption].
Qed.

Lemma closure_slope_after_friction (p : params) (t : state) :
  (if KINEMATIC_WAVE p then S_bed p
   else heap (update_friction_factor p t) o_S_free)
  = (if KINEMATIC_WAVE p then S_bed p else heap t o_S_free).
Proof.
  destruct (KINEMATIC_WAVE p); [reflexivity|].
  apply update_friction_factor_heap_other. discriminate.
Qed.

(** With the log-law closure, the friction factor that the tick stores and
    the velocity that [law_of_the_wall] returns satisfy
    [f * u^2 = g * Rh * |S|] in every wet cell: the bed shear stress
    [rho * f * u^2] equals [rho * g * Rh * |S|]. *)
Theorem law_of_the_wall_matches_friction_factor
        (p : params) (t : state) (i : cell) :
  mask_ok t -> LAW_OF_WALL p = true ->
  0 < heap t o_d i -> 0 <= heap t o_Rh i ->
  let t' := update_friction_factor p t in
  let S_ := (if KINEMATIC_WAVE p then S_bed p else heap t o_S_free) i in
  heap t' o_f i * Rsqr (law_of_the_wall p t' i) = g * heap t o_Rh i * Rabs S_.
Proof.
  intros Hm HL Hd HRh t' S_.
  destruct (friction_factor_wet_cell p t i Hm Hd) as [_ Hlog].
  fold t' in Hlog. rewrite (Hlog HL).
  unfold law_of_the_wall. cbv zeta. unfold t'.
  rewrite closure_slope_after_friction.
  rewrite !update_friction_factor_heap_other by discriminate.
  fold S_.
  set (sm := Rmax (aval / at_ (z0val p) i * heap t o_d i) 1.1).
  assert (Hsm : 0 < ln sm).
  { rewrite <- ln_1. apply ln_increasing; [lra|].
    pose proof (Rmax_r (aval / at_ (z0val p) i * heap t o_d i) 1.1).
    fold sm in H. lra. }
  assert (Hx : 0 <= heap t o_Rh i * Rabs S_).
  { apply Rmult_le_pos; [exact HRh|apply Rabs_pos]. }
  assert (Hg : 0 <= g) by (unfold g; lra).
  unfold law_const, Rsqr, kappa.
  replace (0.408 / ln sm * (0.408 / ln sm)
           * (sqrt g / 0.408 * sqrt (heap t o_Rh i * Rabs S_) * ln sm
              * (sqrt g / 0.408 * sqrt (heap t o_Rh i * Rabs S_) * ln sm)))
    with ((sqrt g * sqrt g)
          * (sqrt (heap t o_Rh i * Rabs S_) * sqrt (heap t o_Rh i * Rabs S_)))
    by (field; lra).
  rewrite !sqrt_sqrt by assumption. ring.
Qed.

(** With the Manning closure, the friction factor that the tick stores and
    the velocity that [manning_formula] returns satisfy
    [f * u^2 = g * |S| * Rh * (Rh/d)^(1/3)] in every wet cell; where the
    hydraulic radius equals the depth this is [g * d * |S|]. *)
Theorem manning_formula_matches_friction_factor
        (p : params) (t : state) (i : cell) :
  mask_ok t -> MANNING p = true -> LAW_OF_WALL p = false ->
  0 < heap t o_d i -> 0 < heap t o_Rh i -> at_ (nval p) i <> 0 ->
  let t' := update_friction_factor p t in
  let S_ := (if KINEMATIC_WAVE p then S_bed p else heap t o_S_free) i in
  heap t' o_f i * Rsqr (manning_formula p t' i)
  = g * Rabs S_ * heap t o_Rh i * Rpower (heap t o_Rh i / heap t o_d i) (1 / 3) /\
  (heap t o_Rh i = heap t o_d i ->
   heap t' o_f i * Rsqr (manning_formula p t' i) = g * heap t o_d i * Rabs S_).
Proof.
  intros Hm HM HL Hd HRh Hn t' S_.
  destruct (friction_factor_wet_cell p t i Hm Hd) as [Hman _].
  fold t' in Hman.
  assert (E : heap t' o_f i * Rsqr (manning_formula p t' i)
              = g * Rabs S_ * heap t o_Rh i
                * Rpower (heap t o_Rh i / heap t o_d i) (1 / 3)).
  { rewrite (Hman HM HL).
    unfold manning_formula. cbv zeta. unfold t'.
    rewrite closure_slope_after_friction.
    rewrite !update_friction_factor_heap_other by discriminate.
    fold S_.
    rewrite power_pos by exact HRh.
    rewrite Rpower_quotient by assumption.
    unfold two_thirds. rewrite Rpower_two_thirds.
    pose proof (Rpower_third_cube _ HRh) as Hc.
    set (a := Rpower (heap t o_Rh i) (1 / 3)) in *.
    set (b := Rpower (heap t o_d i) (1 / 3)).
    assert (Hb : 0 < b) by (unfold b, Rpower; apply exp_pos).
    rewrite <- Hc.
    unfold Rsqr.
    replace (a * a * sqrt (Rabs S_) / at_ (nval p) i
             * (a * a * sqrt (Rabs S_) / at_ (nval p) i))
      with (a * a * a * a * (sqrt (Rabs S_) * sqrt (Rabs S_))
            / (at_ (nval p) i * at_ (nval p) i))
      by (field; exact Hn).
    rewrite sqrt_sqrt by apply Rabs_pos.
    field. split; [lra|exact Hn]. }
  split; [exact E|].
  intros Heq. rewrite E, Heq.
  unfold Rdiv at 1. rewrite Rinv_r by lra.
  unfold Rpower. rewrite ln_1, Rmult_0_r, exp_0. ring.
Qed.

(** A cell of bottom width 2 m with flat banks, initially 1 m deep, after
    the depth and geometry steps. *)
Lemma wet_cell_after_geometry (p : params) (ext : obj -> grid) :
  angle p = Scalar 0 -> width p 0%nat = 2 -> d0 p = Scalar 1 ->
  ds (d8 p) 0%nat = 1 -> ~ In 0%nat (noflow_IDs (d8 p)) ->
  let t := update_trapezoid_Rh p
             (update_channel_depth p (initialize_computed_vars p ext)) in
  mask_ok t /\ heap t o_d 0%nat = 1 /\ heap t o_Rh 0%nat = 1 / 2.
Proof.
  intros Ha Hw Hd0 Hds Hno t.
  assert (Ed : heap (update_channel_depth p (initialize_computed_vars p ext))
                 o_d 0%nat = 1).
  { rewrite update_channel_depth_d. rewrite Ha. cbn [at_].
    replace (Reqb 0 0) with true by (symmetry; apply Reqb_true; reflexivity).
    cbn [heap initialize_computed_vars].
    rewrite Ha, Hd0, Hw, Hds. cbn [at_].
    unfold depth_rectangle, trapezoid_area. rewrite tan_0.
    replace ((0 + 1) * (2 + (0 + 1) * 0) * 1 / (2 * 1)) with 1 by field.
    apply Rmax_left. lra. }
  split; [unfold t; mask_ok_steps|].
  split.
  - unfold t. rewrite update_trapezoid_Rh_heap_other by discriminate. exact Ed.
  - unfold t.
    rewrite update_trapezoid_Rh_Rh, update_trapezoid_Rh_A_wet,
      update_trapezoid_Rh_P_wet.
    destruct (in_dec Nat.eq_dec 0%nat (noflow_IDs (d8 p))); [contradiction|].
    rewrite Ed, Ha, Hw. cbn [at_]. rewrite tan_0, cos_0. field.
Qed.

Lemma demo_noflow_not_0 : ~ In 0%nat (noflow_IDs demo_d8).
Proof. cbn. intros [H|[]]. discriminate. Qed.

Lemma law_of_the_wall_matches_friction_factor_witness :
  let p := log_law_params in
  let t := update_trapezoid_Rh p
             (update_channel_depth p (initialize_computed_vars p (fun _ => zeros))) in
  let t' := update_friction_factor p t in
  let S_ := (if KINEMATIC_WAVE p then S_bed p else heap t o_S_free) 0%nat in
  heap t' o_f 0%nat * Rsqr (law_of_the_wall p t' 0%nat)
  = g * heap t o_Rh 0%nat * Rabs S_.
Proof.
  cbv zeta.
  destruct (wet_cell_after_geometry log_law_params (fun _ => zeros)
              eq_refl eq_refl eq_refl eq_refl demo_noflow_not_0)
    as [Hm [Hd HRh]].
  apply (law_of_the_wall_matches_friction_factor log_law_params _ 0%nat).
  - exact Hm.
  - reflexivity.
  - rewrite Hd. lra.
  - rewrite HRh. lra.
Defined.

Lemma manning_formula_matches_friction_factor_witness :
  let p := demo_params false 2 1 0 0 (RefScalar 0) in
  let t := update_trapezoid_Rh p
             (update_channel_depth p (initialize_computed_vars p (fun _ => zeros))) in
  let t' := update_friction_factor p t in
  let S_ := (if KINEMATIC_WAVE p then S_bed p else heap t o_S_free) 0%nat in
  heap t' o_f 0%nat * Rsqr (manning_formula p t' 0%nat)
  = g * Rabs S_ * heap t o_Rh 0%nat
    * Rpower (heap t o_Rh 0%nat / heap t o_d 0%nat) (1 / 3) /\
  (heap t o_Rh 0%nat = heap t o_d 0%nat ->
   heap t' o_f 0%nat * Rsqr (manning_formula p t' 0%nat)
   = g * heap t o_d 0%nat * Rabs S_).
Proof.
  cbv zeta.
  destruct (wet_cell_after_geometry (demo_params false 2 1 0 0 (RefScalar 0))
              (fun _ => zeros) eq_refl eq_refl eq_refl eq_refl demo_noflow_not_0)
    as [Hm [Hd HRh]].
  apply (manning_formula_matches_friction_factor
           (demo_params false 2 1 0 0 (RefScalar 0)) _ 0%nat).
  - exact Hm.
  - reflexivity.
  - reflexivity.
  - rewrite Hd. lra.
  - rewrite HRh. lra.
  - cbn. lra.
Defined.

(** Neither closure returns a negative velocity for a non-negative
    hydraulic radius, and both return zero in the cells without a flow
    direction, where [update_trapezoid_Rh] has set the hydraulic radius to
    zero. *)
Theorem velocity_closures_nonnegative_and_zero_on_noflow
        (p : params) (s : state) (i : cell) :
  let t := update_trapezoid_Rh p s in
  (In i (noflow_IDs (d8 p)) ->
     manning_formula p t i = 0 /\ law_of_the_wall p t i = 0) /\
  (0 <= heap t o_Rh i -> 0 < at_ (nval p) i ->
     0 <= manning_formula p t i /\ 0 <= law_of_the_wall p t i).
Proof.
  intros t. split.
  - intros Hi.
    assert (E : heap t o_Rh i = 0).
    { unfold t. rewrite update_trapezoid_Rh_Rh.
      destruct (in_dec Nat.eq_dec i (noflow_IDs (d8 p))); [reflexivity|contradiction]. }
    unfold manning_formula, law_of_the_wall. cbv zeta. rewrite E.
    unfold power.
    replace (Reqb 0 0) with true by (symmetry; apply Reqb_true; reflexivity).
    cbv iota. rewrite !Rmult_0_l, sqrt_0. split; unfold Rdiv; ring.
  - intros HRh Hn.
    unfold manning_formula, law_of_the_wall. cbv zeta.
    set (S2 := Rabs ((if KINEMATIC_WAVE p then S_bed p else heap t o_S_free) i)).
    assert (Hp : 0 <= power (heap t o_Rh i) two_thirds).
    { unfold power. destruct (Reqb (heap t o_Rh i) 0); [lra|].
      unfold Rpower. left. apply exp_pos. }
    split.
    + unfold Rdiv. apply Rmult_le_pos.
      * apply Rmult_le_pos; [exact Hp|apply sqrt_pos].
      * left. apply Rinv_0_lt_compat. exact Hn.
    + apply Rmult_le_pos.
      * apply Rmult_le_pos; [|apply sqrt_pos].
        unfold law_const, kappa, Rdiv.
        apply Rmult_le_pos; [apply sqrt_pos|].
        left. apply Rinv_0_lt_compat. lra.
      * rewrite <- ln_1. left. apply ln_increasing; [lra|].
        match goal with
        | |- 1 < Rmax ?a ?b => pose proof (Rmax_r a b)
        end. lra.
Qed.

(** ** The Courant condition ([utils/tf_utils.py]) *)

(** In binary64 the step that [Stable_Timestep] returns need not pass
    [Courant_Condition_OK], although both use the same factor and the test
    is [<=]: for [dx = 30.0] and [vmax = 0.9] the step is
    33.333333333333336, the product [vmax * dt] rounds to
    30.000000000000004, above [dx], and the test is False.  For
    [vmax = 1.5] the step is 20.0 and the test is True. *)
Theorem Stable_Timestep_may_fail_Courant_Condition_OK :
  let dx   := B64.of_Z 30 in
  let vmax := B64.dec 9 1 in
  let dt   := Stable_Timestep dx vmax in
  dx = S754_finite false 8444249301319680 (-48) /\
  dt = S754_finite false 4691249611844267 (-47) /\
  B64.mul vmax dt = S754_finite false 8444249301319681 (-48) /\
  Courant_Condition_OK dx dt vmax = false /\
  Stable_Timestep dx (B64.dec 15 1) = B64.of_Z 20 /\
  Courant_Condition_OK dx (Stable_Timestep dx (B64.dec 15 1)) (B64.dec 15 1)
  = true.
Proof. vm_compute. repeat split. Qed.

(** ** Extreme values over the interior ([update_mins_and_maxes]) *)

Lemma fold_left_Rmin_spec (l : list R) :
  forall x, (fold_left Rmin l x <= x /\
             forall y, In y l -> fold_left Rmin l x <= y) /\
            In (fold_left Rmin l x) (x :: l).
Proof.
  induction l as [|z l IH]; intros x; simpl.
  - split; [split; [apply Rle_refl|intros y []]|left; reflexivity].
  - destruct (IH (Rmin x z)) as [[H1 H2] H3].
    pose proof (Rmin_l x z). pose proof (Rmin_r x z).
    split; [split|].
    + lra.
    + intros y [<-|Hy]; [lra|apply H2, Hy].
    + destruct H3 as [H3|H3]; [|right; right; exact H3].
      rewrite <- H3. unfold Rmin. destruct (Rle_dec x z); auto.
Qed.

Lemma fold_left_Rmax_spec (l : list R) :
  forall x, (x <= fold_left Rmax l x /\
             forall y, In y l -> y <= fold_left Rmax l x) /\
            In (fold_left Rmax l x) (x :: l).
Proof.
  induction l as [|z l IH]; intros x; simpl.
  - split; [split; [apply Rle_refl|intros y []]|left; reflexivity].
  - destruct (IH (Rmax x z)) as [[H1 H2] H3].
    pose proof (Rmax_l x z). pose proof (Rmax_r x z).
    split; [split|].
    + lra.
    + intros y [<-|Hy]; [lra|apply H2, Hy].
    + destruct H3 as [H3|H3]; [|right; right; exact H3].
      rewrite <- H3. unfold Rmax. destruct (Rle_dec x z); auto.
Qed.

Lemma rmin_list_spec (l : list R) (m : R) :
  rmin_list l = Some m -> (forall y, In y l -> m <= y) /\ In m l.
Proof.
  destruct l as [|x l]; [discriminate|]. simpl. intros [= <-].
  destruct (fold_left_Rmin_spec l x) as [[H1 H2] H3].
  split; [|exact H3]. intros y [<-|Hy]; [exact H1|apply H2, Hy].
Qed.

Lemma rmax_list_spec (l : list R) (m : R) :
  rmax_list l = Some m -> (forall y, In y l -> y <= m) /\ In m l.
Proof.
  destruct l as [|x l]; [discriminate|]. simpl. intros [= <-].
  destruct (fold_left_Rmax_spec l x) as [[H1 H2] H3].
  split; [|exact H3]. intros y [<-|Hy]; [exact H1|apply H2, Hy].
Qed.

Lemma rmin_list_none (l : list R) : rmin_list l = None <-> l = [].
Proof. destruct l; simpl; split; intros; congruence. Qed.

Lemma rmax_list_none (l : list R) : rmax_list l = None <-> l = [].
Proof. destruct l; simpl; split; intros; congruence. Qed.

Lemma interior_in (ny nx row col : nat) :
  (1 <= row < ny - 1)%nat -> (1 <= col < nx - 1)%nat ->
  In (row * nx + col)%nat (interior ny nx).
Proof.
  intros Hr Hc. unfold interior. apply in_flat_map.
  exists row. split; [apply in_seq; lia|].
  apply in_map_iff. exists col. split; [reflexivity|apply in_seq; lia].
Qed.

Lemma interior_empty (ny nx : nat) :
  interior ny nx = [] <-> (ny <= 2 \/ nx <= 2)%nat.
Proof.
  split.
  - intros H.
    destruct (le_lt_dec ny 2) as [|Hy]; [left; assumption|].
    destruct (le_lt_dec nx 2) as [|Hx]; [right; assumption|].
    exfalso.
    pose proof (interior_in ny nx 1 1) as Hin.
    rewrite H in Hin. apply Hin; lia.
  - intros [H|H]; unfold interior.
    + replace (ny - 2)%nat with 0%nat by lia. reflexivity.
    + replace (nx - 2)%nat with 0%nat by lia. simpl.
      induction (seq 1 (ny - 2)); simpl; auto.
Qed.

(** [update_mins_and_maxes] fails, with the error of a reduction over an
    empty selection, exactly on the grids that have no interior cell:
    those with fewer than three rows or fewer than three columns. *)
Theorem update_mins_and_maxes_fails_iff_no_interior
        (ny nx : nat) (s : state) (e : extremes) :
  update_mins_and_maxes ny nx s e = None <-> (ny <= 2 \/ nx <= 2)%nat.
Proof.
  rewrite <- interior_empty. unfold update_mins_and_maxes, take. cbv zeta.
  destruct (interior ny nx) as [|c l]; simpl; split; intros H;
    congruence.
Qed.

(** When [update_mins_and_maxes] succeeds, every stored minimum is at most
    its earlier value and at most the value of every interior cell, and
    every stored maximum is at least its earlier value and at least the
    value of every interior cell. *)
Theorem update_mins_and_maxes_bounds_interior
        (ny nx : nat) (s : state) (e e' : extremes) (row col : nat) :
  update_mins_and_maxes ny nx s e = Some e' ->
  (1 <= row < ny - 1)%nat -> (1 <= col < nx - 1)%nat ->
  let i := (row * nx + col)%nat in
  (Q_min e' <= Q s i <= Q_max e' /\
   u_min e' <= heap s o_u i <= u_max e' /\
   d_min e' <= heap s o_d i <= d_max e') /\
  (Q_min e' <= Q_min e /\ Q_max e <= Q_max e' /\
   u_min e' <= u_min e /\ u_max e <= u_max e' /\
   d_min e' <= d_min e /\ d_max e <= d_max e').
Proof.
  intros H Hr Hc i.
  pose proof (interior_in ny nx row col Hr Hc) as Hin. fold i in Hin.
  unfold update_mins_and_maxes in H. cbv zeta in H.
  destruct (rmin_list (take (Q s) (interior ny nx))) as [Qmin|] eqn:E1;
    [|discriminate].
  destruct (rmax_list (take (Q s) (interior ny nx))) as [Qmax|] eqn:E2;
    [|discriminate].
  destruct (rmin_list (take (heap s o_u) (interior ny nx))) as [umin|] eqn:E3;
    [|discriminate].
  destruct (rmax_list (take (heap s o_u) (interior ny nx))) as [umax|] eqn:E4;
    [|discriminate].
  destruct (rmin_list (take (heap s o_d) (interior ny nx))) as [dmin|] eqn:E5;
    [|discriminate].
  destruct (rmax_list (take (heap s o_d) (interior ny nx))) as [dmax|] eqn:E6;
    [|discriminate].
  injection H as <-. cbn [Q_min Q_max u_min u_max d_min d_max].
  assert (Hmem : forall a : grid, In (a i) (take a (interior ny nx))).
  { intros a. unfold take. apply in_map. exact Hin. }
  pose proof (proj1 (rmin_list_spec _ _ E1) _ (Hmem (Q s))).
  pose proof (proj1 (rmax_list_spec _ _ E2) _ (Hmem (Q s))).
  pose proof (proj1 (rmin_list_spec _ _ E3) _ (Hmem (heap s o_u))).
  pose proof (proj1 (rmax_list_spec _ _ E4) _ (Hmem (heap s o_u))).
  pose proof (proj1 (rmin_list_spec _ _ E5) _ (Hmem (heap s o_d))).
  pose proof (proj1 (rmax_list_spec _ _ E6) _ (Hmem (heap s o_d))).
  unfold Rltb.
  repeat match goal with
         | |- context [Rlt_dec ?a ?b] => destruct (Rlt_dec a b)
         end; repeat split; lra.
Qed.

Lemma update_mins_and_maxes_bounds_interior_witness :
  let s := demo_state false 1 1 0 0 (RefScalar 0) in
  let e := initialize_min_and_max_values in
  let e' := mkExtremes
              (if Rltb (Q s 4%nat) (Q_min e) then Q s 4%nat else Q_min e)
              (if Rltb (Q_max e) (Q s 4%nat) then Q s 4%nat else Q_max e)
              (if Rltb (heap s o_u 4%nat) (u_min e) then heap s o_u 4%nat else u_min e)
              (if Rltb (u_max e) (heap s o_u 4%nat) then heap s o_u 4%nat else u_max e)
              (if Rltb (heap s o_d 4%nat) (d_min e) then heap s o_d 4%nat else d_min e)
              (if Rltb (d_max e) (heap s o_d 4%nat) then heap s o_d 4%nat else d_max e) in
  (Q_min e' <= Q s 4%nat <= Q_max e' /\
   u_min e' <= heap s o_u 4%nat <= u_max e' /\
   d_min e' <= heap s o_d 4%nat <= d_max e') /\
  (Q_min e' <= Q_min e /\ Q_max e <= Q_max e' /\
   u_min e' <= u_min e /\ u_max e <= u_max e' /\
   d_min e' <= d_min e /\ d_max e <= d_max e').
Proof.
  cbv zeta.
  apply (update_mins_and_maxes_bounds_interior 3 3
           (demo_state false 1 1 0 0 (RefScalar 0))
           initialize_min_and_max_values _ 1 1).
  - reflexivity.
  - lia.
  - lia.
Defined.

(** ** The earlier stability guards *)

Lemma filter_nil_iff {A : Type} (c : A -> bool) (l : list A) :
  filter c l = [] <-> (forall x, In x l -> c x = false).
Proof.
  induction l as [|y l IH]; simpl.
  - split; [intros _ x []|reflexivity].
  - destruct (c y) eqn:Ey.
    + split; [discriminate|].
      intros H. rewrite (H y) in Ey by (left; reflexivity). discriminate.
    + rewrite IH. split.
      * intros H x [<-|Hx]; [exact Ey|apply H, Hx].
      * intros H x Hx. apply H. right. exact Hx.
Qed.

Lemma raises_last_iff (c : spec_float -> bool) (a : fgrid) (m : string)
      (r : LastError + bool) :
  r = (if (length (filter c a) =? 0)%nat then inr true
       else inl (mkLastError (np_min (filter c a))
                   (if (length (filter c a) <? 30)%nat
                    then first_where c a 0 else None) m)) ->
  raises_last r <-> (exists x, In x a /\ c x = true).
Proof.
  intros ->. unfold raises_last.
  destruct (length (filter c a) =? 0)%nat eqn:E.
  - apply Nat.eqb_eq, length_zero_iff_nil in E.
    split; [intros [e H]; discriminate|].
    intros [x [Hx Hc]].
    rewrite (proj1 (filter_nil_iff c a) E x Hx) in Hc. discriminate.
  - split; [|intros _; eexists; reflexivity].
    intros _. apply Nat.eqb_neq in E.
    destruct (filter c a) as [|x l] eqn:Ef; [contradiction E; reflexivity|].
    exists x. apply filter_In. rewrite Ef. left. reflexivity.
Qed.

Lemma is_bad_cases (x : spec_float) :
  is_bad x = true <-> is_neg x = true \/ isnan x = true \/ isinf x = true.
Proof.
  unfold is_bad, isfinite.
  destruct (is_neg x), (isnan x), (isinf x); cbn; intuition congruence.
Qed.

(** The earlier depth guard was stricter than the present one: it raises
    exactly when the present guard raises or some depth is NaN. *)
Theorem check_flow_depth_LAST_also_rejects_nan (d : fgrid) :
  raises_last (check_flow_depth_LAST d) <->
  (raises (check_flow_depth d) \/ exists x, In x d /\ isnan x = true).
Proof.
  rewrite (raises_last_iff is_bad d "Negative depth found."
             (check_flow_depth_LAST d) eq_refl).
  rewrite check_flow_depth_raises.
  split.
  - intros [x [Hx Hb]]. apply is_bad_cases in Hb.
    destruct Hb as [H|[H|H]].
    + left. exists x. tauto.
    + right. exists x. tauto.
    + left. exists x. tauto.
  - intros [[x [Hx H]]|[x [Hx H]]]; exists x; (split; [exact Hx|]);
      apply is_bad_cases; tauto.
Qed.

(** The earlier velocity guard and the present one, with its three tests
    enabled, reject the same velocity grids. *)
Theorem check_flow_velocity_LAST_rejects_the_same_grids (u : fgrid) :
  raises_last (check_flow_velocity_LAST u) <->
  raises (check_flow_velocity true true true u).
Proof.
  rewrite (raises_last_iff is_bad u "Negative or NaN velocity found."
             (check_flow_velocity_LAST u) eq_refl).
  rewrite check_flow_velocity_raises.
  split; intros [x [Hx H]]; exists x; (split; [exact Hx|]);
    apply is_bad_cases; exact H.
Qed.

(** ** Repair of the slope grid ([remove_bad_slopes]) *)

Lemma guarded_test (c : spec_float -> bool) (a : fgrid) (x : spec_float) :
  In x a -> (if (0 <? count c a)%nat then c x else false) = c x.
Proof.
  intros Hx. destruct (0 <? count c a)%nat eqn:E; [reflexivity|].
  apply Nat.ltb_ge in E.
  assert (E0 : count c a = 0%nat) by lia.
  symmetry. exact (proj1 (count_zero_iff c a) E0 x Hx).
Qed.

Lemma amin_in (a : fgrid) (m : spec_float) : amin a = Some m -> In m a.
Proof.
  destruct a as [|x r]; [discriminate|]. simpl. intros [= <-].
  revert x. induction r as [|y r IH]; intros x; simpl; [left; reflexivity|].
  destruct (IH (if SFltb y x then y else x)) as [H|H].
  - destruct (SFltb y x); [right; left|left]; exact H.
  - right. right. exact H.
Qed.

Lemma np_min_good (a : fgrid) :
  (forall x, In x a -> isnan x = false) ->
  (a = [] -> np_min a = None) /\
  (a <> [] -> exists m, np_min a = Some m /\ In m a).
Proof.
  intros Hn. unfold np_min.
  assert (E : existsb isnan a = false).
  { destruct (existsb isnan a) eqn:E; [|reflexivity].
    apply existsb_exists in E. destruct E as [x [Hx Hc]].
    rewrite (Hn x Hx) in Hc. discriminate. }
  rewrite E. split.
  - intros ->. reflexivity.
  - intros Hne. destruct a as [|x r]; [contradiction|].
    destruct (amin (x :: r)) as [m|] eqn:Em; [|discriminate].
    exists m. split; [reflexivity|apply amin_in, Em].
Qed.

Lemma good_slope_positive_finite (x : spec_float) :
  bad_slope x = false <-> exists m e, x = S754_finite false m e.
Proof.
  unfold bad_slope, is_zero, is_neg, fzero.
  destruct x as [b|b| |b m e]; try destruct b; cbn;
    (split; [intros H; try discriminate; eauto
            |intros [m' [e' H]]; try discriminate; reflexivity]).
Qed.

(** The shape of [remove_bad_slopes] in terms of [bad_slope]. *)
Lemma remove_bad_slopes_unfold (slope : fgrid) :
  remove_bad_slopes slope
  = if forallb (fun x => negb (bad_slope x)) slope then Some slope
    else match np_min (filter (fun x => negb (bad_slope x)) slope) with
         | None => None
         | Some S_min => Some (map (fun x => if bad_slope x then S_min else x) slope)
         end.
Proof.
  unfold remove_bad_slopes. cbv zeta.
  assert (Hbad : forall x, In x slope ->
            (if (0 <? count isnan slope)%nat then isnan x else false) ||
            (if (0 <? count is_zero slope)%nat then is_zero x else false) ||
            (if (0 <? count is_neg slope)%nat then is_neg x else false) ||
            (if (0 <? count isinf slope)%nat then isinf x else false)
            = bad_slope x).
  { intros x Hx. rewrite !guarded_test by exact Hx. reflexivity. }
  assert (Hcnt : ((count isnan slope + count is_neg slope + count isinf slope
                   + count is_zero slope =? 0)%nat)
                 = forallb (fun x => negb (bad_slope x)) slope).
  { destruct (forallb (fun x => negb (bad_slope x)) slope) eqn:E.
    - apply Nat.eqb_eq.
      rewrite forallb_forall in E.
      assert (H : forall c, (forall x, bad_slope x = false -> c x = false) ->
                            count c slope = 0%nat).
      { intros c Hc. apply count_zero_iff. intros x Hx. apply Hc.
        specialize (E x Hx). apply negb_true_iff in E. exact E. }
      unfold bad_slope in H.
      rewrite (H isnan), (H is_neg), (H isinf), (H is_zero); [reflexivity| | | |];
        intros x Hx; destruct (isnan x), (is_zero x), (is_neg x), (isinf x);
        cbn in Hx; congruence.
    - apply Nat.eqb_neq. intros Hz.
      assert (Hall : forallb (fun x => negb (bad_slope x)) slope = true).
      { apply forallb_forall. intros x Hx. apply negb_true_iff.
        unfold bad_slope.
        rewrite (proj1 (count_zero_iff isnan slope)) by (exact Hx || lia).
        rewrite (proj1 (count_zero_iff is_zero slope)) by (exact Hx || lia).
        rewrite (proj1 (count_zero_iff is_neg slope)) by (exact Hx || lia).
        rewrite (proj1 (count_zero_iff isinf slope)) by (exact Hx || lia).
        reflexivity. }
      congruence. }
  rewrite Hcnt.
  destruct (forallb (fun x => negb (bad_slope x)) slope); [reflexivity|].
  rewrite (filter_ext_in _ (fun x => negb (bad_slope x)) slope)
    by (intros x Hx; rewrite Hbad by exact Hx; reflexivity).
  destruct (np_min (filter (fun x => negb (bad_slope x)) slope)) as [S_min|];
    [|reflexivity].
  f_equal. apply map_ext_in. intros x Hx. rewrite Hbad by exact Hx. reflexivity.
Qed.

Lemma good_filter_no_nan (slope : fgrid) (x : spec_float) :
  In x (filter (fun x => negb (bad_slope x)) slope) -> isnan x = false.
Proof.
  intros H. apply filter_In in H. destruct H as [_ H].
  apply negb_true_iff in H. unfold bad_slope in H.
  destruct (isnan x); [discriminate|reflexivity].
Qed.

(** When [remove_bad_slopes] succeeds, the slope grid keeps its size, every
    slope in it is finite and positive, every slope that was finite and
    positive is unchanged, every other cell holds one and the same value,
    which occurs among the finite positive slopes of the input, and a
    second call changes nothing. *)
Theorem remove_bad_slopes_leaves_positive_slopes (slope r : fgrid) :
  remove_bad_slopes slope = Some r ->
  length r = length slope /\
  (forall y, In y r -> exists m e, y = S754_finite false m e) /\
  (forall k x, nth_error slope k = Some x -> bad_slope x = false ->
               nth_error r k = Some x) /\
  (exists S_min,
     forall k x, nth_error slope k = Some x -> bad_slope x = true ->
                 nth_error r k = Some S_min /\
                 In S_min slope /\ bad_slope S_min = false) /\
  remove_bad_slopes r = Some r.
Proof.
  rewrite remove_bad_slopes_unfold.
  destruct (forallb (fun x => negb (bad_slope x)) slope) eqn:Eall.
  - intros [= <-]. rewrite forallb_forall in Eall.
    assert (Hg : forall x, In x slope -> bad_slope x = false).
    { intros x Hx. apply negb_true_iff, Eall, Hx. }
    split; [reflexivity|]. split; [|split; [|split]].
    + intros y Hy. apply good_slope_positive_finite, Hg, Hy.
    + intros k x Hk _. exact Hk.
    + exists fzero. intros k x Hk Hb. apply nth_error_In in Hk.
      rewrite (Hg x Hk) in Hb. discriminate.
    + rewrite remove_bad_slopes_unfold.
      replace (forallb (fun x => negb (bad_slope x)) slope) with true; [reflexivity|].
      symmetry. apply forallb_forall. exact Eall.
  - destruct (np_min (filter (fun x => negb (bad_slope x)) slope)) as [S_min|] eqn:Em;
      [|discriminate].
    intros [= <-].
    assert (Hmin : In S_min (filter (fun x => negb (bad_slope x)) slope)).
    { destruct (np_min_good _ (good_filter_no_nan slope)) as [Hnil Hne].
      destruct (filter (fun x => negb (bad_slope x)) slope) as [|x0 l] eqn:Ef.
      - rewrite (Hnil eq_refl) in Em. discriminate.
      - destruct Hne as [m [Hm Hin]]; [discriminate|]. congruence. }
    apply filter_In in Hmin. destruct Hmin as [Hin Hgood].
    apply negb_true_iff in Hgood.
    assert (Hall : forall y,
              In y (map (fun x => if bad_slope x then S_min else x) slope) ->
              bad_slope y = false).
    { intros y Hy. apply in_map_iff in Hy. destruct Hy as [x [<- Hx]].
      destruct (bad_slope x) eqn:Ex; assumption. }
    split; [apply length_map|]. split; [|split; [|split]].
    + intros y Hy. apply good_slope_positive_finite, Hall, Hy.
    + intros k x Hk Hb. rewrite nth_error_map, Hk. cbn. rewrite Hb. reflexivity.
    + exists S_min. intros k x Hk Hb.
      split; [|split; assumption].
      rewrite nth_error_map, Hk. cbn. rewrite Hb. reflexivity.
    + rewrite remove_bad_slopes_unfold.
      replace (forallb (fun x => negb (bad_slope x))
                 (map (fun x => if bad_slope x then S_min else x) slope))
        with true; [reflexivity|].
      symmetry. apply forallb_forall. intros y Hy.
      apply negb_true_iff, Hall, Hy.
Qed.

Lemma remove_bad_slopes_leaves_positive_slopes_witness :
  let slope := [S754_finite false 3 (-4); fzero; S754_nan;
                S754_finite false 1 (-4); S754_infinity false;
                S754_finite true 1 0] in
  let r := [S754_finite false 3 (-4); S754_finite false 1 (-4);
            S754_finite false 1 (-4); S754_finite false 1 (-4);
            S754_finite false 1 (-4); S754_finite false 1 (-4)] in
  length r = length slope /\
  (forall y, In y r -> exists m e, y = S754_finite false m e) /\
  (forall k x, nth_error slope k = Some x -> bad_slope x = false ->
               nth_error r k = Some x) /\
  (exists S_min,
     forall k x, nth_error slope k = Some x -> bad_slope x = true ->
                 nth_error r k = Some S_min /\
                 In S_min slope /\ bad_slope S_min = false) /\
  remove_bad_slopes r = Some r.
Proof.
  cbv zeta.
  apply (remove_bad_slopes_leaves_positive_slopes
           [S754_finite false 3 (-4); fzero; S754_nan;
            S754_finite false 1 (-4); S754_infinity false;
            S754_finite true 1 0]).
  vm_compute. reflexivity.
Defined.

(** [remove_bad_slopes] fails, before it has changed the grid, exactly when
    the grid is not empty and none of its slopes is finite and positive. *)
Theorem remove_bad_slopes_fails_iff_no_good_slope (slope : fgrid) :
  remove_bad_slopes slope = None <->
  (slope <> [] /\ forall x, In x slope -> bad_slope x = true).
Proof.
  rewrite remove_bad_slopes_unfold.
  destruct (forallb (fun x => negb (bad_slope x)) slope) eqn:Eall.
  - split; [discriminate|]. intros [Hne Hbad]. exfalso.
    rewrite forallb_forall in Eall.
    destruct slope as [|x l]; [contradiction|].
    specialize (Eall x (or_introl eq_refl)). specialize (Hbad x (or_introl eq_refl)).
    rewrite Hbad in Eall. discriminate.
  - destruct (np_min_good _ (good_filter_no_nan slope)) as [Hnil Hne].
    destruct (filter (fun x => negb (bad_slope x)) slope) as [|x0 l] eqn:Ef.
    + rewrite (Hnil eq_refl). split; [intros _|reflexivity].
      split.
      * intros ->. discriminate.
      * intros x Hx.
        pose proof (proj1 (filter_nil_iff _ _) Ef x Hx) as H.
        apply negb_false_iff in H. exact H.
    + destruct Hne as [m [-> Hin]]; [discriminate|].
      split; [discriminate|]. intros [_ Hbad]. exfalso.
      assert (Hx0 : In x0 (filter (fun x => negb (bad_slope x)) slope))
        by (rewrite Ef; left; reflexivity).
      apply filter_In in Hx0. destruct Hx0 as [Hx0 Hg].
      rewrite (Hbad x0 Hx0) in Hg. discriminate.
Qed.

(** ** Grid normalisation ([utils/visualize.py]) *)

Lemma normalize_grid_spec (grid : list R) :
  (normalize_grid grid = None <-> grid = []) /\
  forall norm, normalize_grid grid = Some norm ->
    length norm = length grid /\
    (forall y, In y norm -> 0 <= y <= 1) /\
    ((exists a b, In a grid /\ In b grid /\ a <> b) -> In 0 norm /\ In 1 norm) /\
    ((forall a b, In a grid -> In b grid -> a = b) ->
     forall y, In y norm -> y = 0).
Proof.
  unfold normalize_grid. split.
  - destruct grid as [|x l]; simpl; [tauto|].
    split; [|discriminate].
    destruct (negb (Reqb (fold_left Rmin l x) (fold_left Rmax l x))); discriminate.
  - intros norm.
    destruct (rmin_list grid) as [gmin|] eqn:Emin; [|discriminate].
    destruct (rmax_list grid) as [gmax|] eqn:Emax; [|discriminate].
    destruct (rmin_list_spec _ _ Emin) as [Hlo Hinlo].
    destruct (rmax_list_spec _ _ Emax) as [Hhi Hinhi].
    destruct (Reqb gmin gmax) eqn:E; cbn [negb]; intros [= <-].
    + apply Reqb_true in E.
      split; [apply length_map|]. split; [|split].
      * intros y Hy. apply in_map_iff in Hy. destruct Hy as [x [<- _]]. lra.
      * intros [a [b [Ha [Hb Hab]]]]. exfalso.
        pose proof (Hlo a Ha). pose proof (Hhi a Ha).
        pose proof (Hlo b Hb). pose proof (Hhi b Hb). lra.
      * intros _ y Hy. apply in_map_iff in Hy. destruct Hy as [x [<- _]].
        reflexivity.
    + apply Reqb_false in E.
      assert (Hlt : gmin < gmax).
      { pose proof (Hhi gmin Hinlo). lra. }
      split; [apply length_map|]. split; [|split].
      * intros y Hy. apply in_map_iff in Hy. destruct Hy as [x [<- Hx]].
        pose proof (Hlo x Hx). pose proof (Hhi x Hx).
        assert (Hi : 0 < / (gmax - gmin)) by (apply Rinv_0_lt_compat; lra).
        split.
        -- unfold Rdiv. apply Rmult_le_pos; lra.
        -- apply Rmult_le_reg_r with (gmax - gmin); [lra|].
           unfold Rdiv. rewrite Rmult_assoc, Rinv_l by lra. lra.
      * intros _. split; apply in_map_iff.
        -- exists gmin. split; [field; lra|exact Hinlo].
        -- exists gmax. split; [field; lra|exact Hinhi].
      * intros Hconst. exfalso. apply E. apply Hconst; assumption.
Qed.

(** [normalize_grid] fails only on an empty grid; otherwise the result has
    the size of the grid and lies in [[0, 1]]; a grid that holds two
    different values is mapped onto both 0 and 1, and a constant grid to
    zeros. *)
Theorem normalize_grid_unit_range (grid : list R) :
  (normalize_grid grid = None <-> grid = []) /\
  forall norm, normalize_grid grid = Some norm ->
    length norm = length grid /\
    (forall y, In y norm -> 0 <= y <= 1) /\
    ((exists a b, In a grid /\ In b grid /\ a <> b) -> In 0 norm /\ In 1 norm) /\
    ((forall a b, In a grid -> In b grid -> a = b) ->
     forall y, In y norm -> y = 0).
Proof. exact (normalize_grid_spec grid). Qed.

(** For [a >= 0] and [b >= 0], [power_stretch2] maps every cell of a grid
    into the closed interval [[0, 1]]: the power [(1 + a*norm)**(-b)] that
    it subtracts from 1 lies between 0 and 1.  (The upper end is closed
    because the power, positive over the reals, rounds to zero in binary64
    for large [a] and [b].) *)
Theorem power_stretch2_range (grid out : list R) (a b : R) :
  0 <= a -> 0 <= b ->
  power_stretch2 grid a b = Some out ->
  length out = length grid /\ forall y, In y out -> 0 <= y <= 1.
Proof.
  intros Ha Hb. unfold power_stretch2.
  destruct (normalize_grid grid) as [norm|] eqn:En; [|discriminate].
  intros [= <-].
  destruct (proj2 (normalize_grid_spec grid) norm En) as [Hlen [Hr _]].
  split; [rewrite length_map; exact Hlen|].
  intros y Hy. apply in_map_iff in Hy. destruct Hy as [x [<- Hx]].
  destruct (Hr x Hx) as [Hx0 Hx1].
  assert (Hbase : 1 <= 1 + a * x).
  { pose proof (Rmult_le_pos a x Ha Hx0). lra. }
  assert (Hln : 0 <= ln (1 + a * x)).
  { destruct Hbase as [Hlt|<-]; [|rewrite ln_1; lra].
    left. rewrite <- ln_1. apply ln_increasing; lra. }
  unfold Rpower.
  assert (Hexp : - b * ln (1 + a * x) <= 0).
  { pose proof (Rmult_le_pos b _ Hb Hln). lra. }
  pose proof (exp_pos (- b * ln (1 + a * x))) as Hpos.
  assert (Hle : exp (- b * ln (1 + a * x)) <= 1).
  { destruct Hexp as [Hlt | Heq].
    - apply exp_increasing in Hlt. rewrite exp_0 in Hlt. lra.
    - rewrite Heq, exp_0. lra. }
  lra.
Qed.

Lemma power_stretch2_range_witness :
  let grid := [2; 5] in
  let out := [1 - Rpower (1 + 1000 * ((2 - Rmin 2 5) / (Rmax 2 5 - Rmin 2 5))) (- (1 / 2));
              1 - Rpower (1 + 1000 * ((5 - Rmin 2 5) / (Rmax 2 5 - Rmin 2 5))) (- (1 / 2))] in
  length out = length grid /\ forall y, In y out -> 0 <= y <= 1.
Proof.
  cbv zeta.
  apply (power_stretch2_range [2; 5] _ 1000 (1 / 2)); [lra|lra|].
  unfold power_stretch2, normalize_grid. cbn [rmin_list rmax_list fold_left].
  replace (Reqb (Rmin 2 5) (Rmax 2 5)) with false; [reflexivity|].
  symmetry. apply Reqb_false.
  rewrite Rmin_left, Rmax_right by lra. lra.
Defined.

(** * The snow component *)

Lemma inplace_at (op : R -> R -> R) (t v r : ndarray) (i : cell) :
  Snow.inplace op t v = Some r -> at_ r i = op (at_ t i) (at_ v i).
Proof.
  unfold Snow.inplace. destruct t as [x|a], v as [y|b]; intros [= <-]; reflexivity.
Qed.

Lemma inplace_grid (op : R -> R -> R) (a : grid) (v : ndarray) :
  exists b, Snow.inplace op (Grid a) v = Some (Grid b).
Proof. eexists. reflexivity. Qed.

Lemma snow_update_swe_spec (c : Snow.config) (m : Snow.met) (s s' : Snow.state) :
  Snow.update_swe c m s = Some s' ->
  (forall i, at_ (Snow.h_swe s') i
             = Rmax (at_ (Snow.h_swe s) i + at_ (Snow.P_snow m) i * Snow.dt c
                     - at_ (Snow.SM s) i * Snow.dt c) 0) /\
  Snow.h_snow s' = Snow.h_snow s /\ Snow.SM s' = Snow.SM s /\
  Snow.vol_SM s' = Snow.vol_SM s /\
  Snow.self_density_ratio s' = Snow.self_density_ratio s.
Proof.
  unfold Snow.update_swe. cbv zeta.
  destruct (Snow.inplace Rplus (Snow.h_swe s)
              (mul (Snow.P_snow m) (Scalar (Snow.dt c)))) as [h1|] eqn:E1;
    [|discriminate].
  destruct (Snow.inplace Rminus h1 (mul (Snow.SM s) (Scalar (Snow.dt c))))
    as [h2|] eqn:E2; [|discriminate].
  destruct (Snow.inplace Rmax h2 (Scalar 0)) as [h3|] eqn:E3; [|discriminate].
  intros [= <-].
  cbn [Snow.h_swe Snow.h_snow Snow.SM Snow.vol_SM Snow.self_density_ratio].
  split; [|repeat split].
  intros i.
  rewrite (inplace_at _ _ _ _ i E3), (inplace_at _ _ _ _ i E2),
    (inplace_at _ _ _ _ i E1).
  unfold mul. rewrite !at_lift2. reflexivity.
Qed.

(** [update_depth] multiplies by the attribute [self.density_ratio] and
    leaves it as it is. *)
Lemma snow_update_depth_spec (s s' : Snow.state) :
  Snow.update_depth s = Some s' ->
  (forall i, at_ (Snow.h_snow s') i
             = at_ (Snow.h_swe s) i * at_ (Snow.self_density_ratio s) i) /\
  Snow.h_swe s' = Snow.h_swe s /\ Snow.SM s' = Snow.SM s /\
  Snow.vol_SM s' = Snow.vol_SM s /\
  Snow.self_density_ratio s' = Snow.self_density_ratio s.
Proof.
  unfold Snow.update_depth. cbv zeta.
  assert (E : forall i, at_ (mul (Snow.h_swe s) (Snow.self_density_ratio s)) i
                        = at_ (Snow.h_swe s) i
                          * at_ (Snow.self_density_ratio s) i).
  { intros i. unfold mul. apply at_lift2. }
  destruct (Snow.h_snow s) as [x|a];
    destruct (mul (Snow.h_swe s) (Snow.self_density_ratio s)) as [y|b];
    try discriminate; intros [= <-];
    cbn [Snow.h_swe Snow.h_snow Snow.SM Snow.vol_SM Snow.self_density_ratio];
    (split; [intros i; rewrite <- E; reflexivity|repeat split]).
Qed.

(** The melt rate that enters [update_SM_integral] and [update_swe]. *)
Lemma snow_meltrate_spec (c : Snow.config) (m : Snow.met) (s : Snow.state) :
  let s1 := Snow.enforce_max_meltrate c (Snow.update_meltrate c m s) in
  (forall i, at_ (Snow.SM s1) i
             = Rmax (Rmin (Rmax (at_ (Snow.c0 c) i / 86400000
                                 * (at_ (Snow.T_air m) i - at_ (Snow.T0 c) i)) 0)
                          (at_ (Snow.density_ratio c) i / Snow.dt c
                           * at_ (Snow.h_snow s) i)) 0) /\
  Snow.h_snow s1 = Snow.h_snow s /\ Snow.h_swe s1 = Snow.h_swe s /\
  Snow.vol_SM s1 = Snow.vol_SM s /\
  Snow.self_density_ratio s1 = Snow.self_density_ratio s.
Proof.
  cbv zeta. split; [|repeat split].
  intros i. unfold Snow.enforce_max_meltrate, Snow.update_meltrate. cbv zeta.
  cbn [Snow.SM Snow.set_SM Snow.h_snow].
  unfold Snow.density_ratio, Snow.div, mul, sub.
  rewrite !at_lift2. reflexivity.
Qed.

Lemma snow_SM_integral_spec (c : Snow.config) (s : Snow.state) :
  let s1 := Snow.update_SM_integral c s in
  Snow.vol_SM s1
  = Snow.vol_SM s
    + gsum (Snow.n_pixels c)
        (fun i => at_ (Snow.SM s) i * at_ (Snow.da c) i * Snow.dt c) /\
  Snow.h_snow s1 = Snow.h_snow s /\ Snow.h_swe s1 = Snow.h_swe s /\
  Snow.SM s1 = Snow.SM s /\
  Snow.self_density_ratio s1 = Snow.self_density_ratio s.
Proof.
  cbv zeta. unfold Snow.update_SM_integral, mul. cbv zeta.
  destruct (Snow.SM s) as [x|a], (Snow.da c) as [y|b]; cbn [lift2 at_];
    cbn [Snow.vol_SM Snow.h_snow Snow.h_swe Snow.SM Snow.self_density_ratio];
    rewrite ?gsum_const; repeat split; reflexivity.
Qed.

(** One tick of the snow component, when it succeeds, in terms of the
    state before it. *)
Lemma snow_update_spec (c : Snow.config) (m : Snow.met) (s s' : Snow.state) :
  Snow.disabled c = false ->
  Snow.update c m s = Some s' ->
  (forall i, at_ (Snow.SM s') i
             = Rmax (Rmin (Rmax (at_ (Snow.c0 c) i / 86400000
                                 * (at_ (Snow.T_air m) i - at_ (Snow.T0 c) i)) 0)
                          (at_ (Snow.density_ratio c) i / Snow.dt c
                           * at_ (Snow.h_snow s) i)) 0) /\
  (forall i, at_ (Snow.h_swe s') i
             = Rmax (at_ (Snow.h_swe s) i + at_ (Snow.P_snow m) i * Snow.dt c
                     - at_ (Snow.SM s') i * Snow.dt c) 0) /\
  (forall i, at_ (Snow.h_snow s') i
             = at_ (Snow.h_swe s') i * at_ (Snow.self_density_ratio s) i) /\
  Snow.vol_SM s'
  = Snow.vol_SM s
    + gsum (Snow.n_pixels c)
        (fun i => at_ (Snow.SM s') i * at_ (Snow.da c) i * Snow.dt c) /\
  Snow.self_density_ratio s' = Snow.self_density_ratio s.
Proof.
  intros Hd. unfold Snow.update. rewrite Hd. cbv zeta.
  destruct (snow_meltrate_spec c m s) as [A1 [A2 [A3 [A4 A5]]]].
  set (s1 := Snow.enforce_max_meltrate c (Snow.update_meltrate c m s)) in *.
  destruct (snow_SM_integral_spec c s1) as [B1 [B2 [B3 [B4 B5]]]].
  set (s2 := Snow.update_SM_integral c s1) in *.
  destruct (Snow.update_swe c m s2) as [s3|] eqn:E3; [|discriminate].
  destruct (snow_update_swe_spec c m s2 s3 E3) as [C1 [C2 [C3 [C4 C5]]]].
  intros E4.
  destruct (snow_update_depth_spec s3 s' E4) as [D1 [D2 [D3 [D4 D5]]]].
  assert (ESM : Snow.SM s' = Snow.SM s1) by congruence.
  assert (ER : Snow.self_density_ratio s3 = Snow.self_density_ratio s)
    by congruence.
  split; [|split; [|split; [|split]]].
  - intros i. rewrite ESM. apply A1.
  - intros i. rewrite D2, C1, ESM, B4, B3, A3. reflexivity.
  - intros i. rewrite D1, D2, ER. reflexivity.
  - rewrite D4, C4, B1, ESM, A4. reflexivity.
  - congruence.
Qed.

(** A tick of the snow component that succeeds leaves, in every cell, a
    melt rate and a water equivalent that are not negative and a snow
    depth equal to the water equivalent times [self.density_ratio], the
    ratio that [initialize_computed_vars] stored; the tick does not
    assign that attribute, whatever snow density it has read, so the
    factor is [rho_H2O / rho_snow] of the tick only while the snow density
    is the one of initialization.  The melt integral grows by the sum over
    the cells of [SM*da*dt].  A tick on a state whose depth and water
    equivalent are grids always succeeds. *)
Theorem snow_update_keeps_pack_consistent
        (c : Snow.config) (m : Snow.met) (s : Snow.state) :
  Snow.disabled c = false ->
  (forall s', Snow.update c m s = Some s' ->
     (forall i, 0 <= at_ (Snow.SM s') i /\
                0 <= at_ (Snow.h_swe s') i /\
                at_ (Snow.h_snow s') i
                = at_ (Snow.h_swe s') i * at_ (Snow.self_density_ratio s) i) /\
     Snow.self_density_ratio s' = Snow.self_density_ratio s /\
     (Snow.self_density_ratio s = Snow.density_ratio c ->
      forall i, at_ (Snow.h_snow s') i
                = at_ (Snow.h_swe s') i
                  * (at_ (Snow.rho_H2O c) i / at_ (Snow.rho_snow c) i)) /\
     Snow.vol_SM s'
     = Snow.vol_SM s
       + gsum (Snow.n_pixels c)
           (fun i => at_ (Snow.SM s') i * at_ (Snow.da c) i * Snow.dt c)) /\
  ((exists a, Snow.h_swe s = Grid a) -> (exists b, Snow.h_snow s = Grid b) ->
   exists s', Snow.update c m s = Some s').
Proof.
  intros Hd. split.
  - intros s' H.
    destruct (snow_update_spec c m s s' Hd H) as [A [B [C [D E]]]].
    split; [|split; [exact E|split; [|exact D]]].
    + intros i. split; [rewrite A; apply Rmax_r|].
      split; [rewrite B; apply Rmax_r|apply C].
    + intros Hr i. rewrite C, Hr. unfold Snow.density_ratio, Snow.div.
      rewrite at_lift2. reflexivity.
  - intros [a Ha] [b Hb]. unfold Snow.update. rewrite Hd. cbv zeta.
    unfold Snow.update_swe. cbv zeta.
    destruct (snow_meltrate_spec c m s) as [_ [A2 [A3 _]]].
    set (s1 := Snow.enforce_max_meltrate c (Snow.update_meltrate c m s)) in *.
    destruct (snow_SM_integral_spec c s1) as [_ [B2 [B3 _]]].
    set (s2 := Snow.update_SM_integral c s1) in *.
    rewrite B3, A3, Ha. cbn [Snow.inplace].
    unfold Snow.update_depth. cbv zeta. cbn [Snow.h_snow Snow.h_swe].
    rewrite B2, A2, Hb. eexists. reflexivity.
Qed.

(** At a tick that has read a snow density of 500 kg/m^3 on a pack
    initialized with 250 kg/m^3: the depth is 4 times the water
    equivalent, not twice. *)
Lemma snow_update_keeps_pack_consistent_witness :
  let c := snow_demo_config_denser in
  let m := Snow.mkMet (Scalar 10) (Scalar 0) in
  let s := snow_demo_state in
  (forall s', Snow.update c m s = Some s' ->
     (forall i, 0 <= at_ (Snow.SM s') i /\
                0 <= at_ (Snow.h_swe s') i /\
                at_ (Snow.h_snow s') i = at_ (Snow.h_swe s') i * 4) /\
     Snow.self_density_ratio s' = Snow.self_density_ratio s /\
     (Snow.self_density_ratio s = Snow.density_ratio c ->
      forall i, at_ (Snow.h_snow s') i
                = at_ (Snow.h_swe s') i
                  * (at_ (Snow.rho_H2O c) i / at_ (Snow.rho_snow c) i)) /\
     Snow.vol_SM s'
     = Snow.vol_SM s
       + gsum (Snow.n_pixels c)
           (fun i => at_ (Snow.SM s') i * at_ (Snow.da c) i * Snow.dt c)) /\
  ((exists a, Snow.h_swe s = Grid a) -> (exists b, Snow.h_snow s = Grid b) ->
   exists s', Snow.update c m s = Some s').
Proof.
  cbv zeta.
  destruct (snow_update_keeps_pack_consistent snow_demo_config_denser
              (Snow.mkMet (Scalar 10) (Scalar 0)) snow_demo_state eq_refl)
    as [H1 H2].
  split; [|exact H2].
  intros s' Hs'. destruct (H1 s' Hs') as [A [B [C D]]].
  split; [|split; [exact B|split; [exact C|exact D]]].
  intros i. destruct (A i) as [A1 [A2 A3]].
  split; [exact A1|split; [exact A2|]].
  rewrite A3. cbn. f_equal. field.
Defined.

(** No melt without warmth or without snow: in a cell where the air is
    not warmer than the threshold temperature (for a melt factor that is
    not negative), or where no snow lies, a tick leaves a zero melt rate,
    and the water equivalent changes by the snowfall alone. *)
Theorem snow_does_not_melt_when_cold_or_bare
        (c : Snow.config) (m : Snow.met) (s s' : Snow.state) (i : cell) :
  Snow.disabled c = false ->
  Snow.update c m s = Some s' ->
  (at_ (Snow.T_air m) i <= at_ (Snow.T0 c) i /\ 0 <= at_ (Snow.c0 c) i) \/
  at_ (Snow.h_snow s) i = 0 ->
  at_ (Snow.SM s') i = 0 /\
  at_ (Snow.h_swe s') i
  = Rmax (at_ (Snow.h_swe s) i + at_ (Snow.P_snow m) i * Snow.dt c) 0 /\
  (0 <= at_ (Snow.h_swe s) i -> 0 <= at_ (Snow.P_snow m) i * Snow.dt c ->
   at_ (Snow.h_swe s') i
   = at_ (Snow.h_swe s) i + at_ (Snow.P_snow m) i * Snow.dt c).
Proof.
  intros Hd H Hcase.
  destruct (snow_update_spec c m s s' Hd H) as [A [B _]].
  assert (E : at_ (Snow.SM s') i = 0).
  { rewrite A.
    set (M := at_ (Snow.c0 c) i / 86400000
              * (at_ (Snow.T_air m) i - at_ (Snow.T0 c) i)).
    destruct Hcase as [[HT Hc0]|Hbare].
    - assert (HM : M <= 0).
      { unfold M.
        assert (0 <= at_ (Snow.c0 c) i / 86400000)
          by (unfold Rdiv; apply Rmult_le_pos; lra).
        assert (0 <= at_ (Snow.c0 c) i / 86400000
                     * (at_ (Snow.T0 c) i - at_ (Snow.T_air m) i))
          by (apply Rmult_le_pos; lra).
        lra. }
      rewrite (Rmax_right M 0) by exact HM.
      apply Rle_antisym; [|apply Rmax_r].
      apply Rmax_lub; [apply Rmin_l|apply Rle_refl].
    - rewrite Hbare, Rmult_0_r.
      apply Rle_antisym; [|apply Rmax_r].
      apply Rmax_lub; [apply Rmin_r|apply Rle_refl]. }
  split; [exact E|].
  assert (E2 : at_ (Snow.h_swe s') i
               = Rmax (at_ (Snow.h_swe s) i + at_ (Snow.P_snow m) i * Snow.dt c) 0).
  { rewrite B, E. f_equal. ring. }
  split; [exact E2|].
  intros H1 H2. rewrite E2. apply Rmax_left. lra.
Qed.

(** The cap that [enforce_max_meltrate] puts on the melt of one tick is
    the density ratio times the snow depth.  On a pack whose depth is the
    water equivalent times the density ratio, as every tick leaves it,
    and with a density ratio above one, the melt of a tick therefore
    exceeds the water equivalent of a pack that is not empty whenever
    the potential melt does. *)
Theorem snow_melt_cap_is_density_ratio_times_depth
        (c : Snow.config) (m : Snow.met) (s s' : Snow.state) (i : cell) :
  Snow.disabled c = false ->
  Snow.update c m s = Some s' ->
  0 < Snow.dt c -> 0 <= at_ (Snow.density_ratio c) i ->
  0 <= at_ (Snow.h_snow s) i ->
  let ratio := at_ (Snow.density_ratio c) i in
  let potential := Rmax (at_ (Snow.c0 c) i / 86400000
                         * (at_ (Snow.T_air m) i - at_ (Snow.T0 c) i)) 0 in
  at_ (Snow.SM s') i * Snow.dt c
  = Rmin (potential * Snow.dt c) (ratio * at_ (Snow.h_snow s) i) /\
  (at_ (Snow.h_snow s) i = at_ (Snow.h_swe s) i * ratio -> 1 < ratio ->
   0 < at_ (Snow.h_swe s) i ->
   at_ (Snow.h_swe s) i < potential * Snow.dt c ->
   at_ (Snow.h_swe s) i < at_ (Snow.SM s') i * Snow.dt c).
Proof.
  intros Hd H Hdt Hr Hh ratio potential.
  destruct (snow_update_spec c m s s' Hd H) as [A _].
  assert (Hp : 0 <= potential) by apply Rmax_r.
  assert (Hcap : ratio / Snow.dt c * at_ (Snow.h_snow s) i * Snow.dt c
                 = ratio * at_ (Snow.h_snow s) i) by (field; lra).
  assert (Hcap0 : 0 <= ratio / Snow.dt c * at_ (Snow.h_snow s) i).
  { apply Rmult_le_pos; [|exact Hh].
    unfold Rdiv. apply Rmult_le_pos; [exact Hr|].
    left. apply Rinv_0_lt_compat. exact Hdt. }
  assert (E : at_ (Snow.SM s') i * Snow.dt c
              = Rmin (potential * Snow.dt c) (ratio * at_ (Snow.h_snow s) i)).
  { rewrite A. fold ratio potential.
    rewrite Rmax_left by (apply Rmin_glb; assumption).
    rewrite <- Hcap. unfold Rmin.
    destruct (Rle_dec potential (ratio / Snow.dt c * at_ (Snow.h_snow s) i));
      destruct (Rle_dec (potential * Snow.dt c)
                  (ratio / Snow.dt c * at_ (Snow.h_snow s) i * Snow.dt c));
      try reflexivity; exfalso.
    - apply n. apply Rmult_le_compat_r; lra.
    - apply n. apply Rmult_le_reg_r with (Snow.dt c); assumption. }
  split; [exact E|].
  intros Hcons Hgt Hpos Hpot. rewrite E.
  apply Rmin_glb_lt; [exact Hpot|].
  rewrite Hcons.
  assert (1 * 1 < ratio * ratio) by (apply Rmult_le_0_lt_compat; lra).
  assert (at_ (Snow.h_swe s) i * 1 < at_ (Snow.h_swe s) i * (ratio * ratio))
    by (apply Rmult_lt_compat_l; lra).
  lra.
Qed.

Lemma snow_does_not_melt_when_cold_or_bare_witness :
  let c := snow_demo_config in
  let m := Snow.mkMet (Scalar (-5)) (Scalar (1 / 1000000)) in
  let s := snow_demo_state in
  let s' := snow_demo_after (-5) (1 / 1000000) in
  at_ (Snow.SM s') 0%nat = 0 /\
  at_ (Snow.h_swe s') 0%nat
  = Rmax (at_ (Snow.h_swe s) 0%nat + at_ (Snow.P_snow m) 0%nat * Snow.dt c) 0 /\
  (0 <= at_ (Snow.h_swe s) 0%nat -> 0 <= at_ (Snow.P_snow m) 0%nat * Snow.dt c ->
   at_ (Snow.h_swe s') 0%nat
   = at_ (Snow.h_swe s) 0%nat + at_ (Snow.P_snow m) 0%nat * Snow.dt c).
Proof.
  cbv zeta.
  apply (snow_does_not_melt_when_cold_or_bare snow_demo_config
           (Snow.mkMet (Scalar (-5)) (Scalar (1 / 1000000))) snow_demo_state
           (snow_demo_after (-5) (1 / 1000000)) 0%nat).
  - reflexivity.
  - reflexivity.
  - left. cbn. lra.
Defined.

Lemma snow_melt_cap_is_density_ratio_times_depth_witness :
  let c := snow_demo_config in
  let m := Snow.mkMet (Scalar 10) (Scalar 0) in
  let s := snow_demo_state in
  let s' := snow_demo_after 10 0 in
  let ratio := at_ (Snow.density_ratio c) 0%nat in
  let potential := Rmax (at_ (Snow.c0 c) 0%nat / 86400000
                         * (at_ (Snow.T_air m) 0%nat - at_ (Snow.T0 c) 0%nat)) 0 in
  at_ (Snow.SM s') 0%nat * Snow.dt c
  = Rmin (potential * Snow.dt c) (ratio * at_ (Snow.h_snow s) 0%nat) /\
  (at_ (Snow.h_snow s) 0%nat = at_ (Snow.h_swe s) 0%nat * ratio -> 1 < ratio ->
   0 < at_ (Snow.h_swe s) 0%nat ->
   at_ (Snow.h_swe s) 0%nat < potential * Snow.dt c ->
   at_ (Snow.h_swe s) 0%nat < at_ (Snow.SM s') 0%nat * Snow.dt c).
Proof.
  cbv zeta.
  apply (snow_melt_cap_is_density_ratio_times_depth snow_demo_config
           (Snow.mkMet (Scalar 10) (Scalar 0)) snow_demo_state
           (snow_demo_after 10 0) 0%nat).
  - reflexivity.
  - reflexivity.
  - cbn. lra.
  - cbn. lra.
  - cbn. lra.
Defined.

(** * The stopping rules of the driver *)

Lemma wrap32_le (z : Z) : (- 2 ^ 31 <= z -> - 2 ^ 31 <= Driver.wrap32 z <= z)%Z.
Proof.
  intros H. unfold Driver.wrap32.
  pose proof (Z.mod_pos_bound (z + 2 ^ 31) (2 ^ 32) ltac:(lia)) as [H1 H2].
  pose proof (Z.mod_le (z + 2 ^ 31) (2 ^ 32) ltac:(lia) ltac:(lia)).
  lia.
Qed.

(** One check under the 'Q_peak_fraction' rule that cannot end the run:
    the run was not done, the hydrograph is not on a falling limb or shows
    no discharge, and the discharge is negligible or the count of steady
    checks is still small. *)
Lemma check_finished_goes_on (d : Driver.driver) :
  Driver.stop_method d = "Q_peak_fraction"%string ->
  Driver.DONE d = false ->
  (Driver.Q_last d <= Driver.Q_outlet d \/ Driver.Q_outlet d <= 0) ->
  (Driver.Q_outlet d <= Driver.nonzero_tol d \/
   (Driver.n_same d + 1 <= Driver.n_same_max d /\
    - 2 ^ 31 <= Driver.n_same d + 1 /\ 0 <= Driver.n_same_max d)%Z) ->
  exists d',
    Driver.check_finished d = Return (false, d') /\
    Driver.stop_method d' = Driver.stop_method d /\
    Driver.DONE d' = false /\
    Driver.Q_last d' = Driver.Q_outlet d /\
    Driver.nonzero_tol d' = Driver.nonzero_tol d /\
    Driver.n_same_max d' = Driver.n_same_max d /\
    (Driver.n_same d' = 0%Z \/
     Driver.n_same d' = Driver.wrap32 (Driver.n_same d + 1)).
Proof.
  intros Hm Hdone Hpeak Hsteady.
  unfold Driver.check_finished. rewrite Hm. cbn [String.eqb Ascii.eqb Bool.eqb].
  cbv zeta.
  assert (E1 : (if Rltb (Driver.Q_outlet d) (Driver.Q_last d)
                then Return (Driver.set_DONE d
                               (Rleb (Driver.Q_outlet d)
                                  (Driver.Q_peak d * Driver.Qp_fraction d)
                                && Rltb 0 (Driver.Q_outlet d)))
                else Return d)
               = Return (Driver.set_DONE d false)).
  { destruct (Rltb (Driver.Q_outlet d) (Driver.Q_last d)) eqn:Ef.
    - apply Rltb_true in Ef.
      destruct Hpeak as [Hp|Hp]; [lra|].
      replace (Rltb 0 (Driver.Q_outlet d)) with false
        by (symmetry; apply Rltb_false; exact Hp).
      rewrite andb_false_r. reflexivity.
    - f_equal. destruct d. cbn in *. rewrite Hdone. reflexivity. }
  rewrite E1. cbn [bind].
  unfold Driver.check_steady_state. cbv zeta.
  set (d1 := if Rleb _ _ then _ else _).
  assert (Hd1 : Driver.stop_method d1 = Driver.stop_method d /\
                Driver.Q_outlet d1 = Driver.Q_outlet d /\
                Driver.nonzero_tol d1 = Driver.nonzero_tol d /\
                Driver.n_same_max d1 = Driver.n_same_max d /\
                Driver.DONE d1 = false /\
                (Driver.n_same d1 = 0%Z \/
                 Driver.n_same d1 = Driver.wrap32 (Driver.n_same d + 1))).
  { unfold d1.
    destruct (Rleb (Rabs (Driver.Q_outlet (Driver.set_DONE d false)
                          - Driver.Q_last (Driver.set_DONE d false)))
                (Driver.steady_tol (Driver.set_DONE d false)));
      cbn; repeat split; auto. }
  destruct Hd1 as [F1 [F2 [F3 [F4 [F5 F6]]]]].
  assert (E2 : (String.eqb (Driver.stop_method d1) "Q_peak_fraction"
                && Rltb (Driver.nonzero_tol d1) (Driver.Q_outlet d1)
                && (Driver.n_same_max d1 <? Driver.n_same d1)%Z) = false).
  { rewrite F2, F3, F4.
    destruct Hsteady as [Hs|[Hs [Hlo Hmax]]].
    - replace (Rltb (Driver.nonzero_tol d) (Driver.Q_outlet d)) with false
        by (symmetry; apply Rltb_false; exact Hs).
      rewrite andb_false_r. reflexivity.
    - replace (Driver.n_same_max d <? Driver.n_same d1)%Z with false;
        [apply andb_false_r|].
      symmetry. apply Z.ltb_ge.
      destruct F6 as [-> | ->].
      + lia.
      + pose proof (wrap32_le _ Hlo). lia. }
  rewrite E2. cbn [Driver.DONE Driver.set_DONE Driver.set_Q_last orb].
  eexists. split; [reflexivity|].
  cbn. rewrite F1, F2, F3, F4. repeat split; auto.
Qed.

Lemma checks_go_on (obs : list (R * R * R * Z)) :
  forall d : Driver.driver,
  Driver.stop_method d = "Q_peak_fraction"%string ->
  Driver.DONE d = false ->
  ((0 <= Driver.nonzero_tol d /\ forall o, In o obs -> shown_Q o <= 0) \/
   (rising (Driver.Q_last d) obs /\
    (- 2 ^ 31 - 1 <= Driver.n_same d /\
     Driver.n_same d + Z.of_nat (length obs) <= Driver.n_same_max d /\
     Z.of_nat (length obs) <= Driver.n_same_max d)%Z)) ->
  exists d', Driver.checks obs d = Return (false, d') /\ Driver.DONE d' = false.
Proof.
  induction obs as [|o rest IH]; intros d Hm Hdone Hcase.
  - exists d. cbn. rewrite Hdone. split; reflexivity.
  - destruct o as [[[Qout Qpk] tmin] tidx]. cbn [Driver.checks].
    set (d0 := Driver.observe d Qout Qpk tmin tidx).
    assert (Hstep : exists d',
              Driver.check_finished d0 = Return (false, d') /\
              Driver.stop_method d' = Driver.stop_method d0 /\
              Driver.DONE d' = false /\
              Driver.Q_last d' = Driver.Q_outlet d0 /\
              Driver.nonzero_tol d' = Driver.nonzero_tol d0 /\
              Driver.n_same_max d' = Driver.n_same_max d0 /\
              (Driver.n_same d' = 0%Z \/
               Driver.n_same d' = Driver.wrap32 (Driver.n_same d0 + 1))).
    { apply check_finished_goes_on.
      - exact Hm.
      - exact Hdone.
      - destruct Hcase as [[_ Hdry]|[[Hr _] _]].
        + right. apply (Hdry (Qout, Qpk, tmin, tidx)). left. reflexivity.
        + left. exact Hr.
      - destruct Hcase as [[Htol Hdry]|[_ [H1 [H2 H3]]]].
        + left. cbn.
          pose proof (Hdry (Qout, Qpk, tmin, tidx) (or_introl eq_refl)) as Hq.
          cbn in Hq. lra.
        + right. cbn. cbn [length] in H2, H3. lia. }
    destruct Hstep as [d' [E [F1 [F2 [F3 [F4 [F5 F6]]]]]]].
    rewrite E. cbn [bind fst snd].
    apply IH.
    + rewrite F1. exact Hm.
    + exact F2.
    + destruct Hcase as [[Htol Hdry]|[[_ Hr] [H1 [H2 H3]]]].
      * left. split; [rewrite F4; exact Htol|].
        intros o Ho. apply Hdry. right. exact Ho.
      * right. split; [rewrite F3; exact Hr|].
        rewrite F5. cbn [Driver.n_same_max Driver.observe d0].
        cbn [length] in H2, H3.
        destruct F6 as [-> | ->].
        -- lia.
        -- cbn [Driver.n_same Driver.observe d0].
           pose proof (wrap32_le (Driver.n_same d + 1) ltac:(lia)). lia.
Qed.

(** Under the 'Q_peak_fraction' rule a run that shows no discharge at the
    outlet never stops: however many checks are made, none returns
    [True]. *)
Theorem driver_never_stops_without_discharge
        (d : Driver.driver) (obs : list (R * R * R * Z)) :
  Driver.stop_method d = "Q_peak_fraction"%string ->
  Driver.DONE d = false ->
  0 <= Driver.nonzero_tol d ->
  (forall o, In o obs -> shown_Q o <= 0) ->
  exists d', Driver.checks obs d = Return (false, d') /\ Driver.DONE d' = false.
Proof.
  intros Hm Hdone Htol Hdry. apply checks_go_on; auto.
Qed.

Lemma driver_never_stops_without_discharge_witness :
  let d := Driver.initialize_stop_vars
             (Driver.mkDriver "Q_peak_fraction" (5 / 100) 0 0 0 0 0
                              0 0 0 0 false 0 0) in
  let obs := [(0, 0, 1, 1%Z); (0, 0, 2, 2%Z); (0, 0, 3, 3%Z)] in
  exists d', Driver.checks obs d = Return (false, d') /\ Driver.DONE d' = false.
Proof.
  cbv zeta.
  apply (driver_never_stops_without_discharge
           (Driver.initialize_stop_vars
              (Driver.mkDriver "Q_peak_fraction" (5 / 100) 0 0 0 0 0
                               0 0 0 0 false 0 0))
           [(0, 0, 1, 1%Z); (0, 0, 2, 2%Z); (0, 0, 3, 3%Z)]).
  - reflexivity.
  - reflexivity.
  - cbn. lra.
  - intros o [<-|[<-|[<-|[]]]]; cbn; lra.
Defined.

(** Under the 'Q_peak_fraction' rule, while the outlet hydrograph does not
    fall from one check to the next, the run cannot stop during the first
    499 checks after [initialize_stop_vars]: the peak-fraction test needs
    a falling limb, and the steady-state test needs more than
    [n_same_max] = 499 unchanged values in a row. *)
Theorem driver_keeps_running_on_rising_limb
        (d : Driver.driver) (obs : list (R * R * R * Z)) :
  Driver.stop_method d = "Q_peak_fraction"%string ->
  Driver.DONE d = false ->
  rising (Driver.Q_outlet d) obs ->
  (length obs <= 499)%nat ->
  exists d', Driver.checks obs (Driver.initialize_stop_vars d)
             = Return (false, d') /\ Driver.DONE d' = false.
Proof.
  intros Hm Hdone Hr Hlen. apply checks_go_on.
  - exact Hm.
  - exact Hdone.
  - right. split; [exact Hr|]. cbn. lia.
Qed.

Lemma driver_keeps_running_on_rising_limb_witness :
  let d := Driver.mkDriver "Q_peak_fraction" (5 / 100) 0 0 0 0 0
                           0 0 0 0 false 0 0 in
  let obs := [(1, 1, 1, 1%Z); (3, 3, 2, 2%Z); (3, 3, 3, 3%Z)] in
  exists d', Driver.checks obs (Driver.initialize_stop_vars d)
             = Return (false, d') /\ Driver.DONE d' = false.
Proof.
  cbv zeta.
  apply (driver_keeps_running_on_rising_limb
           (Driver.mkDriver "Q_peak_fraction" (5 / 100) 0 0 0 0 0
                            0 0 0 0 false 0 0)
           [(1, 1, 1, 1%Z); (3, 3, 2, 2%Z); (3, 3, 3, 3%Z)]).
  - reflexivity.
  - reflexivity.
  - cbn. lra.
  - cbn. lia.
Defined.

(** [check_finished] raises exactly for a stopping method that is none of
    the three it knows.  Under 'Until_model_time' and 'Until_n_steps' its
    answer depends on the clock alone: the model time has reached
    [T_stop], or the time index has reached [n_steps]; the steady-state
    test plays no part. *)
Theorem check_finished_by_stop_method (d : Driver.driver) :
  (raises (Driver.check_finished d) <->
   Driver.stop_method d <> "Q_peak_fraction"%string /\
   Driver.stop_method d <> "Until_model_time"%string /\
   Driver.stop_method d <> "Until_n_steps"%string) /\
  (Driver.stop_method d = "Until_model_time"%string ->
   exists d', Driver.check_finished d
              = Return (Rleb (Driver.T_stop d) (Driver.time_min d), d')) /\
  (Driver.stop_method d = "Until_n_steps"%string ->
   exists d', Driver.check_finished d
              = Return ((Driver.n_steps d <=? Driver.time_index d)%Z, d')).
Proof.
  assert (Hsteady : forall d0 : Driver.driver,
            Driver.stop_method d0 <> "Q_peak_fraction"%string ->
            fst (Driver.check_steady_state d0) = false).
  { intros d0 H. unfold Driver.check_steady_state. cbv zeta.
    match goal with
    | |- fst (if String.eqb (Driver.stop_method ?x) _ && _ && _ then _ else _) = _ =>
        assert (E : Driver.stop_method x = Driver.stop_method d0)
          by (destruct (Rleb _ _); reflexivity);
        rewrite E
    end.
    apply String.eqb_neq in H. rewrite H. reflexivity. }
  assert (Htail : forall (d0 : Driver.driver),
            Driver.stop_method d0 <> "Q_peak_fraction"%string ->
            exists d',
              (let FINISHED := Driver.DONE d0 in
               let (STEADY, d1) := Driver.check_steady_state d0 in
               let FAILED := false in
               let d2 := Driver.set_Q_last d1 (Driver.Q_outlet d1) in
               let d3 := Driver.set_DONE d2 (FINISHED || STEADY || FAILED) in
               @Return (bool * Driver.driver) (Driver.DONE d3, d3))
              = Return (Driver.DONE d0, d')).
  { intros d0 H. cbv zeta. pose proof (Hsteady d0 H) as Hs.
    destruct (Driver.check_steady_state d0) as [st d1]. cbn in Hs. subst st.
    cbn. rewrite !orb_false_r. eexists. reflexivity. }
  unfold Driver.check_finished.
  destruct (String.eqb (Driver.stop_method d) "Q_peak_fraction") eqn:E1.
  - apply String.eqb_eq in E1.
    split; [|split; intros H; rewrite H in E1; discriminate].
    split; [|intros [H _]; contradiction].
    intros [e H]. exfalso.
    destruct (Rltb (Driver.Q_outlet d) (Driver.Q_last d)); cbn [bind] in H;
      cbv zeta in H;
      match type of H with
      | context [Driver.check_steady_state ?x] =>
          destruct (Driver.check_steady_state x)
      end; discriminate.
  - apply String.eqb_neq in E1.
    destruct (String.eqb (Driver.stop_method d) "Until_model_time") eqn:E2.
    + apply String.eqb_eq in E2. cbn [bind].
      destruct (Htail (Driver.set_DONE d (Rleb (Driver.T_stop d) (Driver.time_min d))) E1)
        as [d' Hd'].
      cbv zeta in Hd'. cbv zeta. 
      split; [|split].
      * split; [|intros [_ [H _]]; contradiction].
        intros [e H]. rewrite Hd' in H. discriminate.
      * intros _. exists d'. rewrite Hd'. reflexivity.
      * intros H. rewrite H in E2. discriminate.
    + apply String.eqb_neq in E2.
      destruct (String.eqb (Driver.stop_method d) "Until_n_steps") eqn:E3.
      * apply String.eqb_eq in E3. cbn [bind].
        destruct (Htail (Driver.set_DONE d (Driver.n_steps d <=? Driver.time_index d)%Z) E1)
          as [d' Hd'].
        cbv zeta in Hd'. cbv zeta.
        split; [|split].
        -- split; [|intros [_ [_ H]]; contradiction].
           intros [e H]. rewrite Hd' in H. discriminate.
        -- intros H. contradiction.
        -- intros _. exists d'. rewrite Hd'. reflexivity.
      * apply String.eqb_neq in E3. cbn [bind].
        split; [|split; intros H; contradiction].
        split; [intros _; auto|intros _; eexists; reflexivity].
Qed.

(** * The mass balance of a run *)

Lemma update_peak_values_scal_other (p : params) (t : state) (k : sobj) :
  k <> s_Q_peak -> k <> s_T_peak -> k <> s_u_peak -> k <> s_Tu_peak ->
  k <> s_d_peak -> k <> s_Td_peak ->
  scal (update_peak_values p t) k = scal t k.
Proof.
  intros H1 H2 H3 H4 H5 H6. unfold update_peak_values. cbv zeta.
  repeat match goal with
         | |- context [if ?b then _ else _] => destruct b
         end;
    cbn [scal set_scal]; unfold sstore;
    repeat match goal with
           | |- context [sobj_eq_dec ?a ?b] => destruct (sobj_eq_dec a b)
           end; congruence.
Qed.

Lemma update_outlet_values_scal_other (p : params) (t : state) (k : sobj) :
  k <> s_Q_outlet -> k <> s_u_outlet -> k <> s_d_outlet -> k <> s_f_outlet ->
  scal (update_outlet_values p t) k = scal t k.
Proof.
  intros H1 H2 H3 H4. unfold update_outlet_values. cbv zeta.
  cbn [scal set_scal]. unfold sstore.
  repeat match goal with
         | |- context [sobj_eq_dec ?a ?b] => destruct (sobj_eq_dec a b)
         end; congruence.
Qed.

(** The 0-d arrays that only the tail of a tick may write. *)
Lemma update_tail_scal (p : params) (t : state) (k : sobj) :
  k = s_vol_R \/ k = s_vol_chan_sum \/ k = s_vol_chan_sum0 ->
  scal (update_time p (update_edge_values p (update_Q_out_integral p
          (update_peak_values p (update_outlet_values p t))))) k
  = scal t k.
Proof.
  intros Hk.
  change (scal (update_time p ?x)) with (scal x).
  rewrite update_edge_values_scal, update_Q_out_integral_scal,
    update_peak_values_scal_other, update_outlet_values_scal_other;
    try reflexivity; destruct Hk as [->|[->| ->]]; discriminate.
Qed.

Lemma update_scal_totals (p : params) (s : state) :
  scal (update p s) s_vol_chan_sum0 = scal s s_vol_chan_sum0.
Proof.
  unfold update. cbv zeta. rewrite update_tail_scal by auto.
  apply update_to_froude_scal. discriminate.
Qed.

Lemma update_scal_vol_R (p : params) (s : state) :
  scal (update p s) s_vol_R
  = scal s s_vol_R
    + gsum (n_pixels p)
        (fun i => at_ (R_ (update_R p s)) i * at_ (da p) i * dt p).
Proof.
  unfold update. cbv zeta. rewrite update_tail_scal by auto.
  assert (HI : scal (update_R_integral p (update_R p s)) s_vol_R
               = scal s s_vol_R
                 + gsum (n_pixels p)
                     (fun i => at_ (R_ (update_R p s)) i * at_ (da p) i * dt p)).
  { unfold update_R_integral, mul. cbv zeta.
    assert (E : scal (update_R p s) = scal s)
      by (unfold update_R; cbv zeta; destruct (ET p); reflexivity).
    destruct (R_ (update_R p s)) as [r|r], (da p) as [a|a]; cbn [lift2 at_];
      cbn [scal set_scal]; unfold sstore;
      (destruct (sobj_eq_dec s_vol_R s_vol_R); [|contradiction]);
      rewrite ?gsum_const, E; reflexivity. }
  rewrite <- HI.
  assert (HD : forall t, scal (update_discharge p t) = scal t).
  { intros t. unfold update_discharge. destruct (FLOOD_OPTION p); reflexivity. }
  assert (HV : forall t, scal (update_flow_volume p t) = scal t).
  { intros t. apply update_flow_volume_scal_R. }
  assert (HS : forall t, scal (update_free_surface_slope p t) = scal t).
  { intros t. unfold update_free_surface_slope.
    destruct (FLOOD_OPTION p); reflexivity. }
  assert (HF : forall t, scal (update_friction_factor p t) = scal t).
  { intros t. unfold update_friction_factor. cbv zeta.
    destruct (MANNING p), (LAW_OF_WALL p); reflexivity. }
  unfold update_to_froude, update_velocity, update_diversions.
  destruct (FLOOD_OPTION p), (DYNAMIC_WAVE p), (KINEMATIC_WAVE p);
    cbn [negb]; cbv zeta;
    change (scal (update_froude_number p ?t)) with (scal t);
    change (scal (update_velocity_on_edges p ?t)) with (scal t);
    rewrite HF;
    change (scal (update_shear_speed p ?t)) with (scal t);
    change (scal (update_shear_stress p ?t)) with (scal t);
    rewrite ?HS;
    change (scal (update_trapezoid_Rh p ?t)) with (scal t);
    change (scal (update_flood_depth p ?t)) with (scal t);
    change (scal (update_channel_depth p ?t)) with (scal t);
    change (scal (update_flood_volume p ?t)) with (scal t);
    change (scal (update_channel_volume p ?t)) with (scal t);
    rewrite HV, ?HD;
    change (scal (update_flood_discharge p ?t)) with (scal t);
    change (scal (update_channel_discharge p ?t)) with (scal t);
    reflexivity.
Qed.

(** One tick without flooding, attenuation or clamping keeps
    [sum(vol) + vol_edge - vol_R]. *)
Lemma tick_keeps_balance (p : params) (s : state) :
  FLOOD_OPTION p = false -> ATTENUATE p = false ->
  Q_ s = o_Qc -> vol_ s = o_vol_chan ->
  d8_ok (n_pixels p) (d8 p) ->
  (forall i, In i (noflow_IDs (d8 p)) -> heap s o_u i = 0) ->
  (forall i, (i < n_pixels p)%nat -> 0 <= unclamped_volume p s i) ->
  gsum (n_pixels p) (vol (update p s)) + scal (update p s) s_vol_edge
    - scal (update p s) s_vol_R
  = gsum (n_pixels p) (vol s) + scal s s_vol_edge - scal s s_vol_R.
Proof.
  intros Hf Hatt HQ Hv Hd8 Hu Hpos.
  set (n := n_pixels p).
  destruct (update_noflood_volume p s Hf HQ Hv) as [Hvol [Hedge HR]].
  destruct (pre_routing_state p s HQ Hv) as [[AQ Av] [Avol [AQv [AR Ae]]]].
  set (sA := update_diversions p
               (update_channel_discharge p (update_R_integral p (update_R p s)))) in *.
  destruct (d8_ok_noflow n (d8 p) Hd8) as [Hnd Hlt].
  assert (Hun : unclamped_volume p s = vol (flow_volume_unclamped p sA)).
  { unfold unclamped_volume. cbv zeta. rewrite Hf. reflexivity. }
  assert (Hsum : gsum n (unclamped_volume p s)
                 = gsum n (vol s)
                   + gsum n (fun i => at_ (R_ (update_R p s)) i * at_ (da p) i * dt p)).
  { rewrite Hun, (flow_volume_unclamped_sum n p sA); auto.
    - rewrite Avol, AR. reflexivity.
    - rewrite AQ, Av. discriminate.
    - intros i Hi. rewrite AQv. cbv beta. rewrite (Hu i Hi). lra. }
  assert (Hclamp : forall i, (i < n)%nat ->
                             Rmax (unclamped_volume p s i) 0 = unclamped_volume p s i).
  { intros i Hi. apply Rmax_left. apply Hpos. exact Hi. }
  assert (Hafter : gsum n (vol (update p s))
                   = gsum n (unclamped_volume p s)
                     - sum_list (map (unclamped_volume p s) (noflow_IDs (d8 p)))).
  { rewrite <- gsum_assign_at_zero by assumption.
    apply gsum_ext. intros i Hi.
    rewrite Hvol, assign_at_spec, Hclamp by exact Hi. reflexivity. }
  assert (Hno : sum_list (map (fun i => Rmax (unclamped_volume p s i) 0)
                              (noflow_IDs (d8 p)))
                = sum_list (map (unclamped_volume p s) (noflow_IDs (d8 p)))).
  { f_equal. apply map_ext_in. intros i Hi. apply Hclamp, Hlt, Hi. }
  rewrite Hafter, Hedge, Hno, Hsum, update_scal_vol_R. fold n. lra.
Qed.

(** The totals of the final report balance.  For a run of any number of
    ticks from initialization, without flooding or attenuation, over a
    well-formed flow network and with no volume clamped at zero along the
    way, the total channel volume that [finalize] computes differs from
    the initial total by the integral of the net excess [vol_R] minus the
    volume lost over the edges [vol_edge]. *)
Theorem run_totals_balance (p : params) (ext : obj -> grid) (n : nat) :
  FLOOD_OPTION p = false -> ATTENUATE p = false ->
  d8_ok (n_pixels p) (d8 p) ->
  (forall k i, (k < n)%nat -> (i < n_pixels p)%nat ->
     0 <= unclamped_volume p (run p k (initialize_computed_vars p ext)) i) ->
  let s := update_total_channel_water_volume p
             (run p n (initialize_computed_vars p ext)) in
  scal s s_vol_chan_sum - scal s s_vol_chan_sum0
  = scal s s_vol_R - scal s s_vol_edge.
Proof.
  intros Hf Hatt Hd8 Hpos s.
  set (s0 := initialize_computed_vars p ext) in *.
  assert (Hb : forall k, Q_ (run p k s0) = o_Qc /\ vol_ (run p k s0) = o_vol_chan).
  { intros k. destruct (run_bindings p k s0) as [H1 H2].
    destruct (initialize_computed_vars_bindings p ext) as [H3 H4].
    rewrite Hf in H3, H4. fold s0 in H3, H4. split; congruence. }
  assert (Hu : forall k i, In i (noflow_IDs (d8 p)) -> heap (run p k s0) o_u i = 0).
  { intros k i Hi. destruct k as [|k]; [reflexivity|].
    simpl run. apply update_u_noflow. exact Hi. }
  assert (Hinv : forall k, (k <= n)%nat ->
            gsum (n_pixels p) (vol (run p k s0)) + scal (run p k s0) s_vol_edge
              - scal (run p k s0) s_vol_R
            = gsum (n_pixels p) (vol s0) /\
            scal (run p k s0) s_vol_chan_sum0 = gsum (n_pixels p) (vol s0)).
  { induction k as [|k IH]; intros Hk.
    - simpl run. split.
      + unfold s0. cbn [scal initialize_computed_vars]. lra.
      + unfold s0, vol. cbn [scal heap vol_ initialize_computed_vars].
        rewrite Hf. reflexivity.
    - destruct IH as [I1 I2]; [lia|].
      destruct (Hb k) as [HQ Hv]. simpl run. split.
      + rewrite (tick_keeps_balance p (run p k s0) Hf Hatt HQ Hv Hd8 (Hu k));
          [exact I1|].
        intros i Hi. apply Hpos; [lia|exact Hi].
      + rewrite update_scal_totals. exact I2. }
  destruct (Hinv n (Nat.le_refl n)) as [I1 I2].
  destruct (Hb n) as [_ Hv].
  unfold s, update_total_channel_water_volume. cbv zeta.
  cbn [scal set_scal]. unfold sstore.
  destruct (sobj_eq_dec s_vol_chan_sum s_vol_chan_sum); [|contradiction].
  destruct (sobj_eq_dec s_vol_chan_sum s_vol_chan_sum0); [discriminate|].
  destruct (sobj_eq_dec s_vol_chan_sum s_vol_R); [discriminate|].
  destruct (sobj_eq_dec s_vol_chan_sum s_vol_edge); [discriminate|].
  rewrite I2. unfold vol in I1 |- *. rewrite Hv in I1. lra.
Qed.

Lemma run_totals_balance_witness :
  let p := demo_params false 1 0 1 0 (RefScalar 0) in
  let s := update_total_channel_water_volume p
             (run p 1 (initialize_computed_vars p (fun _ => zeros))) in
  scal s s_vol_chan_sum - scal s s_vol_chan_sum0
  = scal s s_vol_R - scal s s_vol_edge.
Proof.
  cbv zeta.
  apply (run_totals_balance (demo_params false 1 0 1 0 (RefScalar 0))
           (fun _ => zeros) 1).
  - reflexivity.
  - reflexivity.
  - exact demo_d8_ok.
  - intros k i Hk Hi.
    assert (Ek : k = 0%nat) by lia. subst k.
    change (run (demo_params false 1 0 1 0 (RefScalar 0)) 0
              (initialize_computed_vars (demo_params false 1 0 1 0 (RefScalar 0))
                 (fun _ => zeros)))
      with (demo_state false 1 0 1 0 (RefScalar 0)).
    rewrite demo_unclamped_volume by exact Hi. lra.
Defined.
